(** * exercise.py: an inventory of EC2 instances, region by region

    A shallow embedding of [src/exercise.py] and the properties of its
    record normaliser ([get_instance_data]), its column-width table
    ([COLUMN_WIDTHS]), its paginated region collector ([get_instances]),
    its driver ([main]) and its table renderer ([print_table]).

    The first part is the embedding: Python's values and the operations
    the program applies to them, the provider, the globals, the monad of
    computations, then the program function by function under its own
    names, and the notions the statements are written with.  The second
    part is the theory: laws of the monad, the invariant of the widths,
    what the normaliser computes, and one section per property; then the
    widths a normalisation leaves and the instances it accepts, the ways a
    run ends, what a region returns, the shape of a table and of the
    output of a whole run, and the runs on well-formed responses.

    The program is Python: values are dynamically typed, the globals are
    mutable, the provider (boto3) is an external collaborator, and every
    operation may raise.  The embedding keeps all four:
    - values are the inductive [pyval];
    - the module's global variables are the record [globals];
    - a computation is a function from a state to an [outcome], the final
      state and the [event]s it emitted (lines printed, provider calls
      made); the normaliser and the renderer run on the globals alone, the
      collector and the driver on the globals and the provider's world;
    - the provider is a record of functions over a world of its own. *)

From stdpp Require Import gmap strings list fin_maps pretty.
From Stdlib Require Import ZArith Ascii Sorted Permutation.

#[local] Open Scope Z_scope.
#[local] Set Warnings "-register-all,-clear-no-such-hyp".

(* ===================================================================== *)
(** ** Python values *)
(* ===================================================================== *)

(** The values the provider's responses are made of.  A [datetime] is kept
    as the text its [ctime()] method returns, the only thing the program
    asks of it.  A string is a sequence of characters, one [ascii] each. *)
Inductive pyval : Type :=
| VNone
| VBool (b : bool)
| VInt (z : Z)
| VStr (s : string)
| VDatetime (ctime : string)
| VList (l : list pyval)
| VDict (d : gmap string pyval).

(** Uncaught Python exceptions, by class. *)
Inductive exn : Type :=
| TypeError
| AttributeError
| KeyError.

(** How a computation ends: normally, with an uncaught exception, through
    [sys.exit], or (for the model of [while True]) with its fuel spent. *)
Inductive outcome (A : Type) : Type :=
| Ok (a : A)
| Raise (e : exn)
| SysExit (code : Z)
| OutOfFuel.
Arguments Ok {A} a.
Arguments Raise {A} e.
Arguments SysExit {A} code.
Arguments OutOfFuel {A}.

#[global] Instance outcome_ret : MRet outcome := λ A a, Ok a.

#[global] Instance outcome_bind : MBind outcome := λ A B k o,
  match o with
  | Ok a => k a
  | Raise e => Raise e
  | SysExit code => SysExit code
  | OutOfFuel => OutOfFuel
  end.

(** What a run does to the outside: lines on standard output and calls to
    the provider. *)
Inductive event : Type :=
| Print (line : string)
| NewClient (region : string)
| DescribeInstances (NextToken : pyval).

(** [x == None] *)
Definition is_none (v : pyval) : bool :=
  match v with VNone => true | _ => false end.

(** [x == s] for a [str] [s]: a value of another type is never equal. *)
Definition eq_str (v : pyval) (s : string) : bool :=
  match v with VStr t => String.eqb t s | _ => false end.

(** [d.get(key, default)]: only a dict has the method. *)
Definition py_get (d : pyval) (key : string) (default : pyval) : outcome pyval :=
  match d with
  | VDict m => match m !! key with Some v => Ok v | None => Ok default end
  | _ => Raise AttributeError
  end.

(** [d[key]] *)
Definition py_subscript (d : pyval) (key : string) : outcome pyval :=
  match d with
  | VDict m => match m !! key with Some v => Ok v | None => Raise KeyError end
  | _ => Raise TypeError
  end.

(** [len(s)] of a [str], as a Python integer. *)
Definition len (s : string) : Z := Z.of_nat (String.length s).

(** [len(x)]: a [str], a list and a dict have a length; [None], a
    number and a [datetime] have none. *)
Definition py_len (v : pyval) : outcome Z :=
  match v with
  | VStr s => Ok (len s)
  | VList l => Ok (Z.of_nat (length l))
  | VDict m => Ok (Z.of_nat (size m))
  | _ => Raise TypeError
  end.

(** [for x in v]: the elements of a list, the characters of a [str], the
    keys of a dict (a finite map does not record the order in which the
    keys were inserted, the order Python yields them in; each is a
    [str]). *)
Definition py_iter (v : pyval) : outcome (list pyval) :=
  match v with
  | VList l => Ok l
  | VStr s => Ok ((λ c, VStr (String c "")) <$> String.list_ascii_of_string s)
  | VDict m => Ok ((λ kv, VStr kv.1) <$> map_to_list m)
  | _ => Raise TypeError
  end.

(** [a < b] between sort keys.  Two [str] are ordered character by
    character; [None] and dicts are not ordered at all and Python raises.
    (Python also orders numbers among themselves and lists element by
    element: keys the normaliser never produces from tag values, and which
    this model reports as unordered.) *)
Definition py_lt (a b : pyval) : outcome bool :=
  match a, b with
  | VStr s, VStr t => Ok (String.ltb s t)
  | _, _ => Raise TypeError
  end.

(** [sorted(l, key=...)] on a list already paired with its keys: a stable
    sort that only asks [<] of the keys.  An element is put in front of
    the sorted rest and moves right past the strictly smaller keys, so
    equal keys keep their order. *)
Fixpoint insert_keyed (x : pyval * pyval) (l : list (pyval * pyval))
    : outcome (list (pyval * pyval)) :=
  match l with
  | [] => Ok [x]
  | y :: l' =>
      smaller ← py_lt y.1 x.1;
      if (smaller : bool) then l'' ← insert_keyed x l'; mret (y :: l'')
      else mret (x :: y :: l')
  end.

Fixpoint sort_keyed (l : list (pyval * pyval)) : outcome (list (pyval * pyval)) :=
  match l with
  | [] => Ok []
  | x :: l' => l'' ← sort_keyed l'; insert_keyed x l''
  end.

(** [sorted(l, key=key)]: the keys are computed first, left to right. *)
Fixpoint with_keys (key : pyval → outcome pyval) (l : list pyval)
    : outcome (list (pyval * pyval)) :=
  match l with
  | [] => Ok []
  | x :: l' => k ← key x; keyed ← with_keys key l'; mret ((k, x) :: keyed)
  end.

Definition sorted (key : pyval → outcome pyval) (l : list pyval)
    : outcome (list pyval) :=
  keyed ← with_keys key l;
  keyed' ← sort_keyed keyed;
  mret (keyed'.*2).

(** [s * n]: [n] copies of [s], none when [n] is negative. *)
Fixpoint str_repeat (s : string) (n : nat) : string :=
  match n with
  | O => ""
  | S n' => s +:+ str_repeat s n'
  end.

Definition str_mul (s : string) (n : Z) : string := str_repeat s (Z.to_nat n).

(** [s.ljust(width)]: [s] padded with spaces on the right up to [width]
    characters, [s] itself when it is at least that long. *)
Definition ljust (s : string) (width : Z) : string :=
  s +:+ str_mul " " (width - len s).

(** [v.ljust(width)]: only a [str] has the method. *)
Definition py_ljust (v : pyval) : outcome (Z → string) :=
  match v with
  | VStr s => Ok (ljust s)
  | _ => Raise AttributeError
  end.

(** [s.split(sep)] for a one-character separator: the pieces between the
    separators, so one piece more than there are separators. *)
Fixpoint split (sep : ascii) (s : string) : list string :=
  match s with
  | EmptyString => [""]
  | String c s' =>
      if Ascii.eqb c sep then "" :: split sep s'
      else match split sep s' with
           | piece :: pieces => String c piece :: pieces
           | [] => [String c ""]
           end
  end.

Definition comma : ascii := ","%char.

(* ===================================================================== *)
(** ** The provider *)
(* ===================================================================== *)

(** What a call to boto3 gives back: an answer, or an exception whose
    [str(e)] is the diagnostic. *)
Inductive reply (A : Type) : Type :=
| Answer (a : A)
| Failure (diagnostic : string).
Arguments Answer {A} a.
Arguments Failure {A} diagnostic.

(** boto3 as the program uses it: the region catalogue, the client
    constructor and the paginated description call, over a world that the
    calls may change. *)
Record provider : Type := {
  World : Type;
  Client : Type;
  get_available_regions : World → list string;
  boto3_client : string → World → reply Client * World;
  describe_instances : Client → pyval → World → reply pyval * World;
}.

(** The command line: [ARGS.regions], [ARGS.tag], [ARGS.attributes], each
    [None] when the option is not given. *)
Record args : Type := {
  regions : option string;
  tag : option string;
  attributes : option string;
}.

Definition COLUMN_MARGIN : Z := 2.
Definition DEFAULT_ATTRIBUTES : string := "InstanceId,InstanceType,LaunchTime".

(** The module's global variables. *)
Record globals : Type := {
  AVAILABLE_REGIONS : list string;
  REGIONS : list string;
  ATTRIBUTES_TO_SHOW : list string;
  TAG_TO_SHOW : string;
  COLUMNS : list string;
  COLUMN_WIDTHS : gmap string Z;
}.

(** The globals as the module creates them. *)
Definition initial_globals : globals :=
  {| AVAILABLE_REGIONS := []; REGIONS := []; ATTRIBUTES_TO_SHOW := [];
     TAG_TO_SHOW := ""; COLUMNS := []; COLUMN_WIDTHS := ∅ |}.

Definition set_AVAILABLE_REGIONS (l : list string) (g : globals) : globals :=
  {| AVAILABLE_REGIONS := l; REGIONS := REGIONS g;
     ATTRIBUTES_TO_SHOW := ATTRIBUTES_TO_SHOW g; TAG_TO_SHOW := TAG_TO_SHOW g;
     COLUMNS := COLUMNS g; COLUMN_WIDTHS := COLUMN_WIDTHS g |}.

Definition set_REGIONS (l : list string) (g : globals) : globals :=
  {| AVAILABLE_REGIONS := AVAILABLE_REGIONS g; REGIONS := l;
     ATTRIBUTES_TO_SHOW := ATTRIBUTES_TO_SHOW g; TAG_TO_SHOW := TAG_TO_SHOW g;
     COLUMNS := COLUMNS g; COLUMN_WIDTHS := COLUMN_WIDTHS g |}.

Definition set_ATTRIBUTES_TO_SHOW (l : list string) (g : globals) : globals :=
  {| AVAILABLE_REGIONS := AVAILABLE_REGIONS g; REGIONS := REGIONS g;
     ATTRIBUTES_TO_SHOW := l; TAG_TO_SHOW := TAG_TO_SHOW g;
     COLUMNS := COLUMNS g; COLUMN_WIDTHS := COLUMN_WIDTHS g |}.

Definition set_TAG_TO_SHOW (s : string) (g : globals) : globals :=
  {| AVAILABLE_REGIONS := AVAILABLE_REGIONS g; REGIONS := REGIONS g;
     ATTRIBUTES_TO_SHOW := ATTRIBUTES_TO_SHOW g; TAG_TO_SHOW := s;
     COLUMNS := COLUMNS g; COLUMN_WIDTHS := COLUMN_WIDTHS g |}.

Definition set_COLUMNS (l : list string) (g : globals) : globals :=
  {| AVAILABLE_REGIONS := AVAILABLE_REGIONS g; REGIONS := REGIONS g;
     ATTRIBUTES_TO_SHOW := ATTRIBUTES_TO_SHOW g; TAG_TO_SHOW := TAG_TO_SHOW g;
     COLUMNS := l; COLUMN_WIDTHS := COLUMN_WIDTHS g |}.

Definition set_COLUMN_WIDTHS (widths : gmap string Z) (g : globals) : globals :=
  {| AVAILABLE_REGIONS := AVAILABLE_REGIONS g; REGIONS := REGIONS g;
     ATTRIBUTES_TO_SHOW := ATTRIBUTES_TO_SHOW g; TAG_TO_SHOW := TAG_TO_SHOW g;
     COLUMNS := COLUMNS g; COLUMN_WIDTHS := widths |}.

(* ===================================================================== *)
(** ** Computations *)
(* ===================================================================== *)

(** A computation reads and writes a state, emits events, and ends in an
    outcome.  The state and the events of a computation that raises are
    those reached when it raised. *)
Definition M (S A : Type) : Type := S → outcome A * S * list event.

Definition ret {S A} (a : A) : M S A := λ st, (Ok a, st, []).

Definition bind {S A B} (c : M S A) (k : A → M S B) : M S B := λ st,
  match c st with
  | (Ok a, st1, out1) =>
      match k a st1 with
      | (o, st2, out2) => (o, st2, out1 ++ out2)
      end
  | (Raise e, st1, out1) => (Raise e, st1, out1)
  | (SysExit code, st1, out1) => (SysExit code, st1, out1)
  | (OutOfFuel, st1, out1) => (OutOfFuel, st1, out1)
  end.

Notation "x <~ c ;; k" := (bind c (λ x, k))
  (at level 100, c at next level, right associativity).
Notation "c ;;; k" := (bind c (λ _, k))
  (at level 100, right associativity).

(** A pure operation that may raise. *)
Definition lift {S A} (o : outcome A) : M S A := λ st, (o, st, []).

(** Reading and assigning the state. *)
Definition read {S A} (f : S → A) : M S A := λ st, (Ok (f st), st, []).

Definition write {S} (f : S → S) : M S unit := λ st, (Ok tt, f st, []).

Definition emit {S} (e : event) : M S unit := λ st, (Ok tt, st, [e]).

(** A computation on the globals, run where there is a world as well. *)
Definition zoom {W A} (c : M globals A) : M (globals * W) A := λ st,
  match c st.1 with
  | (o, g, out) => (o, (g, st.2), out)
  end.

(** [print(line)] *)
Definition print {S} (line : string) : M S unit := emit (Print line).

(** [for x in l: acc = body(x, acc)], left to right; a body that raises
    ends the loop. *)
Fixpoint for_each {S A B} (l : list A) (body : A → B → M S B) (acc : B)
    : M S B :=
  match l with
  | [] => ret acc
  | x :: l' => acc' <~ body x acc ;; for_each l' body acc'
  end.

(** [fail(message)]: the message, then [sys.exit(1)].  No caller passes
    further data. *)
Definition fail {S A} (message : string) : M S A := λ st,
  (SysExit 1, st, [Print ("ERROR: " +:+ message)]).

(** [warn(message)].  No caller passes further data. *)
Definition warn {S} (message : string) : M S unit :=
  print ("WARNING: " +:+ message).

(* ===================================================================== *)
(** ** Initialisation of the attributes, the tag and the columns *)
(* ===================================================================== *)

Definition init_attributes (ARGS : args) : M globals unit :=
  (match attributes ARGS with
   | None => write (set_ATTRIBUTES_TO_SHOW (split comma DEFAULT_ATTRIBUTES))
   | Some given => write (set_ATTRIBUTES_TO_SHOW (split comma given))
   end) ;;;
  resolved <~ read ATTRIBUTES_TO_SHOW ;;
  if decide (Z.of_nat (length resolved) = 0)
  then fail "List of attributes is empty." else ret tt.

Definition init_tag (ARGS : args) : M globals unit :=
  match tag ARGS with
  | None => write (set_TAG_TO_SHOW "Owner")
  | Some given => write (set_TAG_TO_SHOW given)
  end.

(** [COLUMN_WIDTHS[column] = value] *)
Definition set_width (column : string) (value : Z) : M globals unit :=
  write (λ g, set_COLUMN_WIDTHS (<[column := value]> (COLUMN_WIDTHS g)) g).

(** [COLUMNS.append(TAG_TO_SHOW); COLUMNS.extend(ATTRIBUTES_TO_SHOW)], then
    every column starts as wide as its name. *)
Definition init_columns : M globals unit :=
  write (λ g, set_COLUMNS (COLUMNS g ++ [TAG_TO_SHOW g]) g) ;;;
  write (λ g, set_COLUMNS (COLUMNS g ++ ATTRIBUTES_TO_SHOW g) g) ;;;
  columns <~ read COLUMNS ;;
  for_each columns (λ column (_ : unit), set_width column (len column)) tt.

(** ['"' + s + '"'] *)
Definition quote : ascii := "034"%char.

Definition quoted (s : string) : string :=
  String quote s +:+ String quote "".

(** [get_width(column_name)]; a column name is a [str], never [None]. *)
Definition get_width (column_name : string) : M globals Z :=
  width <~ read (λ g, COLUMN_WIDTHS g !! column_name) ;;
  match width with
  | None => fail ("Can't get width of column " +:+ quoted column_name)
  | Some width => ret width
  end.

(* ===================================================================== *)
(** ** The record normaliser *)
(* ===================================================================== *)

(** One turn of the loop over the attributes:
    [item[attribute] = instance.get(attribute, '(no attribute key)')], the
    conversion of a [datetime], and the width update. *)
Definition get_attribute (instance : pyval) (attribute : string)
    (item : gmap string pyval) : M globals (gmap string pyval) :=
  value <~ lift (py_get instance attribute (VStr "(no attribute key)")) ;;
  let value := match value with VDatetime ctime => VStr ctime | _ => value end in
  let item := <[attribute := value]> item in
  n <~ lift (py_len value) ;;
  width <~ get_width attribute ;;
  (if decide (n > width) then set_width attribute n else ret tt) ;;;
  ret item.

(** One turn of the loop over the tags. *)
Definition get_tag (tag : pyval) (item : gmap string pyval)
    : M globals (gmap string pyval) :=
  TAG <~ read TAG_TO_SHOW ;;
  key <~ lift (py_get tag "Key" VNone) ;;
  if eq_str key TAG
  then value <~ lift (py_get tag "Value" (VStr "(no value key)")) ;;
       ret (<[TAG := value]> item)
  else ret item.

(** [item.get(key) == None]: the key is missing or bound to [None]. *)
Definition lacks (item : gmap string pyval) (key : string) : bool :=
  match item !! key with
  | None => true
  | Some v => is_none v
  end.

Definition get_instance_data (instance : pyval) : M globals pyval :=
  if is_none instance then ret VNone
  else
    ATTRIBUTES <~ read ATTRIBUTES_TO_SHOW ;;
    item <~ for_each ATTRIBUTES (get_attribute instance) ∅ ;;
    tags <~ lift (py_get instance "Tags" (VList [])) ;;
    tags <~ lift (py_iter tags) ;;
    item <~ for_each tags get_tag item ;;
    TAG <~ read TAG_TO_SHOW ;;
    let item := if lacks item TAG then <[TAG := VStr "unknown"]> item else item in
    value <~ lift (py_subscript (VDict item) TAG) ;;
    n <~ lift (py_len value) ;;
    width <~ get_width TAG ;;
    (if decide (n > width) then set_width TAG n else ret tt) ;;;
    ret (VDict item).

(** The loops over the reservations of a response and the instances of a
    reservation. *)
Definition collect_instances (instances : list pyval) (results : list pyval)
    : M globals (list pyval) :=
  for_each instances
    (λ instance results,
       record <~ get_instance_data instance ;;
       ret (results ++ [record]))
    results.

Definition collect_reservation (reservation : pyval) (results : list pyval)
    : M globals (list pyval) :=
  instances <~ lift (py_get reservation "Instances" (VList [])) ;;
  instances <~ lift (py_iter instances) ;;
  collect_instances instances results.

Definition collect_response (response : pyval) (results : list pyval)
    : M globals (list pyval) :=
  reservations <~ lift (py_get response "Reservations" (VList [])) ;;
  reservations <~ lift (py_iter reservations) ;;
  for_each reservations collect_reservation results.

(* ===================================================================== *)
(** ** The table renderer *)
(* ===================================================================== *)

Definition heading_cell (column : string) (heading : string)
    : M globals string :=
  width <~ get_width column ;;
  ret (heading +:+ ljust column (width + COLUMN_MARGIN)).

Definition line_cell (dict : pyval) (column : string) (line : string)
    : M globals string :=
  value <~ lift (py_get dict column (VStr "")) ;;
  value_ljust <~ lift (py_ljust value) ;;
  width <~ get_width column ;;
  ret (line +:+ value_ljust (width + COLUMN_MARGIN)).

Definition print_row (dict : pyval) (_ : unit) : M globals unit :=
  columns <~ read COLUMNS ;;
  line <~ for_each columns (line_cell dict) "" ;;
  print line.

Definition print_table (dict_list : list pyval) : M globals unit :=
  if decide (Z.of_nat (length dict_list) = 0) then ret tt
  else
    columns <~ read COLUMNS ;;
    heading <~ for_each columns heading_cell "" ;;
    print heading ;;;
    print (str_mul "-" (len heading - COLUMN_MARGIN)) ;;;
    for_each dict_list print_row tt.

(* ===================================================================== *)
(** ** The region collector and the driver *)
(* ===================================================================== *)

Section Provider.

Context {P : provider}.

(** The globals and the provider's world. *)
Definition state : Type := globals * World P.

Definition init_regions (ARGS : args) : M state unit :=
  available <~ read (λ st : state, get_available_regions P st.2) ;;
  zoom (
    write (set_AVAILABLE_REGIONS available) ;;;
    (if decide (Z.of_nat (length available) < 1)
     then fail "No available regions were returned." else ret tt) ;;;
    (match regions ARGS with
     | None => write (set_REGIONS available)
     | Some given => write (set_REGIONS (split comma given))
     end) ;;;
    resolved <~ read REGIONS ;;
    if decide (Z.of_nat (length resolved) < 1)
    then fail "List of regions is empty." else ret tt).

(** [boto3.client('ec2', region_name=region)] *)
Definition new_client (region : string) : M state (reply (Client P)) := λ st,
  let (r, w) := boto3_client P region st.2 in
  (Ok r, (st.1, w), [NewClient region]).

(** [client.describe_instances(NextToken=next_token)] *)
Definition describe (client : Client P) (next_token : pyval)
    : M state (reply pyval) := λ st,
  let (r, w) := describe_instances P client next_token st.2 in
  (Ok r, (st.1, w), [DescribeInstances next_token]).

(** The [while True] loop; [None] is the [return] of the page-fetch
    handler, [Some results] the [break]. *)
Fixpoint fetching (fuel : nat) (region : string) (client : Client P)
    (next_token : pyval) (results : list pyval)
    : M state (option (list pyval)) :=
  match fuel with
  | O => lift OutOfFuel
  | S fuel' =>
      response <~ describe client next_token ;;
      match response with
      | Failure diagnostic =>
          warn ("There was a problem getting the instances in the region "
                +:+ region +:+ ".") ;;;
          print diagnostic ;;;
          ret None
      | Answer response =>
          results <~ zoom (collect_response response results) ;;
          next_token <~ lift (py_get response "NextToken" VNone) ;;
          if is_none next_token then ret (Some results)
          else fetching fuel' region client next_token results
      end
  end.

(** [get_instances(region)]: [None] is Python's [None], returned after a
    warning; the region is a [str] in every call. *)
Definition get_instances (fuel : nat) (region : string)
    : M state (option (list pyval)) :=
  available <~ zoom (read AVAILABLE_REGIONS) ;;
  if decide (region ∉ available)
  then warn ("Region " +:+ quoted region
             +:+ " is not one of the available regions.") ;;;
       ret None
  else
    client <~ new_client region ;;
    match client with
    | Failure diagnostic =>
        warn ("There was a problem creating a client for this region "
              +:+ region +:+ ".") ;;;
        print diagnostic ;;;
        ret None
    | Answer client =>
        results <~ fetching fuel region client (VStr "") [] ;;
        match results with
        | None => ret None
        | Some results =>
            TAG <~ zoom (read TAG_TO_SHOW) ;;
            results <~ lift (sorted (λ k, py_subscript k TAG) results) ;;
            ret (Some results)
        end
    end.

(** The body of the loop over the regions. *)
Definition report (fuel : nat) (region : string) (_ : unit) : M state unit :=
  print (str_mul "*" 80) ;;;
  print ("REGION: " +:+ region) ;;;
  instances <~ get_instances fuel region ;;
  match instances with
  | None => ret tt
  | Some instances =>
      print ("Instances: " +:+ pretty (length instances)) ;;;
      zoom (print_table instances)
  end.

Definition main (fuel : nat) (ARGS : args) : M state unit :=
  init_regions ARGS ;;;
  zoom (init_tag ARGS) ;;;
  zoom (init_attributes ARGS) ;;;
  zoom init_columns ;;;
  regions <~ zoom (read REGIONS) ;;
  for_each regions (report fuel) tt.

End Provider.

Arguments state : clear implicits.

(* ===================================================================== *)
(** ** A scripted provider *)
(* ===================================================================== *)

(** A provider for concrete runs: its world is the list of replies it has
    still to give to [describe_instances], whatever the token; it knows a
    fixed catalogue of regions and refuses to build a client for the
    regions of a second list. *)
Definition scripted (catalogue refused : list string) : provider := {|
  World := list (reply pyval);
  Client := string;
  get_available_regions := λ _, catalogue;
  boto3_client := λ region w,
    if decide (region ∈ refused)
    then (Failure ("Could not connect to " +:+ region), w)
    else (Answer region, w);
  describe_instances := λ _ _ w,
    match w with
    | [] => (Failure "no more replies", [])
    | r :: w' => (r, w')
    end;
|}.

(* ===================================================================== *)
(** ** Notions used in the statements *)
(* ===================================================================== *)

(** A relation between the state before and the state after, whatever
    the outcome. *)
Definition preserves {S A} (R : relation S) (c : M S A) : Prop :=
  ∀ st o st' out, c st = (o, st', out) → R st st'.

(** Every tracked width is at least the length of the column's name. *)
Definition widths_cover_names (g : globals) : Prop :=
  ∀ column width, COLUMN_WIDTHS g !! column = Some width → len column ≤ width.

(** No tracked width is smaller after than before. *)
Definition widths_never_shrink (g g' : globals) : Prop :=
  ∀ column width, COLUMN_WIDTHS g !! column = Some width →
    ∃ width', COLUMN_WIDTHS g' !! column = Some width' ∧ width ≤ width'.

(** What the normaliser and the renderer may do to the globals: the
    configuration and the set of columns stay, the widths grow. *)
Record grows (g g' : globals) : Prop := {
  grows_AVAILABLE_REGIONS : AVAILABLE_REGIONS g' = AVAILABLE_REGIONS g;
  grows_REGIONS : REGIONS g' = REGIONS g;
  grows_ATTRIBUTES_TO_SHOW : ATTRIBUTES_TO_SHOW g' = ATTRIBUTES_TO_SHOW g;
  grows_TAG_TO_SHOW : TAG_TO_SHOW g' = TAG_TO_SHOW g;
  grows_COLUMNS : COLUMNS g' = COLUMNS g;
  grows_dom : dom (COLUMN_WIDTHS g') = dom (COLUMN_WIDTHS g);
  grows_widths : widths_never_shrink g g';
}.

(** Every column has a tracked width. *)
Definition columns_tracked (g : globals) : Prop :=
  ∀ column, column ∈ COLUMNS g → is_Some (COLUMN_WIDTHS g !! column).

Definition widths_invariant (g : globals) : Prop :=
  widths_cover_names g ∧ columns_tracked g.

(** The invariant as a relation between a state and a later one: it holds
    from the initial globals on, the initialisation included. *)
Definition keeps_invariant : relation globals :=
  λ g g', widths_invariant g → widths_invariant g'.

(** The value stored for an attribute of the raw instance [m]. *)
Definition attribute_value (m : gmap string pyval) (attribute : string) : pyval :=
  match m !! attribute with
  | Some (VDatetime ctime) => VStr ctime
  | Some value => value
  | None => VStr "(no attribute key)"
  end.

Definition attributes_item (m : gmap string pyval) (attributes : list string)
    (item : gmap string pyval) : gmap string pyval :=
  foldl (λ item attribute, <[attribute := attribute_value m attribute]> item)
        item attributes.

(** The tag list of a raw instance, as the loop over the tags sees it. *)
Definition instance_tags (instance : pyval) : outcome (list pyval) :=
  tags ← py_get instance "Tags" (VList []); py_iter tags.

(** [tag.get('Key') == TAG] *)
Definition has_key (TAG : string) (tag : pyval) : bool :=
  match py_get tag "Key" VNone with
  | Ok key => eq_str key TAG
  | _ => false
  end.

(** The binding of a key in a dict, if it has one. *)
Definition field (d : pyval) (key : string) : option pyval :=
  match d with
  | VDict m => m !! key
  | _ => None
  end.

(** [tag.get('Value', '(no value key)')] *)
Definition tag_value (tag : pyval) : pyval :=
  match field tag "Value" with
  | Some value => value
  | None => VStr "(no value key)"
  end.

Definition tags_item (TAG : string) (tags : list pyval)
    (item : gmap string pyval) : gmap string pyval :=
  foldl (λ item tag, if has_key TAG tag then <[TAG := tag_value tag]> item else item)
        item tags.

Definition with_unknown (TAG : string) (item : gmap string pyval)
    : gmap string pyval :=
  if lacks item TAG then <[TAG := VStr "unknown"]> item else item.

(** Raw instances on which the normaliser is total: a dict whose requested
    attributes are text or timestamps, with a list of tag entries that are
    dicts whose values are text or [None]. *)
Definition is_text (v : pyval) : Prop :=
  match v with VStr _ | VDatetime _ => True | _ => False end.

Definition is_dict (v : pyval) : Prop :=
  match v with VDict _ => True | _ => False end.

Definition text_or_none (v : pyval) : Prop :=
  match v with VStr _ | VNone => True | _ => False end.

Definition textual_instance (g : globals) (instance : pyval) : Prop :=
  is_dict instance ∧
  (∀ attribute value,
     attribute ∈ ATTRIBUTES_TO_SHOW g →
     field instance attribute = Some value → is_text value) ∧
  ∃ tags,
    instance_tags instance = Ok tags ∧
    Forall (λ tag, is_dict tag ∧
                   ∀ value, field tag "Value" = Some value → text_or_none value)
           tags.

(** The sort tag and the attributes have tracked widths. *)
Definition record_keys_tracked (g : globals) : Prop :=
  ∀ column, column = TAG_TO_SHOW g ∨ column ∈ ATTRIBUTES_TO_SHOW g →
            is_Some (COLUMN_WIDTHS g !! column).

(** The widths after the loop of [init_columns]. *)
Definition named_widths (columns : list string) (widths : gmap string Z)
    : gmap string Z :=
  foldl (λ widths column, <[column := len column]> widths) widths columns.

(** What the renderer prints: the heading and the line of a record, cell
    by cell in the order of the columns. *)
Definition column_width (g : globals) (column : string) : Z :=
  default 0 (COLUMN_WIDTHS g !! column).

Definition table_heading (g : globals) : string :=
  foldl (λ heading column,
           heading +:+ ljust column (column_width g column + COLUMN_MARGIN))
        "" (COLUMNS g).

Definition cell_text (dict : pyval) (column : string) : string :=
  match field dict column with
  | Some (VStr s) => s
  | _ => ""
  end.

Definition table_line (g : globals) (dict : pyval) : string :=
  foldl (λ line column,
           line +:+ ljust (cell_text dict column)
                          (column_width g column + COLUMN_MARGIN))
        "" (COLUMNS g).

(** Records the renderer can print: dicts whose values for the columns,
    where present, are [str]. *)
Definition text_record (g : globals) (dict : pyval) : Prop :=
  is_dict dict ∧
  ∀ column value,
    column ∈ COLUMNS g → field dict column = Some value → ∃ s, value = VStr s.

(** The sort key of a record when it is a [str], and the test that it is
    a given one. *)
Definition tag_of (TAG : string) (record : pyval) : option string :=
  match py_subscript record TAG with
  | Ok (VStr s) => Some s
  | _ => None
  end.

Definition has_tag (TAG : string) (s : string) (record : pyval) : bool :=
  match tag_of TAG record with
  | Some t => String.eqb t s
  | None => false
  end.

(** The order of the table: the tag of the first record is not after the
    tag of the second, character by character. *)
Definition tag_le (TAG : string) (r1 r2 : pyval) : Prop :=
  ∃ s1 s2, tag_of TAG r1 = Some s1 ∧ tag_of TAG r2 = Some s2 ∧
           String.leb s1 s2 = true.

(** The stable sort on keys known to be [str]. *)
Fixpoint insert_str (x : string * pyval) (l : list (string * pyval))
    : list (string * pyval) :=
  match l with
  | [] => [x]
  | y :: l' => if String.ltb y.1 x.1 then y :: insert_str x l' else x :: y :: l'
  end.

Fixpoint sort_str (l : list (string * pyval)) : list (string * pyval) :=
  match l with
  | [] => []
  | x :: l' => insert_str x (sort_str l')
  end.

Definition str_key (p : string * pyval) : pyval * pyval := (VStr p.1, p.2).

Definition key_le (p q : string * pyval) : Prop := String.leb p.1 q.1 = true.

(** A relation on the globals, seen on the states of the collector. *)
Definition on_globals {W} (R : relation globals) : relation (globals * W) :=
  λ st st', R st.1 st'.1.

(** The continuation token of a response, [None] when it has none. *)
Definition next_token (response : pyval) : pyval :=
  match py_get response "NextToken" VNone with
  | Ok token => token
  | _ => VNone
  end.

(** The instances of a list of reservations, of a response and of a list
    of responses, in order, as the loops of the collector read them. *)
Fixpoint reservations_instances (reservations : list pyval)
    : outcome (list pyval) :=
  match reservations with
  | [] => Ok []
  | reservation :: reservations' =>
      instances ← py_get reservation "Instances" (VList []);
      instances ← py_iter instances;
      instances' ← reservations_instances reservations';
      mret (instances ++ instances')
  end.

Definition response_instances (response : pyval) : outcome (list pyval) :=
  reservations ← py_get response "Reservations" (VList []);
  reservations ← py_iter reservations;
  reservations_instances reservations.

Fixpoint pages_instances (pages : list pyval) : outcome (list pyval) :=
  match pages with
  | [] => Ok []
  | response :: pages' =>
      instances ← response_instances response;
      instances' ← pages_instances pages';
      mret (instances ++ instances')
  end.

(** The records of a list of instances: each instance normalised in its
    turn, successfully, the widths being carried from one to the next. *)
Inductive normalised : globals → list pyval → list pyval → globals → Prop :=
| normalised_nil g : normalised g [] [] g
| normalised_cons g instance record g1 instances records g' :
    get_instance_data instance g = (Ok record, g1, []) →
    normalised g1 instances records g' →
    normalised g (instance :: instances) (record :: records) g'.

Section Pages.

Context {P : provider}.

(** [served client token w pages token' w']: asked [token] in the world
    [w], the provider answers the first of [pages], which carries a
    continuation token; asked that token it answers the second, and so
    on; after the last of [pages] the token to send is [token'] and the
    world is [w']. *)
Inductive served (client : Client P)
    : pyval → World P → list pyval → pyval → World P → Prop :=
| served_nil token w : served client token w [] token w
| served_cons token w response w1 pages token' w' :
    describe_instances P client token w = (Answer response, w1) →
    is_none (next_token response) = false →
    served client (next_token response) w1 pages token' w' →
    served client token w (response :: pages) token' w'.

End Pages.

(** The warnings of [get_instances]. *)
Definition not_available_warning (region : string) : event :=
  Print ("WARNING: Region " +:+ quoted region
         +:+ " is not one of the available regions.").

Definition client_warning (region : string) : event :=
  Print ("WARNING: There was a problem creating a client for this region "
         +:+ region +:+ ".").

Definition page_warning (region : string) : event :=
  Print ("WARNING: There was a problem getting the instances in the region "
         +:+ region +:+ ".").

(** The two lines that open the report of a region. *)
Definition banner (region : string) : list event :=
  [Print (str_mul "*" 80); Print ("REGION: " +:+ region)].

(* ===================================================================== *)
(** ** Concrete inputs *)
(* ===================================================================== *)

(** A dict literal. *)
Definition dict (bindings : list (string * pyval)) : pyval :=
  VDict (list_to_map bindings).

(** The globals after the initialisation, for the tag [Owner] and the one
    attribute [InstanceId]. *)
Definition owner_globals : globals :=
  {| AVAILABLE_REGIONS := ["us-east-1"; "eu-west-1"];
     REGIONS := ["us-east-1"; "eu-west-1"];
     ATTRIBUTES_TO_SHOW := ["InstanceId"];
     TAG_TO_SHOW := "Owner";
     COLUMNS := ["Owner"; "InstanceId"];
     COLUMN_WIDTHS := {[ "Owner" := 5; "InstanceId" := 10 ]} |}.

(** The same with the tag name among the attributes:
    [--tag Owner --attributes Owner]. *)
Definition owner_twice_globals : globals :=
  {| AVAILABLE_REGIONS := ["us-east-1"];
     REGIONS := ["us-east-1"];
     ATTRIBUTES_TO_SHOW := ["Owner"];
     TAG_TO_SHOW := "Owner";
     COLUMNS := ["Owner"; "Owner"];
     COLUMN_WIDTHS := {[ "Owner" := 5 ]} |}.

Definition owner_tag (value : string) : pyval :=
  dict [("Key", VStr "Owner"); ("Value", VStr value)].

Definition name_tag (value : string) : pyval :=
  dict [("Key", VStr "Name"); ("Value", VStr value)].

(** A tag entry with a key and no ['Value']. *)
Definition owner_tag_without_value : pyval := dict [("Key", VStr "Owner")].

(** A tag entry whose value is [None]. *)
Definition owner_tag_none : pyval :=
  dict [("Key", VStr "Owner"); ("Value", VNone)].

Definition instance_of (id : string) (tags : list pyval) : pyval :=
  dict [("InstanceId", VStr id); ("Tags", VList tags)].

(** The table of the specification's example. *)
Definition table_globals : globals :=
  {| AVAILABLE_REGIONS := ["us-east-1"];
     REGIONS := ["us-east-1"];
     ATTRIBUTES_TO_SHOW := ["InstanceId"];
     TAG_TO_SHOW := "Owner";
     COLUMNS := ["Owner"; "InstanceId"];
     COLUMN_WIDTHS := {[ "Owner" := 7; "InstanceId" := 10 ]} |}.

Definition alice_record : pyval :=
  dict [("Owner", VStr "alice"); ("InstanceId", VStr "i-123")].

(** A provider with two regions, of which the second refuses clients. *)
Definition example_provider : provider :=
  scripted ["us-east-1"; "eu-west-1"] ["eu-west-1"].

(** A provider with the one region [us-east-1]. *)
Definition one_region : provider := scripted ["us-east-1"] [].

(** A response with one reservation, and with a continuation token or
    without. *)
Definition page (instances : list pyval) (next_token : option string) : pyval :=
  dict (("Reservations", VList [dict [("Instances", VList instances)]])
        :: match next_token with
           | Some token => [("NextToken", VStr token)]
           | None => []
           end).

Definition owned_by (id owner : string) : pyval :=
  instance_of id [owner_tag owner].

(** The record of [owned_by id owner] under [owner_globals]. *)
Definition record_of (id owner : string) : pyval :=
  dict [("InstanceId", VStr id); ("Owner", VStr owner)].

(** [--attributes AmiLaunchIndex] and [--attributes SecurityGroups]: an
    attribute that EC2 reports as a number, and one it reports as a
    list. *)
Definition launch_index_globals : globals :=
  {| AVAILABLE_REGIONS := ["us-east-1"];
     REGIONS := ["us-east-1"];
     ATTRIBUTES_TO_SHOW := ["AmiLaunchIndex"];
     TAG_TO_SHOW := "Owner";
     COLUMNS := ["Owner"; "AmiLaunchIndex"];
     COLUMN_WIDTHS := {[ "Owner" := 5; "AmiLaunchIndex" := 14 ]} |}.

Definition security_groups_globals : globals :=
  {| AVAILABLE_REGIONS := ["us-east-1"];
     REGIONS := ["us-east-1"];
     ATTRIBUTES_TO_SHOW := ["SecurityGroups"];
     TAG_TO_SHOW := "Owner";
     COLUMNS := ["Owner"; "SecurityGroups"];
     COLUMN_WIDTHS := {[ "Owner" := 5; "SecurityGroups" := 14 ]} |}.

Definition security_group : pyval :=
  dict [("GroupName", VStr "default"); ("GroupId", VStr "sg-1")].

(** An instance as EC2 reports it, with a launch time and an [Owner] tag
    that has no value. *)
Definition unowned_instance : pyval :=
  dict [("InstanceId", VStr "i-123"); ("InstanceType", VStr "t2.micro");
        ("LaunchTime", VDatetime "Mon Jan  1 00:00:00 2018");
        ("Tags", VList [owner_tag_without_value])].


(* ===================================================================== *)
(** ** Notions for the widths after a normalisation *)
(* ===================================================================== *)

(** The values [len] accepts, and the length it returns for them. *)
Definition has_length (value : pyval) : Prop :=
  match value with VStr _ | VList _ | VDict _ => True | _ => False end.

Definition length_of (value : pyval) : Z :=
  match py_len value with Ok n => n | _ => 0 end.

(** [if n > COLUMN_WIDTHS[column]: COLUMN_WIDTHS[column] = n], on a table
    that tracks the column. *)
Definition widen (column : string) (n : Z) (widths : gmap string Z)
    : gmap string Z :=
  match widths !! column with
  | Some width => if decide (n > width) then <[column := n]> widths else widths
  | None => widths
  end.

(** The widths after the loop over the attributes. *)
Definition attributes_widths (m : gmap string pyval) (attributes : list string)
    (widths : gmap string Z) : gmap string Z :=
  foldl (λ widths attribute,
           widen attribute (length_of (attribute_value m attribute)) widths)
        widths attributes.

(** The record of the raw instance [m] with the tag entries [tags], the
    value of its sort tag, and the widths after its normalisation. *)
Definition record_item (g : globals) (m : gmap string pyval) (tags : list pyval)
    : gmap string pyval :=
  with_unknown (TAG_TO_SHOW g)
    (tags_item (TAG_TO_SHOW g) tags
       (attributes_item m (ATTRIBUTES_TO_SHOW g) ∅)).

Definition sort_tag_value (g : globals) (m : gmap string pyval)
    (tags : list pyval) : pyval :=
  default VNone (record_item g m tags !! TAG_TO_SHOW g).

Definition record_widths (g : globals) (m : gmap string pyval)
    (tags : list pyval) : gmap string Z :=
  widen (TAG_TO_SHOW g) (length_of (sort_tag_value g m tags))
        (attributes_widths m (ATTRIBUTES_TO_SHOW g) (COLUMN_WIDTHS g)).

(** The raw instances the normaliser returns a record for: dicts whose
    requested attributes, once a [datetime] is converted, have a length,
    whose tag entries are dicts, and whose sort-tag value has a length. *)
Definition normalisable (g : globals) (instance : pyval) : Prop :=
  ∃ m tags,
    instance = VDict m ∧
    instance_tags instance = Ok tags ∧
    Forall is_dict tags ∧
    (∀ attribute, attribute ∈ ATTRIBUTES_TO_SHOW g →
       has_length (attribute_value m attribute)) ∧
    has_length (sort_tag_value g m tags).

(** Every value of the record has a length, and the column of its key is
    tracked and at least that wide. *)
Definition fits (g : globals) (record : pyval) : Prop :=
  ∀ column value,
    field record column = Some value →
    ∃ n width,
      py_len value = Ok n ∧ COLUMN_WIDTHS g !! column = Some width ∧ n ≤ width.

(* ===================================================================== *)
(** ** Notions for the ways a run ends *)
(* ===================================================================== *)

(** How a computation ends, whatever it returns. *)
Inductive ending : Type :=
| Returns
| Raises
| Exits
| Starves.

Definition ending_of {A} (o : outcome A) : ending :=
  match o with
  | Ok _ => Returns
  | Raise _ => Raises
  | SysExit _ => Exits
  | OutOfFuel => Starves
  end.

(** The run of [c] from [st] ends in a way that [good] accepts. *)
Definition ends {S A} (good : ending → Prop) (c : M S A) (st : S) : Prop :=
  ∀ o st' out, c st = (o, st', out) → good (ending_of o).

(** It returns or raises: no [sys.exit], and no loop left running. *)
Definition settled (e : ending) : Prop := e = Returns ∨ e = Raises.

(** It does not go through [sys.exit]. *)
Definition no_exit (e : ending) : Prop := e ≠ Exits.

(* ===================================================================== *)
(** ** Notions for the tables of a run *)
(* ===================================================================== *)

(** A table of [rows] records as [print_table] prints it: nothing for no
    record; otherwise a heading, a line of dashes one margin shorter, and
    one line per record, each as long as the heading. *)
Definition rectangular (rows : nat) (table : list event) : Prop :=
  (rows = 0%nat ∧ table = []) ∨
  ∃ heading lines,
    table = Print heading
            :: Print (str_mul "-" (len heading - COLUMN_MARGIN))
            :: (Print <$> lines) ∧
    length lines = rows ∧ rows ≠ 0%nat ∧
    Forall (λ line, len line = len heading) lines.

(** The widths of the columns and the margin after each, added up. *)
Definition table_width (g : globals) : Z :=
  foldr (λ column total, column_width g column + COLUMN_MARGIN + total)
        0 (COLUMNS g).

(** What the report of a region that completes has printed and asked of
    the provider: the banner, then the warning for a region that is not
    available; or the request for a client and the warning that none
    could be made; or that request, the requests for the pages and the
    warning that one of them failed; or those requests, the number of
    records and their table.  Nothing else is printed. *)
Inductive region_report (region : string) : list event → Prop :=
| report_not_available :
    region_report region (banner region ++ [not_available_warning region])
| report_no_client diagnostic :
    region_report region
      (banner region
       ++ [NewClient region; client_warning region; Print diagnostic])
| report_no_page tokens diagnostic :
    region_report region
      (banner region
       ++ NewClient region :: (DescribeInstances <$> tokens)
       ++ [page_warning region; Print diagnostic])
| report_table tokens rows table :
    rectangular rows table →
    region_report region
      (banner region
       ++ NewClient region :: (DescribeInstances <$> tokens)
       ++ Print ("Instances: " +:+ pretty rows) :: table).

(** A record as the normaliser makes them under the configuration of
    [g]: a dict with the sort tag and the attributes as its keys. *)
Definition is_record (g : globals) (record : pyval) : Prop :=
  ∃ item,
    record = VDict item ∧
    dom item = {[TAG_TO_SHOW g]} ∪ list_to_set (ATTRIBUTES_TO_SHOW g).

(* ===================================================================== *)
(** ** Notions for a whole run *)
(* ===================================================================== *)

(** The globals after the four initialisations of [main], for a command
    line and the catalogue of regions the provider reports. *)
Definition configured (ARGS : args) (catalogue : list string) : globals :=
  let TAG := default "Owner" (tag ARGS) in
  let chosen := split comma (default DEFAULT_ATTRIBUTES (attributes ARGS)) in
  {| AVAILABLE_REGIONS := catalogue;
     REGIONS := match regions ARGS with
                | None => catalogue
                | Some given => split comma given
                end;
     ATTRIBUTES_TO_SHOW := chosen;
     TAG_TO_SHOW := TAG;
     COLUMNS := TAG :: chosen;
     COLUMN_WIDTHS := named_widths (TAG :: chosen) ∅ |}.

(** A response whose instances the normaliser is total on, and a record
    as it makes them from such instances: a dict of [str] values that has
    the sort tag. *)
Definition well_formed (g : globals) (response : pyval) : Prop :=
  ∃ instances,
    response_instances response = Ok instances ∧
    Forall (textual_instance g) instances.

Definition text_valued (TAG : string) (record : pyval) : Prop :=
  ∃ item,
    record = VDict item ∧
    (∀ key value, item !! key = Some value → ∃ s, value = VStr s) ∧
    ∃ s, item !! TAG = Some (VStr s).

(** The globals [g] have the attributes and the sort tag of [g0], the
    configuration the responses are well formed for, and track the widths
    of their keys and of their columns. *)
Definition steady (g0 g : globals) : Prop :=
  ATTRIBUTES_TO_SHOW g = ATTRIBUTES_TO_SHOW g0 ∧
  TAG_TO_SHOW g = TAG_TO_SHOW g0 ∧
  record_keys_tracked g ∧ columns_tracked g.

(** [sep.join(pieces)] for a one-character separator. *)
Fixpoint join (sep : ascii) (pieces : list string) : string :=
  match pieces with
  | [] => ""
  | [piece] => piece
  | piece :: pieces' => piece +:+ String sep (join sep pieces')
  end.

(** [c in s] for a character. *)
Fixpoint contains (c : ascii) (s : string) : bool :=
  match s with
  | EmptyString => false
  | String c' s' => Ascii.eqb c' c || contains c s'
  end.

(** A provider with one region that gives a client to whoever asks and
    answers every request with the same response. *)
Definition repeating (response : pyval) : provider := {|
  World := unit;
  Client := unit;
  get_available_regions := λ _, ["us-east-1"];
  boto3_client := λ _ w, (Answer (), w);
  describe_instances := λ _ _ w, (Answer response, w);
|}.
(* ===================================================================== *)
(** * Reasoning about computations *)
(* ===================================================================== *)

Section Laws.

Context {S : Type}.

Lemma bind_Ok {A B} (c : M S A) (k : A → M S B) st a st1 out1 :
  c st = (Ok a, st1, out1) →
  bind c k st = (let '(o, st2, out2) := k a st1 in (o, st2, out1 ++ out2)).
Proof. intros H. unfold bind. rewrite H. by destruct (k a st1) as [[??]?]. Qed.

Lemma bind_Ok_inv {A B} (c : M S A) (k : A → M S B) st b st2 out :
  bind c k st = (Ok b, st2, out) →
  ∃ a st1 out1 out2,
    c st = (Ok a, st1, out1) ∧ k a st1 = (Ok b, st2, out2) ∧ out = out1 ++ out2.
Proof.
  unfold bind. destruct (c st) as [[[a| | |] st1] out1]; try discriminate.
  destruct (k a st1) as [[o st2'] out2] eqn:Hk. intros [= -> -> <-].
  by exists a, st1, out1, out2.
Qed.

Context (R : relation S) `{!PreOrder R}.

Lemma preserves_ret {A} (a : A) : preserves R (ret a).
Proof. intros st o st' out [= <- <- <-]. reflexivity. Qed.

Lemma preserves_lift {A} (o : outcome A) : preserves R (lift o).
Proof. intros st o' st' out [= <- <- <-]. reflexivity. Qed.

Lemma preserves_read {A} (f : S → A) : preserves R (read f).
Proof. intros st o st' out [= <- <- <-]. reflexivity. Qed.

Lemma preserves_emit (e : event) : preserves R (emit e).
Proof. intros st o st' out [= <- <- <-]. reflexivity. Qed.

Lemma preserves_fail {A} (message : string) : preserves R (fail (A:=A) message).
Proof. intros st o st' out [= <- <- <-]. reflexivity. Qed.

Lemma preserves_write (f : S → S) : (∀ st, R st (f st)) → preserves R (write f).
Proof. intros Hf st o st' out [= <- <- <-]. apply Hf. Qed.

Lemma preserves_bind {A B} (c : M S A) (k : A → M S B) :
  preserves R c → (∀ a, preserves R (k a)) → preserves R (bind c k).
Proof.
  intros Hc Hk st o st' out. unfold bind.
  destruct (c st) as [[[a| | |] st1] out1] eqn:Ec.
  - destruct (k a st1) as [[o2 st2] out2] eqn:Ek. intros [= <- <- <-].
    etrans; [by eapply Hc | by eapply Hk].
  - intros [= <- <- <-]. by eapply Hc.
  - intros [= <- <- <-]. by eapply Hc.
  - intros [= <- <- <-]. by eapply Hc.
Qed.

Lemma preserves_for_each {A B} (l : list A) (body : A → B → M S B) acc :
  (∀ x acc, preserves R (body x acc)) → preserves R (for_each l body acc).
Proof.
  intros Hbody. revert acc.
  induction l as [|x l IH]; intros acc; simpl.
  - apply preserves_ret.
  - apply preserves_bind; [apply Hbody | intros acc'; apply IH].
Qed.

End Laws.

(** Walks through a computation, one [bind] at a time, and closes the
    steps that do not touch the state. *)
Ltac preserved :=
  repeat match goal with
  | |- preserves ?R (ret _) => apply (preserves_ret R)
  | |- preserves ?R (lift _) => apply (preserves_lift R)
  | |- preserves ?R (read _) => apply (preserves_read R)
  | |- preserves ?R (emit _) => apply (preserves_emit R)
  | |- preserves ?R (print _) => apply (preserves_emit R)
  | |- preserves ?R (warn _) => apply (preserves_emit R)
  | |- preserves ?R (fail _) => apply (preserves_fail R)
  | |- preserves ?R (bind _ _) => apply (preserves_bind R); [|intros ?]
  | |- preserves ?R (for_each _ _ _) => apply (preserves_for_each R); intros ? ?
  | |- preserves ?R (if ?b then _ else _) => destruct b
  | |- preserves ?R (match ?x with _ => _ end) => destruct x
  end.

(* ===================================================================== *)
(** * The column widths *)
(* ===================================================================== *)

#[global] Instance grows_preorder : PreOrder grows.
Proof.
  split.
  - intros g. split; try done. intros column width ->. by exists width.
  - intros g1 g2 g3 H12 H23.
    split; try (etrans; [by apply H23 | by apply H12]).
    intros column width H1.
    destruct (grows_widths _ _ H12 _ _ H1) as (w2 & H2 & ?).
    destruct (grows_widths _ _ H23 _ _ H2) as (w3 & H3 & ?).
    exists w3. split; [done | lia].
Qed.

Lemma grows_cover g g' : grows g g' → widths_cover_names g → widths_cover_names g'.
Proof.
  intros Hgrows Hcover column width' H'.
  assert (is_Some (COLUMN_WIDTHS g !! column)) as [width H].
  { apply elem_of_dom. rewrite <- (grows_dom _ _ Hgrows).
    apply elem_of_dom. by eexists. }
  destruct (grows_widths _ _ Hgrows _ _ H) as (w & Hw & ?).
  specialize (Hcover _ _ H). simplify_eq. lia.
Qed.

#[global] Instance keeps_invariant_preorder : PreOrder keeps_invariant.
Proof.
  split.
  - intros g H. exact H.
  - intros g1 g2 g3 H12 H23 H. apply H23, H12, H.
Qed.

Lemma grows_keeps_invariant g g' : grows g g' → keeps_invariant g g'.
Proof.
  intros H [Hcover Htracked]. split; [by eapply grows_cover|].
  intros column. rewrite (grows_COLUMNS _ _ H). intros Hin%Htracked.
  apply elem_of_dom. rewrite (grows_dom _ _ H). by apply elem_of_dom.
Qed.

(** The single place where a width is changed after the initialisation:
    the new value is larger than the one read. *)
Lemma set_width_grows column n width g :
  COLUMN_WIDTHS g !! column = Some width → width ≤ n →
  grows g (set_COLUMN_WIDTHS (<[column := n]> (COLUMN_WIDTHS g)) g).
Proof.
  intros Hw Hle. split; try done; simpl.
  - rewrite dom_insert_L. apply elem_of_dom_2 in Hw.
    apply set_eq. intros c. rewrite elem_of_union, elem_of_singleton.
    naive_solver.
  - intros c w Hc. simpl. destruct (decide (column = c)) as [->|Hne].
    + rewrite lookup_insert_eq. exists n. split; [done|].
      rewrite Hw in Hc. injection Hc as <-. lia.
    + rewrite lookup_insert_ne by done. by exists w.
Qed.

Lemma update_width_grows column n :
  preserves grows
    (width <~ get_width column ;;
     (if decide (n > width) then set_width column n else ret tt)).
Proof.
  intros g o g' out. cbv [bind get_width read set_width write ret fail].
  destruct (COLUMN_WIDTHS g !! column) as [width|] eqn:Hw; simpl.
  - case_decide; intros [= <- <- <-]; [|reflexivity].
    eapply set_width_grows; [done | lia].
  - intros [= <- <- <-]. reflexivity.
Qed.

Lemma get_width_grows column : preserves grows (get_width column).
Proof.
  intros g o g' out. cbv [bind get_width read ret fail].
  destruct (COLUMN_WIDTHS g !! column); intros [= <- <- <-]; reflexivity.
Qed.

Lemma update_width_tail {A} column n (a : A) g o g' out :
  (width <~ get_width column ;;
   (if decide (n > width) then set_width column n else ret tt) ;;;
   ret a) g = (o, g', out) →
  ∃ o', (width <~ get_width column ;;
         (if decide (n > width) then set_width column n else ret tt)) g
        = (o', g', out).
Proof.
  cbv [bind get_width read set_width write ret fail].
  destruct (COLUMN_WIDTHS g !! column) as [width|]; simpl.
  - case_decide; intros [= <- <- <-]; by eexists.
  - intros [= <- <- <-]. by eexists.
Qed.

Lemma get_attribute_grows instance attribute item :
  preserves grows (get_attribute instance attribute item).
Proof.
  unfold get_attribute.
  apply (preserves_bind grows); [preserved | intros value].
  apply (preserves_bind grows); [preserved | intros n].
  intros g o g' out H. apply update_width_tail in H as [o' H].
  by eapply update_width_grows.
Qed.

Lemma get_tag_unchanged tag item g o g' out :
  get_tag tag item g = (o, g', out) → g' = g ∧ out = [].
Proof.
  cbv [get_tag bind read lift ret].
  destruct (py_get tag "Key" VNone) as [key| | |]; simpl; try by intros [= <- <- <-].
  destruct (eq_str key (TAG_TO_SHOW g)); [|by intros [= <- <- <-]].
  destruct (py_get tag "Value" _); by intros [= <- <- <-].
Qed.

Lemma get_tag_grows tag item : preserves grows (get_tag tag item).
Proof.
  intros g o g' out H. apply get_tag_unchanged in H as [-> _]. reflexivity.
Qed.

Lemma get_instance_data_grows instance :
  preserves grows (get_instance_data instance).
Proof.
  unfold get_instance_data. destruct (is_none instance); [preserved|].
  apply (preserves_bind grows); [preserved | intros attrs].
  apply (preserves_bind grows).
  { apply (preserves_for_each grows); intros; apply get_attribute_grows. }
  intros item.
  apply (preserves_bind grows); [preserved | intros tags0].
  apply (preserves_bind grows); [preserved | intros tags].
  apply (preserves_bind grows).
  { apply (preserves_for_each grows); intros; apply get_tag_grows. }
  intros item'.
  apply (preserves_bind grows); [preserved | intros TAG].
  apply (preserves_bind grows); [preserved | intros value].
  apply (preserves_bind grows); [preserved | intros n].
  intros g o g' out H. apply update_width_tail in H as [o' H].
  by eapply update_width_grows.
Qed.

(* ===================================================================== *)
(** * What the normaliser computes *)
(* ===================================================================== *)

Lemma get_attribute_Ok instance attribute item g item' g' out :
  get_attribute instance attribute item g = (Ok item', g', out) →
  ∃ m, instance = VDict m ∧
       item' = <[attribute := attribute_value m attribute]> item ∧ out = [].
Proof.
  unfold get_attribute. intros H.
  apply bind_Ok_inv in H as (value & ga & oa1 & oa2 & Hget & H & ->).
  injection Hget as Hget <- <-.
  destruct instance as [| | | | | |m]; try discriminate. exists m.
  apply bind_Ok_inv in H as (n & gb & ob1 & ob2 & Hlen & H & ->).
  injection Hlen as Hlen <- <-.
  apply bind_Ok_inv in H as (w & gc & oc1 & oc2 & Hw & H & ->).
  apply bind_Ok_inv in H as (u & gd & od1 & od2 & Hu & H & ->).
  injection H as <- <- <-.
  assert (oc1 = []) as ->.
  { revert Hw. cbv [get_width bind read ret fail].
    by destruct (COLUMN_WIDTHS g !! attribute); intros [= <- <- <-]. }
  assert (od1 = []) as ->.
  { revert Hu. cbv [set_width write ret]. by case_decide; intros [= <- <-]. }
  split; [done|]. split; [|done].
  f_equal. unfold attribute_value. simpl in Hget.
  destruct (m !! attribute) as [v|]; injection Hget as <-; [|done].
  by destruct v.
Qed.

Lemma attributes_loop_Ok instance attributes item g item' g' out :
  attributes ≠ [] →
  for_each attributes (get_attribute instance) item g = (Ok item', g', out) →
  ∃ m, instance = VDict m ∧ item' = attributes_item m attributes item ∧ out = [].
Proof.
  revert item g out. induction attributes as [|a l IH]; [done|].
  intros item g out _ H. simpl in H.
  apply bind_Ok_inv in H as (item1 & g1 & oa1 & oa2 & Ha & H & ->).
  apply get_attribute_Ok in Ha as (m & -> & -> & ->). exists m.
  destruct l as [|b l].
  - injection H as <- <- <-. done.
  - apply IH in H as (m' & [= <-] & -> & ->); done.
Qed.

Lemma get_tag_Ok tag item g item' g' out :
  get_tag tag item g = (Ok item', g', out) →
  item' = tags_item (TAG_TO_SHOW g) [tag] item.
Proof.
  cbv [get_tag bind read lift ret tags_item foldl has_key].
  destruct (py_get tag "Key" VNone) as [key| | |] eqn:Hkey; simpl; try done.
  destruct (eq_str key (TAG_TO_SHOW g)); [|by intros [= <- <- <-]].
  unfold tag_value, field.
  destruct tag as [| | | | | |t]; try discriminate. simpl.
  by destruct (t !! "Value"); intros [= <- <- <-].
Qed.

Lemma tags_loop_Ok tags item g item' g' out :
  for_each tags get_tag item g = (Ok item', g', out) →
  item' = tags_item (TAG_TO_SHOW g) tags item ∧ g' = g ∧ out = [].
Proof.
  revert item out. induction tags as [|tag l IH]; intros item out H; simpl in H.
  - by injection H as <- <- <-.
  - apply bind_Ok_inv in H as (item1 & g1 & out1 & out2 & Htag & H & ->).
    pose proof (get_tag_unchanged _ _ _ _ _ _ Htag) as [-> ->].
    apply get_tag_Ok in Htag as ->.
    by apply IH in H as (-> & -> & ->).
Qed.

(** A record comes out of a dict, without a word printed, and is the one
    the three steps build: the attributes, the tags, the default. *)
Lemma get_instance_data_Ok instance g record g' out :
  get_instance_data instance g = (Ok record, g', out) →
  instance ≠ VNone →
  ∃ m tags,
    instance = VDict m ∧ instance_tags instance = Ok tags ∧ out = [] ∧
    record = VDict (with_unknown (TAG_TO_SHOW g)
                      (tags_item (TAG_TO_SHOW g) tags
                         (attributes_item m (ATTRIBUTES_TO_SHOW g) ∅))).
Proof.
  intros H Hnone. unfold get_instance_data in H.
  destruct (is_none instance) eqn:Hn; [by destruct instance|].
  apply bind_Ok_inv in H as (attrs & ga & oa1 & oa2 & Hr & H & ->).
  injection Hr as <- <- <-.
  apply bind_Ok_inv in H as (item & g1 & ob1 & ob2 & Hattrs & H & ->).
  pose proof (preserves_for_each grows _ _ _
                (λ x acc, get_attribute_grows instance x acc) _ _ _ _ Hattrs)
    as Hgrows.
  apply bind_Ok_inv in H as (tags0 & gc & oc1 & oc2 & Hget & H & ->).
  injection Hget as Hget <- <-.
  destruct instance as [| | | | | |m]; try discriminate. exists m.
  apply bind_Ok_inv in H as (tags & gd & od1 & od2 & Hiter & H & ->).
  injection Hiter as Hiter <- <-. exists tags.
  apply bind_Ok_inv in H as (item' & ge & oe1 & oe2 & Htags & H & ->).
  apply tags_loop_Ok in Htags as (-> & -> & ->).
  apply bind_Ok_inv in H as (TAG & gf & of1 & of2 & Hr & H & ->).
  injection Hr as <- <- <-.
  apply bind_Ok_inv in H as (value & gh & oh1 & oh2 & Hsub & H & ->).
  injection Hsub as Hsub <- <-.
  apply bind_Ok_inv in H as (n & gi & oi1 & oi2 & Hlen & H & ->).
  injection Hlen as Hlen <- <-.
  apply bind_Ok_inv in H as (w & gj & oj1 & oj2 & Hw & H & ->).
  apply bind_Ok_inv in H as (u & gk & ok1 & ok2 & Hu & H & ->).
  injection H as <- <- <-.
  assert (oj1 = []) as ->.
  { revert Hw. cbv [get_width bind read ret fail].
    by destruct (COLUMN_WIDTHS g1 !! _); intros [= <- <- <-]. }
  assert (ok1 = []) as ->.
  { revert Hu. cbv [set_width write ret]. by case_decide; intros [= <- <-]. }
  assert (item = attributes_item m (ATTRIBUTES_TO_SHOW g) ∅ ∧ ob1 = [])
    as [-> ->].
  { destruct (ATTRIBUTES_TO_SHOW g) as [|a l] eqn:Hl.
    - by injection Hattrs as <- <- <-.
    - apply attributes_loop_Ok in Hattrs as (m' & [= <-] & -> & ->); done. }
  rewrite (grows_TAG_TO_SHOW _ _ Hgrows).
  split; [done|]. split.
  { unfold instance_tags. simpl. simpl in Hget.
    by destruct (m !! "Tags"); injection Hget as <-. }
  done.
Qed.

Lemma attributes_item_snoc m attributes attribute item :
  attributes_item m (attributes ++ [attribute]) item
  = <[attribute := attribute_value m attribute]> (attributes_item m attributes item).
Proof. unfold attributes_item. by rewrite foldl_app. Qed.

Lemma attributes_item_dom m attributes item :
  dom (attributes_item m attributes item) = dom item ∪ list_to_set attributes.
Proof.
  induction attributes as [|a l IH] using rev_ind.
  - unfold attributes_item. simpl. set_solver.
  - rewrite attributes_item_snoc, dom_insert_L, IH, list_to_set_app_L.
    set_solver.
Qed.

Lemma attributes_item_lookup m attributes item attribute :
  attribute ∈ attributes →
  attributes_item m attributes item !! attribute
  = Some (attribute_value m attribute).
Proof.
  induction attributes as [|a l IH] using rev_ind; [by intros ?%elem_of_nil|].
  rewrite attributes_item_snoc. intros Hin.
  destruct (decide (a = attribute)) as [->|Hne].
  - by rewrite lookup_insert_eq.
  - rewrite lookup_insert_ne by done. apply IH.
    apply elem_of_app in Hin as [?|Hin]; [done|].
    by apply list_elem_of_singleton in Hin.
Qed.

Lemma attributes_item_lookup_other m attributes item key :
  key ∉ attributes → attributes_item m attributes item !! key = item !! key.
Proof.
  induction attributes as [|a l IH] using rev_ind; [done|].
  rewrite attributes_item_snoc. intros Hin.
  rewrite not_elem_of_app, list_elem_of_singleton in Hin. destruct Hin as [? ?].
  rewrite lookup_insert_ne by done. by apply IH.
Qed.

Lemma tags_item_snoc TAG tags tag item :
  tags_item TAG (tags ++ [tag]) item
  = (if has_key TAG tag then <[TAG := tag_value tag]> (tags_item TAG tags item)
     else tags_item TAG tags item).
Proof. unfold tags_item. by rewrite foldl_app. Qed.

Lemma tags_item_app TAG front back item :
  tags_item TAG (front ++ back) item = tags_item TAG back (tags_item TAG front item).
Proof. unfold tags_item. by rewrite foldl_app. Qed.

Lemma tags_item_lookup_other TAG tags item key :
  key ≠ TAG → tags_item TAG tags item !! key = item !! key.
Proof.
  intros Hne. induction tags as [|tag l IH] using rev_ind; [done|].
  rewrite tags_item_snoc. destruct (has_key TAG tag); [|done].
  by rewrite lookup_insert_ne.
Qed.

(** Without an entry for the tag, the loop over the tags changes nothing. *)
Lemma tags_item_no_match TAG tags item :
  Forall (λ tag, has_key TAG tag = false) tags → tags_item TAG tags item = item.
Proof.
  intros Hall. revert item. induction Hall as [|tag l Htag _ IH]; [done|].
  intros item. unfold tags_item in *. simpl. rewrite Htag. apply IH.
Qed.

(** With one, the last one decides. *)
Lemma tags_item_last_match TAG front entry back item :
  has_key TAG entry = true →
  Forall (λ tag, has_key TAG tag = false) back →
  tags_item TAG (front ++ entry :: back) item !! TAG = Some (tag_value entry).
Proof.
  intros Hentry Hback.
  rewrite tags_item_app.
  change (entry :: back) with ([entry] ++ back).
  rewrite tags_item_app, (tags_item_no_match _ back) by done.
  unfold tags_item at 1. simpl. rewrite Hentry. by rewrite lookup_insert_eq.
Qed.

Lemma tags_item_dom TAG tags item :
  dom (tags_item TAG tags item) ∪ {[TAG]} = dom item ∪ {[TAG]}.
Proof.
  induction tags as [|tag l IH] using rev_ind; [done|].
  rewrite tags_item_snoc. destruct (has_key TAG tag); [|done].
  rewrite dom_insert_L, <- IH.
  apply set_eq. intros x. rewrite !elem_of_union, !elem_of_singleton. tauto.
Qed.

Lemma with_unknown_dom TAG item : dom (with_unknown TAG item) = dom item ∪ {[TAG]}.
Proof.
  unfold with_unknown, lacks.
  destruct (item !! TAG) as [v|] eqn:Hv.
  - assert (TAG ∈ dom item) by by apply elem_of_dom_2 in Hv.
    destruct (is_none v); rewrite ?dom_insert_L; apply set_eq; intros x;
      rewrite !elem_of_union, !elem_of_singleton; naive_solver.
  - rewrite dom_insert_L. apply set_eq. intros x.
    rewrite !elem_of_union, !elem_of_singleton. tauto.
Qed.

Lemma with_unknown_lookup_other TAG item key :
  key ≠ TAG → with_unknown TAG item !! key = item !! key.
Proof.
  intros Hne. unfold with_unknown. destruct (lacks item TAG); [|done].
  by rewrite lookup_insert_ne.
Qed.

Lemma with_unknown_lookup TAG item :
  with_unknown TAG item !! TAG
  = match item !! TAG with
    | Some VNone | None => Some (VStr "unknown")
    | Some value => Some value
    end.
Proof.
  unfold with_unknown, lacks. destruct (item !! TAG) as [v|] eqn:Hv.
  - destruct v; simpl; by rewrite ?lookup_insert_eq.
  - by rewrite lookup_insert_eq.
Qed.

(** ** Where the normaliser is total *)

Lemma get_attribute_total m attribute item g :
  (∀ value, m !! attribute = Some value → is_text value) →
  is_Some (COLUMN_WIDTHS g !! attribute) →
  ∃ g', get_attribute (VDict m) attribute item g
        = (Ok (<[attribute := attribute_value m attribute]> item), g', []).
Proof.
  intros Htext [width Hwidth].
  cbv [get_attribute bind lift get_width read set_width write ret py_get].
  unfold attribute_value.
  destruct (m !! attribute) as [value|] eqn:Hvalue.
  - specialize (Htext _ eq_refl).
    destruct value; try done; simpl; rewrite Hwidth; simpl;
      case_decide; by eexists.
  - simpl. rewrite Hwidth. simpl. case_decide; by eexists.
Qed.

Lemma attributes_loop_total m attributes item g :
  (∀ attribute value, attribute ∈ attributes →
     m !! attribute = Some value → is_text value) →
  (∀ attribute, attribute ∈ attributes →
     is_Some (COLUMN_WIDTHS g !! attribute)) →
  ∃ g', for_each attributes (get_attribute (VDict m)) item g
        = (Ok (attributes_item m attributes item), g', []) ∧ grows g g'.
Proof.
  revert item g. induction attributes as [|a l IH]; intros item g Htext Hwidths.
  - exists g. split; [done | reflexivity].
  - destruct (get_attribute_total m a item g) as [g1 Hrun].
    { intros value. apply Htext. by left. }
    { apply Hwidths. by left. }
    pose proof (get_attribute_grows _ _ _ _ _ _ _ Hrun) as Hgrows.
    destruct (IH (<[a := attribute_value m a]> item) g1) as (g' & Hloop & Hgrows').
    { intros attribute value Hin. apply Htext. by right. }
    { intros attribute Hin. apply elem_of_dom.
      rewrite (grows_dom _ _ Hgrows). apply elem_of_dom, Hwidths. by right. }
    exists g'. split; [|by etrans].
    simpl. rewrite (bind_Ok _ _ _ _ _ _ Hrun). by rewrite Hloop.
Qed.

Lemma get_tag_total tag item g :
  is_dict tag →
  get_tag tag item g = (Ok (tags_item (TAG_TO_SHOW g) [tag] item), g, []).
Proof.
  destruct tag as [| | | | | |t]; try done. intros _.
  cbv [get_tag bind read lift ret tags_item foldl has_key py_get tag_value field].
  destruct (t !! "Key") as [key|]; simpl; [|done].
  destruct (eq_str key (TAG_TO_SHOW g)); [|done].
  by destruct (t !! "Value").
Qed.

Lemma tags_loop_total tags item g :
  Forall is_dict tags →
  for_each tags get_tag item g = (Ok (tags_item (TAG_TO_SHOW g) tags item), g, []).
Proof.
  intros Hdicts. revert item.
  induction Hdicts as [|tag l Hdict _ IH]; intros item; [done|].
  simpl. rewrite (bind_Ok _ _ _ _ _ _ (get_tag_total _ item g Hdict)).
  by rewrite IH.
Qed.

(** The sort-tag field of such an instance is text. *)
Lemma sort_tag_is_text TAG tags item :
  Forall (λ tag, is_dict tag ∧
                 ∀ value, field tag "Value" = Some value → text_or_none value)
         tags →
  (∀ value, item !! TAG = Some value → text_or_none value) →
  ∃ s, with_unknown TAG (tags_item TAG tags item) !! TAG = Some (VStr s).
Proof.
  intros Htags Hitem.
  assert (∀ value, tags_item TAG tags item !! TAG = Some value →
                   text_or_none value) as Hfinal.
  { induction tags as [|tag l IH] using rev_ind; [done|].
    apply Forall_app in Htags as [Hl Htag].
    apply Forall_singleton in Htag as [_ Hvalue].
    rewrite tags_item_snoc. destruct (has_key TAG tag); [|by apply IH].
    intros value. rewrite lookup_insert_eq. intros [= <-].
    unfold tag_value.
    destruct (field tag "Value") as [value|] eqn:Hfield; [by apply Hvalue|done]. }
  rewrite with_unknown_lookup.
  destruct (tags_item TAG tags item !! TAG) as [value|] eqn:Hvalue;
    [|by eexists].
  specialize (Hfinal _ eq_refl). destruct value; try done; by eexists.
Qed.

(** On such an instance, with the widths of its columns tracked, the
    normaliser returns a record and prints nothing. *)
Lemma get_instance_data_total g instance :
  textual_instance g instance →
  record_keys_tracked g →
  ∃ item g' s,
    get_instance_data instance g = (Ok (VDict item), g', []) ∧
    item !! TAG_TO_SHOW g = Some (VStr s).
Proof.
  intros (Hdict & Htext & tags & Htags & Hwf) Htracked.
  destruct instance as [| | | | | |m]; try done.
  destruct (attributes_loop_total m (ATTRIBUTES_TO_SHOW g) ∅ g)
    as (g1 & Hattrs & Hgrows).
  { intros attribute value Hin Hvalue. by eapply Htext. }
  { intros attribute Hin. apply Htracked. by right. }
  destruct (sort_tag_is_text (TAG_TO_SHOW g) tags
              (attributes_item m (ATTRIBUTES_TO_SHOW g) ∅)) as [s Hs];
    [done| |].
  { intros value.
    destruct (decide (TAG_TO_SHOW g ∈ ATTRIBUTES_TO_SHOW g)) as [Hin|Hout].
    - rewrite attributes_item_lookup by done. intros [= <-].
      unfold attribute_value.
      destruct (m !! TAG_TO_SHOW g) as [value|] eqn:Hvalue; [|done].
      specialize (Htext _ _ Hin Hvalue). by destruct value.
    - rewrite attributes_item_lookup_other by done. by rewrite lookup_empty. }
  assert (is_Some (COLUMN_WIDTHS g1 !! TAG_TO_SHOW g)) as [width Hwidth].
  { apply elem_of_dom. rewrite (grows_dom _ _ Hgrows).
    apply elem_of_dom, Htracked. by left. }
  eexists (with_unknown (TAG_TO_SHOW g)
             (tags_item (TAG_TO_SHOW g) tags
                (attributes_item m (ATTRIBUTES_TO_SHOW g) ∅))).
  assert (∃ tags0, py_get (VDict m) "Tags" (VList []) = Ok tags0 ∧
                   py_iter tags0 = Ok tags) as (tags0 & Hget & Hiter).
  { unfold instance_tags in Htags.
    destruct (py_get (VDict m) "Tags" (VList [])) as [tags0| | |]; try done.
    by exists tags0. }
  unfold get_instance_data. cbn [is_none].
  erewrite bind_Ok; [|done]. erewrite bind_Ok; [|exact Hattrs].
  rewrite Hget. erewrite bind_Ok; [|done].
  rewrite Hiter. erewrite bind_Ok; [|done].
  erewrite bind_Ok;
    [|apply tags_loop_total; eapply Forall_impl; [exact Hwf|]; by intros ? []].
  erewrite bind_Ok; [|done].
  rewrite !(grows_TAG_TO_SHOW _ _ Hgrows).
  fold (with_unknown (TAG_TO_SHOW g)
          (tags_item (TAG_TO_SHOW g) tags
             (attributes_item m (ATTRIBUTES_TO_SHOW g) ∅))).
  erewrite bind_Ok; [|by unfold lift, py_subscript; rewrite Hs].
  erewrite bind_Ok; [|done].
  cbv [bind get_width read ret fail set_width write]. rewrite Hwidth. simpl.
  case_decide; eexists _, s; by split.
Qed.

(* ===================================================================== *)
(** * The sort tag of a record *)
(* ===================================================================== *)

(** C1 as stated fails: an instance whose only [Owner] tag has no
    ['Value'] gets the record field ["(no value key)"], not ["unknown"]. *)
Lemma tag_entry_without_value_is_not_unknown :
  let instance := instance_of "i-123" [owner_tag_without_value] in
  instance_tags instance = Ok [owner_tag_without_value] ∧
  has_key "Owner" owner_tag_without_value = true ∧
  field owner_tag_without_value "Value" = None ∧
  ∃ item g',
    get_instance_data instance owner_globals = (Ok (VDict item), g', []) ∧
    item !! "Owner" = Some (VStr "(no value key)") ∧
    item !! "Owner" ≠ Some (VStr "unknown").
Proof.
  simpl. split; [reflexivity|]. split; [reflexivity|]. split; [reflexivity|].
  eexists _, _. split; [vm_compute; reflexivity|].
  split; [vm_compute; reflexivity | vm_compute; discriminate].
Qed.

(** C1, as amended.  The sort-tag field of a record is ["unknown"] when no
    tag entry has the sort tag as key (the sort tag not being one of the
    attribute names) and when the last entry that has it carries the
    value [None]; it is ["(no value key)"] when that last entry has no
    ['Value'] key. *)
Theorem sort_tag_unknown g instance item g' out tags :
  get_instance_data instance g = (Ok (VDict item), g', out) →
  instance_tags instance = Ok tags →
  (TAG_TO_SHOW g ∉ ATTRIBUTES_TO_SHOW g →
   Forall (λ tag, has_key (TAG_TO_SHOW g) tag = false) tags →
   item !! TAG_TO_SHOW g = Some (VStr "unknown")) ∧
  (∀ front entry back,
     tags = front ++ entry :: back →
     has_key (TAG_TO_SHOW g) entry = true →
     Forall (λ tag, has_key (TAG_TO_SHOW g) tag = false) back →
     (field entry "Value" = Some VNone →
      item !! TAG_TO_SHOW g = Some (VStr "unknown")) ∧
     (field entry "Value" = None →
      item !! TAG_TO_SHOW g = Some (VStr "(no value key)"))).
Proof.
  intros Hrun Htags.
  apply get_instance_data_Ok in Hrun as (m & tags' & -> & Htags' & -> & Hitem);
    [|by intros ->].
  rewrite Htags in Htags'. injection Htags' as <-. injection Hitem as ->.
  split.
  - intros Hattr Hnone.
    rewrite with_unknown_lookup, tags_item_no_match by done.
    rewrite attributes_item_lookup_other by done. by rewrite lookup_empty.
  - intros front entry back -> Hentry Hback.
    rewrite with_unknown_lookup, tags_item_last_match by done.
    unfold tag_value. split; intros ->; done.
Qed.

Lemma sort_tag_unknown_witness :
  (∃ item, (get_instance_data (instance_of "i-1" [name_tag "web"])
              owner_globals).1.1 = Ok (VDict item) ∧
           item !! "Owner" = Some (VStr "unknown")) ∧
  (∃ item, (get_instance_data (instance_of "i-2" [owner_tag "bob"; owner_tag_none])
              owner_globals).1.1 = Ok (VDict item) ∧
           item !! "Owner" = Some (VStr "unknown")) ∧
  (∃ item, (get_instance_data (instance_of "i-3" [owner_tag_without_value])
              owner_globals).1.1 = Ok (VDict item) ∧
           item !! "Owner" = Some (VStr "(no value key)")).
Proof.
  split; [|split].
  - eexists. split; [vm_compute; reflexivity|].
    refine (proj1 (sort_tag_unknown owner_globals
                     (instance_of "i-1" [name_tag "web"]) _ _ []
                     [name_tag "web"] _ _) _ _).
    + vm_compute; reflexivity.
    + reflexivity.
    + apply (bool_decide_unpack _). vm_compute. exact I.
    + repeat constructor.
  - eexists. split; [vm_compute; reflexivity|].
    refine (proj1 (proj2 (sort_tag_unknown owner_globals
                     (instance_of "i-2" [owner_tag "bob"; owner_tag_none]) _ _ []
                     [owner_tag "bob"; owner_tag_none] _ _)
                   [owner_tag "bob"] owner_tag_none [] _ _ _) _).
    + vm_compute; reflexivity.
    + reflexivity.
    + reflexivity.
    + reflexivity.
    + constructor.
    + reflexivity.
  - eexists. split; [vm_compute; reflexivity|].
    refine (proj2 (proj2 (sort_tag_unknown owner_globals
                     (instance_of "i-3" [owner_tag_without_value]) _ _ []
                     [owner_tag_without_value] _ _)
                   [] owner_tag_without_value [] _ _ _) _).
    + vm_compute; reflexivity.
    + reflexivity.
    + reflexivity.
    + reflexivity.
    + constructor.
    + reflexivity.
Defined.

(* ===================================================================== *)
(** * The keys of a record *)
(* ===================================================================== *)

(** C2 as stated fails: with [--tag Owner --attributes Owner], an
    instance that has no attribute [Owner] and carries the tag
    [Owner = bob] gets the record [{Owner: bob}]; the tag has overwritten
    the placeholder. *)
Lemma absent_attribute_overwritten_by_tag :
  let instance := dict [("Tags", VList [owner_tag "bob"])] in
  "Owner" ∈ ATTRIBUTES_TO_SHOW owner_twice_globals ∧
  field instance "Owner" = None ∧
  ∃ item g',
    get_instance_data instance owner_twice_globals = (Ok (VDict item), g', []) ∧
    item !! "Owner" = Some (VStr "bob") ∧
    item !! "Owner" ≠ Some (VStr "(no attribute key)").
Proof.
  simpl. split; [by apply list_elem_of_singleton|]. split; [reflexivity|].
  eexists _, _. split; [vm_compute; reflexivity|].
  split; [vm_compute; reflexivity | vm_compute; discriminate].
Qed.

(** C2, as amended.  The record made from a raw instance other than
    [None] has exactly the sort-tag name and the attribute names as keys;
    an attribute name that the raw instance lacks is bound to
    ["(no attribute key)"], unless it is the sort-tag name itself and the
    instance has a tag entry with that key. *)
Theorem record_keys g instance record g' out :
  instance ≠ VNone →
  get_instance_data instance g = (Ok record, g', out) →
  ∃ item,
    record = VDict item ∧
    dom item = {[TAG_TO_SHOW g]} ∪ list_to_set (ATTRIBUTES_TO_SHOW g) ∧
    ∀ attribute,
      attribute ∈ ATTRIBUTES_TO_SHOW g →
      field instance attribute = None →
      (attribute ≠ TAG_TO_SHOW g ∨
       ∃ tags, instance_tags instance = Ok tags ∧
               Forall (λ tag, has_key (TAG_TO_SHOW g) tag = false) tags) →
      item !! attribute = Some (VStr "(no attribute key)").
Proof.
  intros Hnone Hrun.
  apply get_instance_data_Ok in Hrun as (m & tags & -> & Htags & -> & ->);
    [|done].
  eexists. split; [done|]. split.
  - rewrite with_unknown_dom, tags_item_dom, attributes_item_dom. set_solver.
  - intros attribute Hin Habsent Hcase. simpl in Habsent.
    assert (attributes_item m (ATTRIBUTES_TO_SHOW g) ∅ !! attribute
            = Some (VStr "(no attribute key)")) as Hplace.
    { rewrite attributes_item_lookup by done.
      unfold attribute_value. by rewrite Habsent. }
    destruct (decide (attribute = TAG_TO_SHOW g)) as [->|Hne].
    + destruct Hcase as [?|(tags' & Htags' & Hall)]; [done|].
      rewrite Htags in Htags'. injection Htags' as <-.
      by rewrite with_unknown_lookup, tags_item_no_match, Hplace.
    + by rewrite with_unknown_lookup_other, tags_item_lookup_other.
Qed.

Lemma record_keys_witness :
  ∃ item,
    (get_instance_data (dict [("Tags", VList [owner_tag "bob"])])
       owner_globals).1.1 = Ok (VDict item) ∧
    dom item = {["Owner"]} ∪ list_to_set ["InstanceId"] ∧
    item !! "InstanceId" = Some (VStr "(no attribute key)").
Proof.
  edestruct (record_keys owner_globals (dict [("Tags", VList [owner_tag "bob"])]))
    as (item & Hrecord & Hdom & Hattribute).
  - discriminate.
  - vm_compute; reflexivity.
  - exists item. split; [by rewrite <- Hrecord|].
    split; [exact Hdom|].
    apply Hattribute.
    + by apply list_elem_of_singleton.
    + reflexivity.
    + left. discriminate.
Defined.

(* ===================================================================== *)
(** * Several entries for the sort tag *)
(* ===================================================================== *)



(* ===================================================================== *)
(** * The widths over a whole run *)
(* ===================================================================== *)

Lemma preserves_weaken {S A} (R R' : relation S) (c : M S A) :
  (∀ st st', R st st' → R' st st') → preserves R c → preserves R' c.
Proof. intros HR Hc st o st' out H. eapply HR, Hc, H. Qed.

#[global] Instance on_globals_preorder {W} (R : relation globals) :
  PreOrder R → PreOrder (on_globals (W:=W) R).
Proof.
  intros HR. split.
  - intros st. unfold on_globals. reflexivity.
  - intros st1 st2 st3. unfold on_globals. intros. by etrans.
Qed.

Lemma preserves_zoom {W A} (R : relation globals) (c : M globals A) :
  preserves R c → preserves (on_globals (W:=W) R) (zoom c).
Proof.
  intros Hc [g w] o [g' w'] out. unfold zoom, on_globals. simpl.
  destruct (c g) as [[o1 g1] out1] eqn:Hrun. intros [= <- <- <- <-].
  by eapply Hc.
Qed.

(** The renderer only reads the globals. *)
Lemma print_table_grows dict_list : preserves grows (print_table dict_list).
Proof.
  unfold print_table, print_row, heading_cell, line_cell.
  preserved; apply get_width_grows.
Qed.

Lemma collect_instances_grows instances results :
  preserves grows (collect_instances instances results).
Proof. unfold collect_instances. preserved. apply get_instance_data_grows. Qed.

Lemma collect_response_grows response results :
  preserves grows (collect_response response results).
Proof.
  unfold collect_response, collect_reservation. preserved.
  apply collect_instances_grows.
Qed.

(** The assignments of the initialisation that touch neither the columns
    nor the widths. *)
Lemma same_columns_keeps_invariant (f : globals → globals) :
  (∀ g, COLUMN_WIDTHS (f g) = COLUMN_WIDTHS g) →
  (∀ g, COLUMNS (f g) = COLUMNS g) →
  preserves keeps_invariant (write f).
Proof.
  intros Hw Hc. apply (preserves_write keeps_invariant).
  intros g [Hcover Htracked]. split.
  - intros column width. rewrite Hw. apply Hcover.
  - intros column. rewrite Hw, Hc. apply Htracked.
Qed.

Lemma init_tag_keeps_invariant ARGS : preserves keeps_invariant (init_tag ARGS).
Proof.
  unfold init_tag. destruct (tag ARGS); by apply same_columns_keeps_invariant.
Qed.

Lemma init_attributes_keeps_invariant ARGS :
  preserves keeps_invariant (init_attributes ARGS).
Proof.
  unfold init_attributes. preserved; by apply same_columns_keeps_invariant.
Qed.

Lemma named_widths_lookup columns widths column :
  column ∈ columns → named_widths columns widths !! column = Some (len column).
Proof.
  induction columns as [|c l IH] using rev_ind; [by intros ?%elem_of_nil|].
  unfold named_widths in *. rewrite foldl_app. simpl. intros Hin.
  destruct (decide (c = column)) as [->|Hne].
  - by rewrite lookup_insert_eq.
  - rewrite lookup_insert_ne by done. apply IH.
    apply elem_of_app in Hin as [?|Hin]; [done|].
    by apply list_elem_of_singleton in Hin.
Qed.

Lemma named_widths_lookup_other columns widths column :
  column ∉ columns → named_widths columns widths !! column = widths !! column.
Proof.
  induction columns as [|c l IH] using rev_ind; [done|].
  unfold named_widths in *. rewrite foldl_app. simpl. intros Hin.
  rewrite not_elem_of_app, list_elem_of_singleton in Hin. destruct Hin as [? ?].
  rewrite lookup_insert_ne by done. by apply IH.
Qed.

Lemma name_widths_loop columns g :
  for_each columns (λ column (_ : unit), set_width column (len column)) tt g
  = (Ok tt, set_COLUMN_WIDTHS (named_widths columns (COLUMN_WIDTHS g)) g, []).
Proof.
  revert g. induction columns as [|c l IH]; intros g.
  - by destruct g.
  - simpl. unfold bind. simpl. by rewrite IH.
Qed.

Lemma init_columns_Ok g :
  init_columns g
  = (Ok tt,
     set_COLUMN_WIDTHS
       (named_widths ((COLUMNS g ++ [TAG_TO_SHOW g]) ++ ATTRIBUTES_TO_SHOW g)
                     (COLUMN_WIDTHS g))
       (set_COLUMNS ((COLUMNS g ++ [TAG_TO_SHOW g]) ++ ATTRIBUTES_TO_SHOW g) g),
     []).
Proof.
  unfold init_columns. cbv [bind write read]. simpl.
  by rewrite name_widths_loop.
Qed.

Lemma init_columns_keeps_invariant : preserves keeps_invariant init_columns.
Proof.
  intros g o g' out. rewrite init_columns_Ok. intros [= <- <- <-].
  intros [Hcover Htracked]. split.
  - intros column width. simpl.
    destruct (decide (column ∈ (COLUMNS g ++ [TAG_TO_SHOW g])
                              ++ ATTRIBUTES_TO_SHOW g)) as [Hin|Hout].
    + rewrite named_widths_lookup by done. intros [= <-]. lia.
    + rewrite named_widths_lookup_other by done. apply Hcover.
  - intros column. simpl. intros Hin. rewrite named_widths_lookup by done.
    by eexists.
Qed.

Section Run.

Context {P : provider}.

Lemma describe_unchanged (R : relation globals) `{!PreOrder R}
    (client : Client P) next_token :
  preserves (on_globals R) (describe client next_token).
Proof.
  intros [g w] o [g' w'] out. unfold describe, on_globals. simpl.
  destruct (describe_instances P client next_token w). intros [= <- <- <- <-].
  reflexivity.
Qed.

Lemma new_client_unchanged (R : relation globals) `{!PreOrder R} region :
  preserves (on_globals R) (new_client (P:=P) region).
Proof.
  intros [g w] o [g' w'] out. unfold new_client, on_globals. simpl.
  destruct (boto3_client P region w). intros [= <- <- <- <-]. reflexivity.
Qed.

Lemma fetching_grows fuel region (client : Client P) next_token results :
  preserves (on_globals grows) (fetching fuel region client next_token results).
Proof.
  revert next_token results.
  induction fuel as [|fuel IH]; intros next_token results; simpl.
  - preserved.
  - apply (preserves_bind (on_globals grows)); [apply describe_unchanged, _|].
    intros [response|diagnostic]; [|preserved].
    apply (preserves_bind (on_globals grows)).
    { apply preserves_zoom, collect_response_grows. }
    intros results'. preserved. apply IH.
Qed.

Lemma get_instances_grows fuel region :
  preserves (on_globals grows) (get_instances (P:=P) fuel region).
Proof.
  unfold get_instances.
  apply (preserves_bind (on_globals grows)).
  { apply preserves_zoom. preserved. }
  intros available. case_decide; [preserved|].
  apply (preserves_bind (on_globals grows)); [apply new_client_unchanged, _|].
  intros [client|diagnostic]; [|preserved].
  apply (preserves_bind (on_globals grows)); [apply fetching_grows|].
  intros [results|]; [|preserved].
  apply (preserves_bind (on_globals grows)).
  { apply preserves_zoom. preserved. }
  intros TAG. preserved.
Qed.

Lemma report_grows fuel region u :
  preserves (on_globals grows) (report (P:=P) fuel region u).
Proof.
  unfold report. preserved.
  - apply get_instances_grows.
  - apply preserves_zoom, print_table_grows.
Qed.

Lemma regions_loop_grows fuel regions :
  preserves (on_globals grows) (for_each regions (report (P:=P) fuel) tt).
Proof. preserved. apply report_grows. Qed.

Lemma init_regions_keeps_invariant ARGS :
  preserves (on_globals keeps_invariant) (init_regions (P:=P) ARGS).
Proof.
  unfold init_regions. preserved. apply preserves_zoom.
  preserved; by apply same_columns_keeps_invariant.
Qed.

Lemma main_keeps_invariant fuel ARGS :
  preserves (on_globals keeps_invariant) (main (P:=P) fuel ARGS).
Proof.
  unfold main.
  apply (preserves_bind (on_globals keeps_invariant));
    [apply init_regions_keeps_invariant | intros _].
  apply (preserves_bind (on_globals keeps_invariant));
    [apply preserves_zoom, init_tag_keeps_invariant | intros _].
  apply (preserves_bind (on_globals keeps_invariant));
    [apply preserves_zoom, init_attributes_keeps_invariant | intros _].
  apply (preserves_bind (on_globals keeps_invariant));
    [apply preserves_zoom, init_columns_keeps_invariant | intros _].
  apply (preserves_bind (on_globals keeps_invariant)).
  { apply preserves_zoom. preserved. }
  intros regions.
  eapply preserves_weaken; [|apply regions_loop_grows].
  intros st st'. unfold on_globals. apply grows_keeps_invariant.
Qed.

End Run.

(** C5.  Every tracked width is an integer at least as large as the length
    of its column's name, and no width ever decreases: [init_columns]
    gives every column the length of its name; each normalisation, and
    the loop over all the regions with them, leaves every width as it was
    or larger and keeps the bound; so the bound holds in the state a run
    ends in, however it ends. *)
Theorem column_widths_invariant :
  (∀ g, ∃ g',
     init_columns g = (Ok tt, g', []) ∧
     (∀ column, column ∈ COLUMNS g' →
        COLUMN_WIDTHS g' !! column = Some (len column)) ∧
     (widths_cover_names g → widths_cover_names g')) ∧
  (∀ instance g o g' out,
     get_instance_data instance g = (o, g', out) →
     widths_never_shrink g g' ∧
     (widths_cover_names g → widths_cover_names g')) ∧
  (∀ (P : provider) fuel regions (st : state P) o st' out,
     for_each regions (report fuel) tt st = (o, st', out) →
     widths_never_shrink st.1 st'.1 ∧
     (widths_cover_names st.1 → widths_cover_names st'.1)) ∧
  (∀ (P : provider) fuel ARGS (w : World P) o st' out,
     main fuel ARGS (initial_globals, w) = (o, st', out) →
     ∀ column, column ∈ COLUMNS st'.1 →
       ∃ width, COLUMN_WIDTHS st'.1 !! column = Some width ∧ len column ≤ width).
Proof.
  split; [|split; [|split]].
  - intros g. eexists. split; [apply init_columns_Ok|]. split.
    + intros column Hin. simpl in *. by apply named_widths_lookup.
    + intros Hcover column width. simpl.
      destruct (decide (column ∈ (COLUMNS g ++ [TAG_TO_SHOW g])
                                ++ ATTRIBUTES_TO_SHOW g)) as [Hin|Hout].
      * rewrite named_widths_lookup by done. intros [= <-]. lia.
      * rewrite named_widths_lookup_other by done. apply Hcover.
  - intros instance g o g' out Hrun.
    apply get_instance_data_grows in Hrun.
    split; [apply Hrun | by apply grows_cover].
  - intros P fuel regions st o st' out Hrun.
    apply regions_loop_grows in Hrun. unfold on_globals in Hrun.
    split; [apply Hrun | by apply grows_cover].
  - intros P fuel ARGS w o st' out Hrun.
    apply main_keeps_invariant in Hrun. unfold on_globals in Hrun. simpl in Hrun.
    destruct Hrun as [Hcover Htracked].
    { split; [intros column width | intros column]; simpl.
      - by rewrite lookup_empty.
      - by intros ?%elem_of_nil. }
    intros column [width Hwidth]%Htracked.
    exists width. split; [done | by eapply Hcover].
Qed.

Lemma owner_globals_cover : widths_cover_names owner_globals.
Proof.
  change (map_Forall (λ column width, len column ≤ width)
                     (COLUMN_WIDTHS owner_globals)).
  apply (bool_decide_unpack _). vm_compute. exact I.
Qed.

Lemma column_widths_invariant_witness :
  let run :=
    get_instance_data (owned_by "i-0123456789abcdef0" "alice") owner_globals in
  COLUMN_WIDTHS owner_globals !! "InstanceId" = Some 10 ∧
  COLUMN_WIDTHS run.1.2 !! "InstanceId" = Some 19 ∧
  widths_never_shrink owner_globals run.1.2 ∧
  widths_cover_names run.1.2.
Proof.
  intros run. split; [reflexivity|]. split; [vm_compute; reflexivity|].
  destruct (proj1 (proj2 column_widths_invariant)
              (owned_by "i-0123456789abcdef0" "alice") owner_globals
              run.1.1 run.1.2 run.2) as [Hgrow Hcover].
  - fold run. by destruct run as [[o g'] out].
  - split; [exact Hgrow | apply Hcover, owner_globals_cover].
Defined.

(* ===================================================================== *)
(** * The table *)
(* ===================================================================== *)

Lemma len_append s1 s2 : len (s1 +:+ s2) = len s1 + len s2.
Proof.
  unfold len. induction s1 as [|c s1 IH]; simpl; [done|].
  rewrite !Nat2Z.inj_succ. lia.
Qed.

Lemma len_nonneg s : 0 ≤ len s.
Proof. unfold len. lia. Qed.

Lemma len_str_mul_char c n : len (str_mul (String c "") n) = Z.max 0 n.
Proof.
  unfold str_mul, len.
  assert (∀ k, String.length (str_repeat (String c "") k) = k) as Hk.
  { induction k as [|k IH]; simpl; [done | by f_equal]. }
  rewrite Hk. lia.
Qed.

Lemma len_ljust s width : len (ljust s width) = Z.max (len s) width.
Proof.
  unfold ljust. rewrite len_append, (len_str_mul_char " "%char).
  pose proof (len_nonneg s). lia.
Qed.

Lemma get_width_Ok column g width g' out :
  get_width column g = (Ok width, g', out) →
  COLUMN_WIDTHS g !! column = Some width ∧ g' = g ∧ out = [].
Proof.
  cbv [get_width bind read ret fail].
  destruct (COLUMN_WIDTHS g !! column); by intros [= <- <- <-].
Qed.

Lemma heading_cells_Ok columns heading g heading' g' out :
  for_each columns heading_cell heading g = (Ok heading', g', out) →
  heading' = foldl (λ heading column,
                      heading +:+ ljust column (column_width g column + COLUMN_MARGIN))
                   heading columns
  ∧ g' = g ∧ out = [].
Proof.
  revert heading out. induction columns as [|c l IH]; intros heading out H.
  - by injection H as <- <- <-.
  - simpl in H.
    apply bind_Ok_inv in H as (h1 & g1 & oa1 & oa2 & Hcell & H & ->).
    unfold heading_cell in Hcell.
    apply bind_Ok_inv in Hcell as (w & g2 & ob1 & ob2 & Hw & Hcell & ->).
    apply get_width_Ok in Hw as (Hw & -> & ->).
    injection Hcell as <- <- <-.
    apply IH in H as (-> & -> & ->). simpl.
    unfold column_width. by rewrite Hw.
Qed.

Lemma line_cells_Ok dict columns line g line' g' out :
  for_each columns (line_cell dict) line g = (Ok line', g', out) →
  line' = foldl (λ line column,
                   line +:+ ljust (cell_text dict column)
                                  (column_width g column + COLUMN_MARGIN))
                line columns
  ∧ g' = g ∧ out = [].
Proof.
  revert line out. induction columns as [|c l IH]; intros line out H.
  - by injection H as <- <- <-.
  - simpl in H.
    apply bind_Ok_inv in H as (h1 & g1 & oa1 & oa2 & Hcell & H & ->).
    unfold line_cell in Hcell.
    apply bind_Ok_inv in Hcell as (value & g2 & ob1 & ob2 & Hget & Hcell & ->).
    injection Hget as Hget <- <-.
    apply bind_Ok_inv in Hcell as (pad & g3 & oc1 & oc2 & Hpad & Hcell & ->).
    injection Hpad as Hpad <- <-.
    apply bind_Ok_inv in Hcell as (w & g4 & od1 & od2 & Hw & Hcell & ->).
    apply get_width_Ok in Hw as (Hw & -> & ->).
    injection Hcell as <- <- <-.
    apply IH in H as (-> & -> & ->). simpl.
    unfold column_width. rewrite Hw. simpl.
    split; [|done]. f_equal. f_equal.
    destruct dict as [| | | | | |m]; try discriminate.
    unfold cell_text. simpl in *.
    destruct (m !! c) as [v|]; injection Hget as <-.
    + destruct v; try discriminate. by injection Hpad as <-.
    + by injection Hpad as <-.
Qed.

Lemma print_rows_Ok dict_list g g' out :
  for_each dict_list print_row tt g = (Ok tt, g', out) →
  g' = g ∧ out = Print <$> (table_line g <$> dict_list).
Proof.
  revert out. induction dict_list as [|d l IH]; intros out H.
  - by injection H as <- <-.
  - simpl in H.
    apply bind_Ok_inv in H as ([] & g1 & oa1 & oa2 & Hrow & H & ->).
    unfold print_row in Hrow.
    apply bind_Ok_inv in Hrow as (columns & g2 & ob1 & ob2 & Hr & Hrow & ->).
    injection Hr as <- <- <-.
    apply bind_Ok_inv in Hrow as (line & g3 & oc1 & oc2 & Hline & Hrow & ->).
    apply line_cells_Ok in Hline as (-> & -> & ->).
    injection Hrow as <- <-.
    apply IH in H as (-> & ->). done.
Qed.

Lemma heading_cells_total columns heading g :
  (∀ column, column ∈ columns → is_Some (COLUMN_WIDTHS g !! column)) →
  for_each columns heading_cell heading g
  = (Ok (foldl (λ heading column,
                  heading +:+ ljust column (column_width g column + COLUMN_MARGIN))
               heading columns), g, []).
Proof.
  revert heading. induction columns as [|c l IH]; intros heading Hwidths; [done|].
  destruct (Hwidths c) as [width Hwidth]; [by left|].
  simpl. erewrite bind_Ok.
  2:{ cbv [heading_cell bind get_width read ret]. by rewrite Hwidth. }
  rewrite IH by (intros column Hin; apply Hwidths; by right).
  unfold column_width. by rewrite Hwidth.
Qed.

Lemma line_cell_total m column line g width :
  COLUMN_WIDTHS g !! column = Some width →
  (∀ value, m !! column = Some value → ∃ s, value = VStr s) →
  line_cell (VDict m) column line g
  = (Ok (line +:+ ljust (cell_text (VDict m) column) (width + COLUMN_MARGIN)),
     g, []).
Proof.
  intros Hwidth Htext.
  cbv [line_cell bind lift py_get py_ljust get_width read ret cell_text field].
  destruct (m !! column) as [value|] eqn:Hvalue.
  - destruct (Htext value eq_refl) as [s ->]. by rewrite Hwidth.
  - by rewrite Hwidth.
Qed.

Lemma line_cells_total m columns line g :
  (∀ column, column ∈ columns → is_Some (COLUMN_WIDTHS g !! column)) →
  (∀ column value, column ∈ columns → m !! column = Some value →
     ∃ s, value = VStr s) →
  for_each columns (line_cell (VDict m)) line g
  = (Ok (foldl (λ line column,
                  line +:+ ljust (cell_text (VDict m) column)
                                 (column_width g column + COLUMN_MARGIN))
               line columns), g, []).
Proof.
  revert line. induction columns as [|c l IH]; intros line Hwidths Htext; [done|].
  destruct (Hwidths c) as [width Hwidth]; [by left|].
  simpl. rewrite (bind_Ok _ _ _ _ _ _ (line_cell_total m c line g width Hwidth
                                         (λ value, Htext c value ltac:(by left)))).
  rewrite IH; [| intros column Hin; apply Hwidths; by right
               | intros column value Hin; apply Htext; by right].
  unfold column_width. by rewrite Hwidth.
Qed.

Lemma print_rows_total dict_list g :
  columns_tracked g →
  Forall (text_record g) dict_list →
  for_each dict_list print_row tt g
  = (Ok tt, g, Print <$> (table_line g <$> dict_list)).
Proof.
  intros Htracked. induction 1 as [|d l [Hdict Htext] _ IH]; [done|].
  destruct d as [| | | | | |m]; try done.
  simpl. erewrite bind_Ok.
  2:{ unfold print_row. erewrite bind_Ok; [|done].
      erewrite bind_Ok; [|by apply line_cells_total]. done. }
  by rewrite IH.
Qed.

(** A heading is at least as long as the margin after its last column. *)
Lemma heading_length g :
  widths_invariant g → COLUMNS g ≠ [] → COLUMN_MARGIN ≤ len (table_heading g).
Proof.
  intros [Hcover Htracked] Hcolumns. unfold table_heading.
  destruct (COLUMNS g) as [|c l] eqn:Hl using rev_ind; [done|]. clear IHl.
  rewrite foldl_app. simpl. rewrite len_append, len_ljust.
  assert (is_Some (COLUMN_WIDTHS g !! c)) as [width Hwidth].
  { apply Htracked. rewrite Hl. apply elem_of_app. right. by left. }
  unfold column_width. rewrite Hwidth. simpl.
  specialize (Hcover _ _ Hwidth).
  pose proof (len_nonneg c).
  pose proof (len_nonneg (foldl (λ heading column,
     heading +:+ ljust column (default 0 (COLUMN_WIDTHS g !! column) + COLUMN_MARGIN))
     "" l)).
  lia.
Qed.

(** C6 as stated fails: on the table of the specification's example the
    heading is ["Owner    InstanceId  "], nine characters for the first
    column and twelve for the second, and not the line the specification
    gives, whose first column takes eleven; likewise the data line. *)
Lemma example_heading_has_21_characters :
  print_table [alice_record] table_globals
  = (Ok tt, table_globals,
     [Print "Owner    InstanceId  ";
      Print "-------------------";
      Print "alice    i-123       "]) ∧
  "Owner    InstanceId  " ≠ "Owner      InstanceId  " ∧
  "alice    i-123       " ≠ "alice      i-123       ".
Proof. split; [vm_compute; reflexivity | split; discriminate]. Qed.

(** C6, as amended.  On the example, [print_table] prints the heading
    ["Owner    InstanceId  "], a line of nineteen dashes and the line
    ["alice    i-123       "]: each cell is left-justified to the width of
    its column plus the margin.  In general, whenever it returns, and it
    does for records whose values are text, it has printed the heading,
    then a line of dashes, then one line per record; the line of dashes
    is as long as the heading less one margin.  For an empty list it
    prints nothing. *)
Theorem print_table_layout :
  print_table [alice_record] table_globals
  = (Ok tt, table_globals,
     [Print "Owner    InstanceId  ";
      Print "-------------------";
      Print "alice    i-123       "]) ∧
  (∀ g dict_list g' out,
     dict_list ≠ [] →
     print_table dict_list g = (Ok tt, g', out) →
     out = Print (table_heading g)
           :: Print (str_mul "-" (len (table_heading g) - COLUMN_MARGIN))
           :: (Print <$> (table_line g <$> dict_list)) ∧
     (widths_invariant g → COLUMNS g ≠ [] →
      len (str_mul "-" (len (table_heading g) - COLUMN_MARGIN))
      = len (table_heading g) - COLUMN_MARGIN)) ∧
  (∀ g dict_list,
     dict_list ≠ [] →
     columns_tracked g →
     Forall (text_record g) dict_list →
     print_table dict_list g
     = (Ok tt, g,
        Print (table_heading g)
        :: Print (str_mul "-" (len (table_heading g) - COLUMN_MARGIN))
        :: (Print <$> (table_line g <$> dict_list)))) ∧
  (∀ g, print_table [] g = (Ok tt, g, [])).
Proof.
  split; [vm_compute; reflexivity|]. split; [|split; [|done]].
  2:{ intros g dict_list Hne Htracked Hrecords. unfold print_table.
      rewrite decide_False by (destruct dict_list; [done | simpl; lia]).
      erewrite bind_Ok; [|done].
      erewrite bind_Ok; [|by apply heading_cells_total].
      erewrite bind_Ok; [|done]. erewrite bind_Ok; [|done].
      by rewrite print_rows_total. }
  intros g dict_list g' out Hne H. split.
  - unfold print_table in H. case_decide as Hlen.
    { destruct dict_list; [done | simpl in Hlen; lia]. }
    apply bind_Ok_inv in H as (columns & g1 & oa1 & oa2 & Hr & H & ->).
    injection Hr as <- <- <-.
    apply bind_Ok_inv in H as (heading & g2 & ob1 & ob2 & Hheading & H & ->).
    apply heading_cells_Ok in Hheading as (-> & -> & ->).
    apply bind_Ok_inv in H as ([] & g3 & oc1 & oc2 & Hp & H & ->).
    injection Hp as <- <-.
    apply bind_Ok_inv in H as ([] & g4 & od1 & od2 & Hp & H & ->).
    injection Hp as <- <-.
    apply print_rows_Ok in H as (-> & ->). done.
  - intros Hinv Hcolumns. rewrite (len_str_mul_char "-"%char).
    pose proof (heading_length g Hinv Hcolumns). lia.
Qed.

Lemma table_globals_invariant : widths_invariant table_globals.
Proof.
  split.
  - change (map_Forall (λ column width, len column ≤ width)
                       (COLUMN_WIDTHS table_globals)).
    apply (bool_decide_unpack _). vm_compute. exact I.
  - intros column Hin. revert column Hin. apply Forall_forall.
    apply (bool_decide_unpack _). vm_compute. exact I.
Qed.

Lemma print_table_layout_witness :
  [Print (table_heading table_globals);
   Print (str_mul "-" (len (table_heading table_globals) - COLUMN_MARGIN));
   Print (table_line table_globals alice_record)]
  = [Print "Owner    InstanceId  ";
     Print "-------------------";
     Print "alice    i-123       "] ∧
  len (str_mul "-" (len (table_heading table_globals) - COLUMN_MARGIN))
  = len (table_heading table_globals) - COLUMN_MARGIN.
Proof.
  destruct print_table_layout as (Hexample & Hlayout & _ & _).
  destruct (Hlayout table_globals [alice_record] table_globals _
              ltac:(discriminate) Hexample) as [Hout Hdashes].
  split.
  - symmetry. exact Hout.
  - apply Hdashes; [apply table_globals_invariant | discriminate].
Defined.

(* ===================================================================== *)
(** * The order of the records *)
(* ===================================================================== *)

(** ** The order on [str] *)

Lemma ascii_compare_refl c : Ascii.compare c c = Eq.
Proof. unfold Ascii.compare. apply N.compare_refl. Qed.

Lemma ascii_compare_lt_trans a b c :
  Ascii.compare a b = Lt → Ascii.compare b c = Lt → Ascii.compare a c = Lt.
Proof.
  unfold Ascii.compare. rewrite !N.compare_lt_iff. apply N.lt_trans.
Qed.

Lemma string_compare_refl s : String.compare s s = Eq.
Proof.
  induction s as [|c s IH]; simpl; [done|]. by rewrite ascii_compare_refl.
Qed.

Lemma string_compare_lt_trans s1 s2 s3 :
  String.compare s1 s2 = Lt → String.compare s2 s3 = Lt →
  String.compare s1 s3 = Lt.
Proof.
  revert s2 s3. induction s1 as [|a s1 IH]; intros [|b s2] [|c s3]; simpl;
    try done.
  destruct (Ascii.compare a b) eqn:Hab; try done;
    destruct (Ascii.compare b c) eqn:Hbc; try done; intros H12 H23.
  - apply Ascii.compare_eq_iff in Hab as ->. rewrite Hbc. by eapply IH.
  - apply Ascii.compare_eq_iff in Hab as ->. by rewrite Hbc.
  - apply Ascii.compare_eq_iff in Hbc as <-. by rewrite Hab.
  - by rewrite (ascii_compare_lt_trans _ _ _ Hab Hbc).
Qed.

Lemma string_ltb_irrefl s : String.ltb s s = false.
Proof. unfold String.ltb. by rewrite string_compare_refl. Qed.

Lemma string_leb_refl s : String.leb s s = true.
Proof. unfold String.leb. by rewrite string_compare_refl. Qed.

Lemma string_ltb_leb s1 s2 : String.ltb s1 s2 = true → String.leb s1 s2 = true.
Proof. unfold String.ltb, String.leb. by destruct (String.compare s1 s2). Qed.

Lemma string_not_ltb_leb s1 s2 :
  String.ltb s1 s2 = false → String.leb s2 s1 = true.
Proof.
  unfold String.ltb, String.leb. rewrite (String.compare_antisym s1 s2).
  by destruct (String.compare s2 s1).
Qed.

Lemma string_leb_trans s1 s2 s3 :
  String.leb s1 s2 = true → String.leb s2 s3 = true → String.leb s1 s3 = true.
Proof.
  unfold String.leb.
  destruct (String.compare s1 s2) eqn:H12; try done;
    destruct (String.compare s2 s3) eqn:H23; try done; intros _ _.
  - apply String.compare_eq_iff in H12 as ->. by rewrite H23.
  - apply String.compare_eq_iff in H12 as ->. by rewrite H23.
  - apply String.compare_eq_iff in H23 as <-. by rewrite H12.
  - by rewrite (string_compare_lt_trans _ _ _ H12 H23).
Qed.

(** ** The sort on [str] keys *)

Lemma insert_str_Permutation x l : insert_str x l ≡ₚ x :: l.
Proof.
  induction l as [|y l IH]; simpl; [done|].
  destruct (String.ltb y.1 x.1); [|done].
  rewrite IH. apply Permutation_swap.
Qed.

Lemma sort_str_Permutation l : sort_str l ≡ₚ l.
Proof.
  induction l as [|x l IH]; simpl; [done|].
  by rewrite insert_str_Permutation, IH.
Qed.

Lemma insert_str_sorted x l :
  StronglySorted key_le l → StronglySorted key_le (insert_str x l).
Proof.
  induction 1 as [|y l Hsorted IH Hall]; simpl.
  - repeat constructor.
  - destruct (String.ltb y.1 x.1) eqn:Hlt.
    + constructor; [done|].
      rewrite insert_str_Permutation. constructor; [|done].
      by apply string_ltb_leb.
    + assert (key_le x y) as Hxy by by apply string_not_ltb_leb.
      constructor; [by constructor|].
      constructor; [done|].
      eapply Forall_impl; [exact Hall|]. intros z Hyz.
      unfold key_le in *. by eapply string_leb_trans.
Qed.

Lemma sort_str_sorted l : StronglySorted key_le (sort_str l).
Proof.
  induction l as [|x l IH]; simpl; [constructor | by apply insert_str_sorted].
Qed.

(** The records of one key are not reordered. *)
Lemma insert_str_stable s x l :
  filter (λ p, p.1 = s) (insert_str x l) = filter (λ p, p.1 = s) (x :: l).
Proof.
  induction l as [|y l IH]; simpl; [done|].
  destruct (String.ltb y.1 x.1) eqn:Hlt; [|done].
  rewrite !filter_cons, IH, !filter_cons.
  destruct (decide (y.1 = s)) as [Hy|]; [|done].
  destruct (decide (x.1 = s)) as [Hx|]; [|done].
  rewrite <- Hx in Hy. rewrite Hy, string_ltb_irrefl in Hlt. done.
Qed.

Lemma sort_str_stable s l :
  filter (λ p, p.1 = s) (sort_str l) = filter (λ p, p.1 = s) l.
Proof.
  induction l as [|x l IH]; simpl; [done|].
  by rewrite insert_str_stable, !filter_cons, IH.
Qed.

(** ** [sorted] on records whose keys are [str] *)

Lemma insert_keyed_str x l :
  insert_keyed (str_key x) (str_key <$> l) = Ok (str_key <$> insert_str x l).
Proof.
  induction l as [|y l IH]; csimpl; [done|].
  destruct (String.ltb y.1 x.1); csimpl; [|done].
  by rewrite IH.
Qed.

Lemma sort_keyed_str l :
  sort_keyed (str_key <$> l) = Ok (str_key <$> sort_str l).
Proof.
  induction l as [|x l IH]; csimpl; [done|].
  rewrite IH. csimpl. apply insert_keyed_str.
Qed.

Lemma with_keys_str TAG results keys :
  Forall2 (λ record s, tag_of TAG record = Some s) results keys →
  with_keys (λ k, py_subscript k TAG) results
  = Ok (str_key <$> zip keys results).
Proof.
  induction 1 as [|record s results keys Htag _ IH]; csimpl; [done|].
  unfold tag_of in Htag.
  destruct (py_subscript record TAG) as [[]| | |]; try done.
  injection Htag as ->. csimpl. by rewrite IH.
Qed.

Lemma sorted_str TAG results keys :
  Forall2 (λ record s, tag_of TAG record = Some s) results keys →
  sorted (λ k, py_subscript k TAG) results
  = Ok ((sort_str (zip keys results)).*2).
Proof.
  intros Hkeys. unfold sorted. rewrite (with_keys_str _ _ _ Hkeys). csimpl.
  rewrite sort_keyed_str. csimpl. f_equal.
  rewrite <- list_fmap_compose. by apply list_fmap_ext.
Qed.

Lemma keyed_records_sorted TAG (l : list (string * pyval)) :
  Forall (λ p, tag_of TAG p.2 = Some p.1) l →
  StronglySorted key_le l → StronglySorted (tag_le TAG) l.*2.
Proof.
  intros Hkeys Hsorted.
  induction Hsorted as [|p l Hsorted IH Hall]; csimpl; [constructor|].
  apply Forall_cons in Hkeys as [Hp Hkeys].
  constructor; [by apply IH|].
  apply Forall_fmap, Forall_forall. intros q Hq.
  exists p.1, q.1. split; [done|]. split.
  - by apply (proj1 (Forall_forall _ _) Hkeys).
  - by apply (proj1 (Forall_forall _ _) Hall).
Qed.

Lemma keyed_records_filter TAG s (l : list (string * pyval)) :
  Forall (λ p, tag_of TAG p.2 = Some p.1) l →
  filter (λ record, has_tag TAG s record) l.*2 = (filter (λ p, p.1 = s) l).*2.
Proof.
  induction 1 as [|p l Hp _ IH]; [done|].
  csimpl. rewrite !filter_cons, IH.
  assert (has_tag TAG s p.2 ↔ p.1 = s) as Hiff.
  { unfold has_tag. rewrite Hp, Is_true_true. apply String.eqb_eq. }
  destruct (decide (has_tag TAG s p.2)), (decide (p.1 = s)); try done; tauto.
Qed.

(** What [sorted] returns on records with [str] tags: the same records,
    in ascending order of the tag, those of one tag in their old order. *)
Lemma sorted_records TAG results keys :
  Forall2 (λ record s, tag_of TAG record = Some s) results keys →
  ∃ results',
    sorted (λ k, py_subscript k TAG) results = Ok results' ∧
    results' ≡ₚ results ∧
    StronglySorted (tag_le TAG) results' ∧
    ∀ s, filter (λ record, has_tag TAG s record) results'
         = filter (λ record, has_tag TAG s record) results.
Proof.
  intros Hkeys. eexists. split; [by apply sorted_str|].
  assert (Forall (λ p, tag_of TAG p.2 = Some p.1) (zip keys results)) as Hzip.
  { clear -Hkeys. induction Hkeys; csimpl; by constructor. }
  assert ((zip keys results).*2 = results) as Hsnd.
  { apply snd_zip. by rewrite (Forall2_length _ _ _ Hkeys). }
  assert (Forall (λ p, tag_of TAG p.2 = Some p.1) (sort_str (zip keys results)))
    as Hsorted by by rewrite sort_str_Permutation.
  split; [|split].
  - by rewrite sort_str_Permutation, Hsnd.
  - apply keyed_records_sorted; [done | apply sort_str_sorted].
  - intros s. rewrite (keyed_records_filter TAG), sort_str_stable by done.
    by rewrite <- (keyed_records_filter TAG), Hsnd.
Qed.

Section Sorting.

Context {P : provider}.

(** C7.  The records accumulated for a region, their sort tags being
    [str], are returned by [get_instances] in ascending order of the sort
    tag under string comparison, and the sort is stable: the records of
    one tag value keep the order in which they were appended. *)
Theorem get_instances_sorts fuel region (st : state P) client w results st'
    events keys :
  region ∈ AVAILABLE_REGIONS st.1 →
  boto3_client P region st.2 = (Answer client, w) →
  fetching fuel region client (VStr "") [] (st.1, w)
  = (Ok (Some results), st', events) →
  Forall2 (λ record s, tag_of (TAG_TO_SHOW st.1) record = Some s) results keys →
  ∃ results',
    get_instances fuel region st
    = (Ok (Some results'), st', NewClient region :: events) ∧
    results' ≡ₚ results ∧
    StronglySorted (tag_le (TAG_TO_SHOW st.1)) results' ∧
    ∀ s, filter (λ record, has_tag (TAG_TO_SHOW st.1) s record) results'
         = filter (λ record, has_tag (TAG_TO_SHOW st.1) s record) results.
Proof.
  intros Hregion Hclient Hfetch Hkeys.
  destruct (sorted_records _ _ _ Hkeys) as (results' & Hsorted & Hprops).
  exists results'. split; [|exact Hprops].
  pose proof (fetching_grows _ _ _ _ _ _ _ _ _ Hfetch) as Hgrows.
  unfold on_globals in Hgrows. simpl in Hgrows.
  destruct st as [g w0], st' as [g' w']. simpl in *.
  unfold get_instances.
  rewrite (bind_Ok _ _ _ (AVAILABLE_REGIONS g) (g, w0) []) by done.
  rewrite decide_False by (by intros H; apply H).
  erewrite (bind_Ok (new_client region));
    [|unfold new_client; simpl; by rewrite Hclient].
  cbv beta iota.
  erewrite (bind_Ok (fetching _ _ _ _ _)); [|exact Hfetch].
  cbv beta iota.
  erewrite (bind_Ok (zoom (read TAG_TO_SHOW))); [|done].
  simpl. rewrite (grows_TAG_TO_SHOW _ _ Hgrows).
  unfold bind, lift, ret. rewrite Hsorted. simpl.
  by rewrite !app_nil_r.
Qed.

End Sorting.

Lemma get_instances_sorts_witness :
  ∃ results',
    (get_instances (P:=example_provider) 1 "us-east-1"
       (owner_globals,
        [Answer (page [owned_by "i-1" "b"; owned_by "i-2" "a";
                       owned_by "i-3" "a"] None)])).1.1
    = Ok (Some results') ∧
    results' ≡ₚ [record_of "i-1" "b"; record_of "i-2" "a"; record_of "i-3" "a"] ∧
    StronglySorted (tag_le "Owner") results' ∧
    filter (λ record, has_tag "Owner" "a" record) results'
    = [record_of "i-2" "a"; record_of "i-3" "a"].
Proof.
  destruct (get_instances_sorts (P:=example_provider) 1 "us-east-1"
              (owner_globals,
               [Answer (page [owned_by "i-1" "b"; owned_by "i-2" "a";
                              owned_by "i-3" "a"] None)])
              "us-east-1"
              [Answer (page [owned_by "i-1" "b"; owned_by "i-2" "a";
                             owned_by "i-3" "a"] None)]
              [record_of "i-1" "b"; record_of "i-2" "a"; record_of "i-3" "a"]
              (owner_globals, []) [DescribeInstances (VStr "")]
              ["b"; "a"; "a"])
    as (results' & Hrun & Hperm & Hsorted & Hstable).
  - apply (bool_decide_unpack _). vm_compute. exact I.
  - reflexivity.
  - vm_compute. reflexivity.
  - repeat constructor.
  - exists results'. split; [by rewrite Hrun|]. split; [exact Hperm|].
    split; [exact Hsorted|].
    etrans; [exact (Hstable "a") | vm_compute; reflexivity].
Defined.

(** The records of the tags [b], [a], [a] come out as [a], [a], [b], the
    two [a] in their old order. *)
Example sorted_b_a_a :
  sorted (λ k, py_subscript k "Owner")
         [record_of "i-1" "b"; record_of "i-2" "a"; record_of "i-3" "a"]
  = Ok [record_of "i-2" "a"; record_of "i-3" "a"; record_of "i-1" "b"].
Proof. vm_compute. reflexivity. Qed.

(* ===================================================================== *)
(** * Attribute values that are not text *)
(* ===================================================================== *)

(** C8, where the code departs from it.  The normaliser converts a
    [datetime] to text and takes every other value as it is.  For an
    attribute that is a number, [len] raises [TypeError] and no record is
    returned; for one that is a list, the record is returned with the list
    in it, and the renderer raises [AttributeError] on it. *)
Theorem attribute_values_not_text :
  get_instance_data
    (dict [("AmiLaunchIndex", VInt 0); ("Tags", VList [owner_tag "alice"])])
    launch_index_globals
  = (Raise TypeError, launch_index_globals, []) ∧
  get_instance_data
    (dict [("SecurityGroups", VList [security_group]);
           ("Tags", VList [owner_tag "alice"])])
    security_groups_globals
  = (Ok (dict [("SecurityGroups", VList [security_group]);
               ("Owner", VStr "alice")]),
     security_groups_globals, []) ∧
  print_table
    [dict [("SecurityGroups", VList [security_group]); ("Owner", VStr "alice")]]
    security_groups_globals
  = (Raise AttributeError, security_groups_globals,
     [Print "Owner  SecurityGroups  "; Print "---------------------"]).
Proof. repeat split; vm_compute; reflexivity. Qed.

(* ===================================================================== *)
(** * The pages of a region *)
(* ===================================================================== *)

Lemma bind_assoc {S A B C} (c : M S A) (k1 : A → M S B) (k2 : B → M S C) st :
  bind (bind c k1) k2 st = bind c (λ a, bind (k1 a) k2) st.
Proof.
  unfold bind. destruct (c st) as [[[a| | |] st1] out1]; try done.
  destruct (k1 a st1) as [[[b| | |] st2] out2]; try done.
  destruct (k2 b st2) as [[o st3] out3]. by rewrite app_assoc.
Qed.

Lemma bind_ext {S A B} (c : M S A) (k1 k2 : A → M S B) st :
  (∀ a st', k1 a st' = k2 a st') → bind c k1 st = bind c k2 st.
Proof.
  intros Hk. unfold bind. destruct (c st) as [[[a| | |] st1] out1]; try done.
  by rewrite Hk.
Qed.

Lemma bind_ret_l {S A B} (a : A) (k : A → M S B) st : bind (ret a) k st = k a st.
Proof. unfold bind, ret. by destruct (k a st) as [[o st'] out]. Qed.

Lemma zoom_run {W A} (c : M globals A) g (w : W) o g' out :
  c g = (o, g', out) → zoom c (g, w) = (o, (g', w), out).
Proof. unfold zoom. simpl. by intros ->. Qed.

Lemma for_each_app {S A B} (l1 l2 : list A) (body : A → B → M S B) acc st :
  for_each (l1 ++ l2) body acc st
  = bind (for_each l1 body acc) (λ acc', for_each l2 body acc') st.
Proof.
  revert acc st. induction l1 as [|x l1 IH]; intros acc st; simpl.
  - by rewrite bind_ret_l.
  - rewrite bind_assoc. apply bind_ext. intros acc' st'. apply IH.
Qed.

(** ** Normalising a list of instances *)

Lemma get_instance_data_events instance g record g' out :
  get_instance_data instance g = (Ok record, g', out) → out = [].
Proof.
  intros H. destruct (is_none instance) eqn:Hnone.
  - unfold get_instance_data in H. rewrite Hnone in H. by injection H as <- <- <-.
  - apply get_instance_data_Ok in H as (? & ? & _ & _ & -> & _); [done|].
    by intros ->.
Qed.

Lemma collect_instances_normalised instances results g results' g' out :
  collect_instances instances results g = (Ok results', g', out) →
  ∃ records, normalised g instances records g' ∧
             results' = results ++ records ∧ out = [].
Proof.
  revert results g out. induction instances as [|instance l IH];
    intros results g out H.
  - injection H as <- <- <-. exists []. split; [constructor|].
    by rewrite app_nil_r.
  - unfold collect_instances in H. simpl in H.
    apply bind_Ok_inv in H as (acc & g1 & oa1 & oa2 & Hstep & H & ->).
    apply bind_Ok_inv in Hstep as (record & g2 & ob1 & ob2 & Hdata & Hret & ->).
    injection Hret as <- <- <-.
    pose proof (get_instance_data_events _ _ _ _ _ Hdata) as ->.
    apply IH in H as (records & Hrecords & -> & ->).
    exists (record :: records). split; [by econstructor|].
    by rewrite <- app_assoc.
Qed.

Lemma normalised_collect_instances g instances records g' results :
  normalised g instances records g' →
  collect_instances instances results g = (Ok (results ++ records), g', []).
Proof.
  intros H. revert results.
  induction H as [g|g instance record g1 instances records g' Hdata _ IH];
    intros results.
  - by rewrite app_nil_r.
  - unfold collect_instances. simpl.
    erewrite bind_Ok; [|by erewrite bind_Ok].
    unfold collect_instances in IH. rewrite IH.
    by rewrite <- app_assoc.
Qed.

Lemma normalised_length g instances records g' :
  normalised g instances records g' → length records = length instances.
Proof. induction 1; simpl; by f_equal. Qed.

Lemma normalised_app g instances1 instances2 records g' :
  normalised g (instances1 ++ instances2) records g' →
  ∃ records1 records2 g1,
    normalised g instances1 records1 g1 ∧
    normalised g1 instances2 records2 g' ∧
    records = records1 ++ records2.
Proof.
  revert g records. induction instances1 as [|instance l IH]; intros g records H.
  - exists [], records, g. split; [constructor | done].
  - inversion H as [|? ? record g1 ? records' ? Hdata Hrest]; subst.
    apply IH in Hrest as (records1 & records2 & g2 & H1 & H2 & ->).
    exists (record :: records1), records2, g2.
    split; [by econstructor | done].
Qed.

Lemma normalised_grows g instances records g' :
  normalised g instances records g' → grows g g'.
Proof.
  induction 1 as [|g instance record g1 instances records g' Hdata _ IH];
    [reflexivity|].
  etrans; [|exact IH]. by eapply get_instance_data_grows.
Qed.

(** ** One response *)

Lemma collect_reservation_instances reservation v instances results g :
  py_get reservation "Instances" (VList []) = Ok v →
  py_iter v = Ok instances →
  collect_reservation reservation results g
  = collect_instances instances results g.
Proof.
  intros Hget Hiter. unfold collect_reservation. rewrite Hget.
  unfold bind at 1, lift at 1. unfold bind at 1, lift at 1. rewrite Hiter.
  simpl. by destruct (collect_instances instances results g) as [[o g'] out].
Qed.

Lemma collect_reservations results reservations instances g :
  reservations_instances reservations = Ok instances →
  for_each reservations collect_reservation results g
  = collect_instances instances results g.
Proof.
  revert results instances g.
  induction reservations as [|reservation l IH]; intros results instances g H;
    simpl in H.
  - by injection H as <-.
  - destruct (py_get reservation "Instances" (VList [])) as [v| | |] eqn:Hget;
      try done. simpl in H.
    destruct (py_iter v) as [instances1| | |] eqn:Hiter; try done. simpl in H.
    destruct (reservations_instances l) as [instances2| | |] eqn:Hrest;
      try done. simpl in H.
    injection H as <-. unfold collect_instances at 1. rewrite for_each_app.
    simpl. unfold bind at 1.
    rewrite (collect_reservation_instances _ _ _ _ _ Hget Hiter).
    apply (bind_ext (collect_instances instances1 results)).
    intros results' g1. by apply IH.
Qed.

Lemma collect_response_instances response results instances g :
  response_instances response = Ok instances →
  collect_response response results g = collect_instances instances results g.
Proof.
  unfold response_instances, collect_response.
  destruct (py_get response "Reservations" (VList [])) as [v| | |] eqn:Hget;
    try done. simpl.
  destruct (py_iter v) as [reservations| | |] eqn:Hiter; try done. simpl.
  intros Hinstances.
  rewrite bind_Ok with (a := v) (st1 := g) (out1 := []) by done.
  cbv beta iota. rewrite Hiter.
  rewrite bind_Ok with (a := reservations) (st1 := g) (out1 := []) by done.
  cbv beta iota. simpl.
  rewrite (collect_reservations _ _ _ _ Hinstances).
  by destruct (collect_instances instances results g) as [[o g'] out].
Qed.

Lemma pages_instances_snoc pages last instances :
  pages_instances (pages ++ [last]) = Ok instances →
  ∃ instances1 instances2,
    pages_instances pages = Ok instances1 ∧
    response_instances last = Ok instances2 ∧
    instances = instances1 ++ instances2.
Proof.
  revert instances. induction pages as [|response pages IH]; intros instances H;
    simpl in H.
  - destruct (response_instances last) as [instances2| | |]; try done.
    injection H as <-. exists [], instances2. by rewrite app_nil_r.
  - destruct (response_instances response) as [i1| | |] eqn:Hr; try done.
    simpl in H.
    destruct (pages_instances (pages ++ [last])) as [i2| | |]; try done.
    injection H as <-.
    destruct (IH _ eq_refl) as (instances1 & instances2 & Hp & Hl & ->).
    exists (i1 ++ instances1), instances2. simpl. rewrite Hr, Hp. simpl.
    by rewrite app_assoc.
Qed.

Section Fetching.

Context {P : provider}.

Lemma describe_run (client : Client P) token g w answer w' :
  describe_instances P client token w = (answer, w') →
  describe client token (g, w) = (Ok answer, (g, w'), [DescribeInstances token]).
Proof. unfold describe. simpl. by intros ->. Qed.

(** The turn of the loop for a response that carries a token, the turn for
    one that carries none, and the turn in which the request fails. *)
Lemma fetching_next fuel region (client : Client P) token results g w
    response w1 instances records g1 :
  describe_instances P client token w = (Answer response, w1) →
  is_none (next_token response) = false →
  response_instances response = Ok instances →
  normalised g instances records g1 →
  fetching (S fuel) region client token results (g, w)
  = (let '(o, st, events) :=
       fetching fuel region client (next_token response) (results ++ records)
                (g1, w1) in
     (o, st, DescribeInstances token :: events)).
Proof.
  intros Hdescribe Hnext Hinstances Hrecords. simpl.
  rewrite (bind_Ok _ _ _ _ _ _ (describe_run _ _ g _ _ _ Hdescribe)).
  cbv beta iota.
  erewrite bind_Ok;
    [|apply zoom_run; rewrite (collect_response_instances _ _ _ _ Hinstances);
      by apply normalised_collect_instances].
  assert (py_get response "NextToken" VNone = Ok (next_token response)) as Hget.
  { unfold next_token in *.
    by destruct (py_get response "NextToken" VNone). }
  rewrite Hget. erewrite bind_Ok; [|done]. rewrite Hnext.
  by destruct (fetching _ _ _ _ _ _) as [[o st] events].
Qed.

Lemma fetching_last fuel region (client : Client P) token results g w
    response w1 instances records g1 :
  describe_instances P client token w = (Answer response, w1) →
  next_token response = VNone →
  response_instances response = Ok instances →
  normalised g instances records g1 →
  fetching (S fuel) region client token results (g, w)
  = (Ok (Some (results ++ records)), (g1, w1), [DescribeInstances token]).
Proof.
  intros Hdescribe Hnext Hinstances Hrecords. simpl.
  rewrite (bind_Ok _ _ _ _ _ _ (describe_run _ _ g _ _ _ Hdescribe)).
  cbv beta iota.
  erewrite bind_Ok;
    [|apply zoom_run; rewrite (collect_response_instances _ _ _ _ Hinstances);
      by apply normalised_collect_instances].
  assert (py_get response "NextToken" VNone = Ok VNone) as Hget.
  { unfold response_instances, next_token in *.
    destruct response as [| | | | | |d]; try discriminate. simpl in *.
    destruct (d !! "NextToken"); by subst. }
  rewrite Hget. erewrite bind_Ok; [|done]. done.
Qed.

Lemma fetching_fails fuel region (client : Client P) token results g w
    diagnostic w1 :
  describe_instances P client token w = (Failure diagnostic, w1) →
  fetching (S fuel) region client token results (g, w)
  = (Ok None, (g, w1),
     [DescribeInstances token; page_warning region; Print diagnostic]).
Proof.
  intros Hdescribe. simpl.
  by rewrite (bind_Ok _ _ _ _ _ _ (describe_run _ _ g _ _ _ Hdescribe)).
Qed.

(** The turns for a run of pages that all carry a token. *)
Lemma fetching_served fuel region (client : Client P) token w pages token' w'
    results g instances records g' :
  served client token w pages token' w' →
  pages_instances pages = Ok instances →
  normalised g instances records g' →
  fetching (length pages + fuel) region client token results (g, w)
  = (let '(o, st, events) :=
       fetching fuel region client token' (results ++ records) (g', w') in
     (o, st, (DescribeInstances <$> take (length pages)
                                      (token :: (next_token <$> pages)))
             ++ events)).
Proof.
  intros Hserved. revert results g instances records.
  induction Hserved as [token w|token w response w1 pages token' w' Hdescribe
                                 Hnext _ IH];
    intros results g instances records Hinstances Hrecords.
  - injection Hinstances as <-. inversion Hrecords; subst.
    rewrite app_nil_r. simpl.
    by destruct (fetching _ _ _ _ _ _) as [[o st] events].
  - simpl in Hinstances.
    destruct (response_instances response) as [instances1| | |] eqn:H1;
      try done. simpl in Hinstances.
    destruct (pages_instances pages) as [instances2| | |] eqn:H2; try done.
    injection Hinstances as <-.
    apply normalised_app in Hrecords as (records1 & records2 & g1 & Hr1 & Hr2 & ->).
    change (length (response :: pages) + fuel)%nat
      with (S (length pages + fuel)).
    rewrite (fetching_next _ _ _ _ _ _ _ _ _ _ _ _ Hdescribe Hnext H1 Hr1).
    rewrite (IH _ _ _ _ eq_refl Hr2). rewrite <- app_assoc.
    by destruct (fetching _ _ _ _ _ _) as [[o st] events].
Qed.

Lemma served_requests (client : Client P) token w pages token' w' :
  served client token w pages token' w' →
  take (length pages) (token :: (next_token <$> pages)) ++ [token']
  = token :: (next_token <$> pages).
Proof.
  induction 1 as [|token w response w1 pages token' w' _ _ _ IH]; [done|].
  simpl. f_equal. exact IH.
Qed.

(** C3.  When the provider, asked the empty token, answers a finite
    sequence of pages of which each but the last carries a continuation
    token, the loop asks for the first page with the empty string and for
    each later page with the token of the page before, makes one request
    per page and none after the page without a token, and ends, for any
    fuel larger than the number of pages; what it has accumulated is the
    list of the records of the instances of all the pages, in the order
    of the pages, one record per instance. *)
Theorem fetching_collects_all_pages fuel region (client : Client P) g w
    pages token w1 last w' instances records g' :
  served client (VStr "") w pages token w1 →
  describe_instances P client token w1 = (Answer last, w') →
  next_token last = VNone →
  pages_instances (pages ++ [last]) = Ok instances →
  normalised g instances records g' →
  (length pages < fuel)%nat →
  fetching fuel region client (VStr "") [] (g, w)
  = (Ok (Some records), (g', w'),
     DescribeInstances <$> (VStr "" :: (next_token <$> pages))) ∧
  length records = length instances.
Proof.
  intros Hserved Hdescribe Hnext Hinstances Hrecords Hfuel.
  split; [|by eapply normalised_length].
  apply pages_instances_snoc in Hinstances
    as (instances1 & instances2 & H1 & H2 & ->).
  apply normalised_app in Hrecords as (records1 & records2 & g1 & Hr1 & Hr2 & ->).
  replace fuel with (length pages + S (fuel - length pages - 1))%nat by lia.
  rewrite (fetching_served _ _ _ _ _ _ _ _ _ _ _ _ _ Hserved H1 Hr1).
  rewrite (fetching_last _ _ _ _ _ _ _ _ _ _ _ _ Hdescribe Hnext H2 Hr2).
  rewrite app_nil_l. f_equal.
  change [DescribeInstances token] with (DescribeInstances <$> [token]).
  rewrite <- fmap_app. f_equal. by eapply served_requests.
Qed.

End Fetching.

Lemma fetching_collects_all_pages_witness :
  fetching (P:=example_provider) 2 "us-east-1" "us-east-1" (VStr "") []
    (owner_globals,
     [Answer (page [owned_by "i-1" "b"] (Some "t1"));
      Answer (page [owned_by "i-2" "a"; owned_by "i-3" "a"] None)])
  = (Ok (Some [record_of "i-1" "b"; record_of "i-2" "a"; record_of "i-3" "a"]),
     (owner_globals, []),
     [DescribeInstances (VStr ""); DescribeInstances (VStr "t1")]).
Proof.
  refine (proj1 (fetching_collects_all_pages (P:=example_provider)
            2 "us-east-1" "us-east-1" owner_globals
            [Answer (page [owned_by "i-1" "b"] (Some "t1"));
             Answer (page [owned_by "i-2" "a"; owned_by "i-3" "a"] None)]
            [page [owned_by "i-1" "b"] (Some "t1")]
            (VStr "t1")
            [Answer (page [owned_by "i-2" "a"; owned_by "i-3" "a"] None)]
            (page [owned_by "i-2" "a"; owned_by "i-3" "a"] None)
            []
            [owned_by "i-1" "b"; owned_by "i-2" "a"; owned_by "i-3" "a"]
            [record_of "i-1" "b"; record_of "i-2" "a"; record_of "i-3" "a"]
            owner_globals _ _ _ _ _ _)).
  - eapply served_cons; [reflexivity | reflexivity | apply served_nil].
  - reflexivity.
  - reflexivity.
  - reflexivity.
  - repeat (eapply normalised_cons; [vm_compute; reflexivity|]).
    apply normalised_nil.
  - simpl. lia.
Defined.

(** The loop goes on for any token other than [None], the empty string
    included: after a response whose token is the empty string it asks
    again with the empty string. *)
Example empty_token_continues :
  fetching (P:=example_provider) 2 "us-east-1" "us-east-1" (VStr "") []
    (owner_globals,
     [Answer (page [owned_by "i-1" "b"] (Some ""));
      Answer (page [owned_by "i-2" "a"] None)])
  = (Ok (Some [record_of "i-1" "b"; record_of "i-2" "a"]),
     (owner_globals, []),
     [DescribeInstances (VStr ""); DescribeInstances (VStr "")]).
Proof. vm_compute. reflexivity. Qed.

(** Without fuel for the last page the model has no result. *)
Example one_turn_is_not_enough :
  (fetching (P:=example_provider) 1 "us-east-1" "us-east-1" (VStr "") []
     (owner_globals,
      [Answer (page [owned_by "i-1" "b"] (Some "t1"));
       Answer (page [owned_by "i-2" "a"] None)])).1.1
  = OutOfFuel.
Proof. vm_compute. reflexivity. Qed.

(* ===================================================================== *)
(** * A region that fails *)
(* ===================================================================== *)

Section Failures.

Context {P : provider}.

Lemma get_instances_not_available fuel region (st : state P) :
  region ∉ AVAILABLE_REGIONS st.1 →
  get_instances fuel region st = (Ok None, st, [not_available_warning region]).
Proof.
  intros Hregion. destruct st as [g w]. unfold get_instances.
  rewrite (bind_Ok _ _ _ (AVAILABLE_REGIONS g) (g, w) []) by done.
  by rewrite decide_True.
Qed.

Lemma get_instances_client (fuel : nat) region (st : state P) answer w :
  region ∈ AVAILABLE_REGIONS st.1 →
  boto3_client P region st.2 = (answer, w) →
  get_instances fuel region st
  = (let '(o, st', events) :=
       match answer with
       | Failure diagnostic =>
           (Ok None, (st.1, w), [client_warning region; Print diagnostic])
       | Answer client =>
           (results <~ fetching fuel region client (VStr "") [] ;;
            match results with
            | None => ret None
            | Some results =>
                TAG <~ zoom (read TAG_TO_SHOW) ;;
                results <~ lift (sorted (λ k, py_subscript k TAG) results) ;;
                ret (Some results)
            end) (st.1, w)
       end in
     (o, st', NewClient region :: events)).
Proof.
  intros Hregion Hclient. destruct st as [g w0]. unfold get_instances.
  rewrite (bind_Ok _ _ _ (AVAILABLE_REGIONS g) (g, w0) []) by done.
  rewrite decide_False by (by intros H; apply H).
  erewrite (bind_Ok (new_client region));
    [|unfold new_client; simpl in *; by rewrite Hclient].
  simpl. destruct answer as [client|diagnostic]; [|done].
  by destruct (bind (fetching fuel region client (VStr "") []) _ (g, w))
    as [[o st'] events].
Qed.

(** A region without records prints the banner and what [get_instances]
    printed, and the loop goes on to the next region. *)
Lemma report_None fuel region (st st' : state P) events :
  get_instances fuel region st = (Ok None, st', events) →
  report fuel region tt st = (Ok tt, st', banner region ++ events).
Proof.
  intros Hrun. unfold report.
  erewrite bind_Ok; [|done]. erewrite bind_Ok; [|done].
  erewrite bind_Ok; [|exact Hrun]. simpl. by rewrite app_nil_r.
Qed.

(** C4.  A region that is not in the set of available regions, a region
    for which no client can be built, and a region in which the request
    for a page fails after any number of pages have been fetched and
    normalised, each make [get_instances] return [None] after a warning,
    whatever was accumulated being dropped; for a region that returned
    [None] the report is the banner and those warnings, with no count and
    no table, and the loop goes on with the regions that follow. *)
Theorem region_failures_are_skipped fuel region (st : state P) :
  (region ∉ AVAILABLE_REGIONS st.1 →
   get_instances fuel region st
   = (Ok None, st, [not_available_warning region])) ∧
  (∀ diagnostic w,
     region ∈ AVAILABLE_REGIONS st.1 →
     boto3_client P region st.2 = (Failure diagnostic, w) →
     get_instances fuel region st
     = (Ok None, (st.1, w),
        [NewClient region; client_warning region; Print diagnostic])) ∧
  (∀ client w pages token w1 diagnostic w' instances records g',
     region ∈ AVAILABLE_REGIONS st.1 →
     boto3_client P region st.2 = (Answer client, w) →
     served client (VStr "") w pages token w1 →
     describe_instances P client token w1 = (Failure diagnostic, w') →
     pages_instances pages = Ok instances →
     normalised st.1 instances records g' →
     (length pages < fuel)%nat →
     get_instances fuel region st
     = (Ok None, (g', w'),
        NewClient region
        :: (DescribeInstances <$> (VStr "" :: (next_token <$> pages)))
        ++ [page_warning region; Print diagnostic])) ∧
  (∀ st' events regions,
     get_instances fuel region st = (Ok None, st', events) →
     for_each (region :: regions) (report fuel) tt st
     = (let '(o, st'', events') := for_each regions (report fuel) tt st' in
        (o, st'', banner region ++ events ++ events'))).
Proof.
  split; [apply get_instances_not_available|]. split; [|split].
  - intros diagnostic w Hregion Hclient.
    by rewrite (get_instances_client _ _ _ _ _ Hregion Hclient).
  - intros client w pages token w1 diagnostic w' instances records g'
      Hregion Hclient Hserved Hdescribe Hinstances Hrecords Hfuel.
    rewrite (get_instances_client _ _ _ _ _ Hregion Hclient).
    replace fuel with (length pages + S (fuel - length pages - 1))%nat by lia.
    erewrite bind_Ok.
    2:{ rewrite (fetching_served _ _ _ _ _ _ _ _ _ _ _ _ _ Hserved Hinstances
                   Hrecords).
        by rewrite (fetching_fails _ _ _ _ _ _ _ _ _ Hdescribe). }
    simpl. rewrite app_nil_r. do 2 f_equal.
    change [DescribeInstances token; page_warning region; Print diagnostic]
      with ((DescribeInstances <$> [token])
            ++ [page_warning region; Print diagnostic]).
    by rewrite app_assoc, <- fmap_app, (served_requests _ _ _ _ _ _ Hserved).
  - intros st' events regions Hrun. simpl.
    rewrite (bind_Ok _ _ _ _ _ _ (report_None _ _ _ _ _ Hrun)).
    destruct (for_each regions (report fuel) tt st') as [[o st''] events'].
    by rewrite <- app_assoc.
Qed.

End Failures.

Lemma region_failures_are_skipped_witness :
  for_each (S:=state example_provider) ["moon"; "eu-west-1"; "us-east-1"]
    (report 2) tt
    (owner_globals,
     [Answer (page [owned_by "i-1" "b"] (Some "t1"));
      Failure "RequestLimitExceeded"])
  = (Ok tt, (owner_globals, []),
     banner "moon" ++ [not_available_warning "moon"]
     ++ banner "eu-west-1"
     ++ [NewClient "eu-west-1"; client_warning "eu-west-1";
         Print "Could not connect to eu-west-1"]
     ++ banner "us-east-1"
     ++ [NewClient "us-east-1"; DescribeInstances (VStr "");
         DescribeInstances (VStr "t1"); page_warning "us-east-1";
         Print "RequestLimitExceeded"]).
Proof.
  set (w := [Answer (page [owned_by "i-1" "b"] (Some "t1"));
             Failure "RequestLimitExceeded"]).
  destruct (region_failures_are_skipped (P:=example_provider) 2 "moon"
              (owner_globals, w)) as (Hmoon & _ & _ & Hnext).
  rewrite (Hnext _ _ _ (Hmoon ltac:(apply (bool_decide_unpack _); vm_compute;
                                    exact I))).
  clear Hmoon Hnext.
  destruct (region_failures_are_skipped (P:=example_provider) 2 "eu-west-1"
              (owner_globals, w)) as (_ & Hwest & _ & Hnext).
  rewrite (Hnext _ _ _ (Hwest "Could not connect to eu-west-1" w
                          ltac:(apply (bool_decide_unpack _); vm_compute;
                                exact I)
                          eq_refl)).
  clear Hwest Hnext.
  destruct (region_failures_are_skipped (P:=example_provider) 2 "us-east-1"
              (owner_globals, w)) as (_ & _ & Heast & Hnext).
  rewrite (Hnext _ _ _
             (Heast "us-east-1" w [page [owned_by "i-1" "b"] (Some "t1")]
                (VStr "t1") [Failure "RequestLimitExceeded"]
                "RequestLimitExceeded" [] [owned_by "i-1" "b"]
                [record_of "i-1" "b"] owner_globals
                ltac:(apply (bool_decide_unpack _); vm_compute; exact I)
                eq_refl
                ltac:(eapply served_cons;
                      [reflexivity | reflexivity | apply served_nil])
                eq_refl eq_refl
                ltac:(eapply normalised_cons;
                      [vm_compute; reflexivity | apply normalised_nil])
                ltac:(simpl; lia))).
  reflexivity.
Defined.

(* ===================================================================== *)
(** * A region of textual instances, from the request to the sorted list *)
(* ===================================================================== *)

Lemma grows_textual_instance g g' instance :
  grows g g' → textual_instance g instance → textual_instance g' instance.
Proof.
  intros Hgrows (Hdict & Htext & Htags). split; [done|]. split; [|done].
  intros attribute value. rewrite (grows_ATTRIBUTES_TO_SHOW _ _ Hgrows).
  apply Htext.
Qed.

Lemma grows_record_keys_tracked g g' :
  grows g g' → record_keys_tracked g → record_keys_tracked g'.
Proof.
  intros Hgrows Htracked column.
  rewrite (grows_TAG_TO_SHOW _ _ Hgrows), (grows_ATTRIBUTES_TO_SHOW _ _ Hgrows).
  intros Hcolumn%Htracked.
  apply elem_of_dom. rewrite (grows_dom _ _ Hgrows). by apply elem_of_dom.
Qed.

(** Textual instances all normalise, to records whose sort tag is text. *)
Lemma normalised_total g instances :
  Forall (textual_instance g) instances →
  record_keys_tracked g →
  ∃ records keys g',
    normalised g instances records g' ∧
    Forall2 (λ record s, tag_of (TAG_TO_SHOW g) record = Some s) records keys.
Proof.
  intros Hinstances. revert g Hinstances.
  induction instances as [|instance l IH]; intros g Hinstances Htracked.
  - exists [], [], g. split; constructor.
  - apply Forall_cons in Hinstances as [Hinstance Hl].
    destruct (get_instance_data_total g instance Hinstance Htracked)
      as (item & g1 & s & Hrun & Hs).
    pose proof (get_instance_data_grows _ _ _ _ _ Hrun) as Hgrows.
    destruct (IH g1) as (records & keys & g' & Hrecords & Hkeys).
    { eapply Forall_impl; [exact Hl|]. intros ?. by apply grows_textual_instance. }
    { by eapply grows_record_keys_tracked. }
    exists (VDict item :: records), (s :: keys), g'.
    split; [by econstructor|]. constructor.
    + unfold tag_of. simpl. by rewrite Hs.
    + by rewrite <- (grows_TAG_TO_SHOW _ _ Hgrows).
Qed.

Section Region.

Context {P : provider}.

(** X16.  The collector is total on a region whose provider serves a
    finite sequence of pages of textual instances: for any fuel larger
    than the number of pages it returns one record per instance, the
    records sorted by the tag, after one request per page; the
    configuration is left as it was and no width has shrunk. *)
Corollary get_instances_textual fuel region (st : state P) client w
    pages token w1 last w' instances :
  region ∈ AVAILABLE_REGIONS st.1 →
  boto3_client P region st.2 = (Answer client, w) →
  served client (VStr "") w pages token w1 →
  describe_instances P client token w1 = (Answer last, w') →
  next_token last = VNone →
  pages_instances (pages ++ [last]) = Ok instances →
  Forall (textual_instance st.1) instances →
  record_keys_tracked st.1 →
  (length pages < fuel)%nat →
  ∃ records g',
    get_instances fuel region st
    = (Ok (Some records), (g', w'),
       NewClient region
       :: (DescribeInstances <$> (VStr "" :: (next_token <$> pages)))) ∧
    length records = length instances ∧
    StronglySorted (tag_le (TAG_TO_SHOW st.1)) records ∧
    grows st.1 g'.
Proof.
  intros Hregion Hclient Hserved Hdescribe Hnext Hinstances Htextual Htracked
    Hfuel.
  destruct (normalised_total _ _ Htextual Htracked)
    as (records & keys & g' & Hrecords & Hkeys).
  pose proof (normalised_grows _ _ _ _ Hrecords) as Hgrows.
  pose proof (normalised_length _ _ _ _ Hrecords) as Hlength.
  destruct (sorted_records _ _ _ Hkeys) as (records' & Hsorted & Hperm & Hord & _).
  exists records', g'.
  split; [|split; [by rewrite Hperm | by split]].
  rewrite (get_instances_client _ _ _ _ _ Hregion Hclient).
  apply pages_instances_snoc in Hinstances
    as (instances1 & instances2 & H1 & H2 & ->).
  apply normalised_app in Hrecords as (records1 & records2 & g1 & Hr1 & Hr2 & ->).
  erewrite bind_Ok.
  2:{ replace fuel with (length pages + S (fuel - length pages - 1))%nat by lia.
      rewrite (fetching_served _ _ _ _ _ _ _ _ _ _ _ _ _ Hserved H1 Hr1).
      rewrite (fetching_last _ _ _ _ _ _ _ _ _ _ _ _ Hdescribe Hnext H2 Hr2).
      rewrite app_nil_l. reflexivity. }
  cbv beta iota.
  erewrite (bind_Ok (zoom (read TAG_TO_SHOW))); [|done].
  simpl. rewrite (grows_TAG_TO_SHOW _ _ Hgrows).
  unfold bind, lift, ret. rewrite Hsorted. simpl. rewrite !app_nil_r.
  do 2 f_equal.
  change [DescribeInstances token] with (DescribeInstances <$> [token]).
  rewrite <- fmap_app, (served_requests _ _ _ _ _ _ Hserved). done.
Qed.

End Region.

(* ===================================================================== *)
(** * The lists given on the command line *)
(* ===================================================================== *)

Lemma split_not_empty sep s : split sep s ≠ [].
Proof.
  induction s as [|c s IH]; simpl; [done|].
  destruct (Ascii.eqb c sep); [done|]. by destruct (split sep s).
Qed.

Lemma split_length sep s : (1 ≤ length (split sep s))%nat.
Proof.
  pose proof (split_not_empty sep s). destruct (split sep s); [done|].
  simpl. lia.
Qed.

Lemma init_attributes_given ARGS given g :
  attributes ARGS = Some given →
  init_attributes ARGS g
  = (Ok tt, set_ATTRIBUTES_TO_SHOW (split comma given) g, []).
Proof.
  intros Hgiven. unfold init_attributes. rewrite Hgiven.
  cbv [bind write read]. simpl.
  pose proof (split_length comma given).
  rewrite decide_False by lia. done.
Qed.

Lemma init_attributes_Ok ARGS g :
  ∃ attrs, init_attributes ARGS g = (Ok tt, set_ATTRIBUTES_TO_SHOW attrs g, []).
Proof.
  destruct (attributes ARGS) as [given|] eqn:Hgiven.
  - eexists. by apply init_attributes_given.
  - eexists. unfold init_attributes. rewrite Hgiven. vm_compute. reflexivity.
Qed.

Lemma init_tag_Ok ARGS g :
  ∃ TAG, init_tag ARGS g = (Ok tt, set_TAG_TO_SHOW TAG g, []).
Proof. unfold init_tag. destruct (tag ARGS); by eexists. Qed.

Section CommandLine.

Context {P : provider}.

Lemma init_regions_given ARGS given g (w : World P) :
  regions ARGS = Some given →
  init_regions ARGS (g, w)
  = (if decide (get_available_regions P w = [])
     then (SysExit 1, (set_AVAILABLE_REGIONS [] g, w),
           [Print "ERROR: No available regions were returned."])
     else (Ok tt,
           (set_REGIONS (split comma given)
              (set_AVAILABLE_REGIONS (get_available_regions P w) g), w),
           [])).
Proof.
  intros Hgiven. unfold init_regions. rewrite Hgiven.
  cbv [bind zoom write read]. simpl.
  destruct (get_available_regions P w) as [|region l]; simpl; [done|].
  rewrite decide_False by lia. simpl.
  pose proof (split_length comma given).
  rewrite decide_False by lia. done.
Qed.

(** C10.  Splitting a string at the commas gives at least one piece, the
    empty string itself giving the one piece [""].  So with [--regions]
    given, [init_regions] never prints "List of regions is empty.", and
    with [--attributes] given [init_attributes] succeeds; and a run with
    an empty [--regions] processes the one region [""], which is not an
    available region, and ends normally after the warning. *)
Theorem given_lists_are_not_empty :
  (∀ s, (1 ≤ length (split comma s))%nat) ∧
  split comma "" = [""] ∧
  (∀ ARGS given (st : state P) o st' out,
     regions ARGS = Some given →
     init_regions ARGS st = (o, st', out) →
     (Print "ERROR: List of regions is empty." ∉ out) ∧
     (get_available_regions P st.2 ≠ [] →
      o = Ok tt ∧ REGIONS st'.1 = split comma given)) ∧
  (∀ ARGS given g,
     attributes ARGS = Some given →
     init_attributes ARGS g
     = (Ok tt, set_ATTRIBUTES_TO_SHOW (split comma given) g, [])) ∧
  (∀ fuel ARGS (w : World P),
     regions ARGS = Some "" →
     get_available_regions P w ≠ [] →
     "" ∉ get_available_regions P w →
     ∃ g',
       main fuel ARGS (initial_globals, w)
       = (Ok tt, (g', w), banner "" ++ [not_available_warning ""]) ∧
       REGIONS g' = [""]).
Proof.
  split; [apply split_length|]. split; [done|]. split; [|split].
  - intros ARGS given [g w] o st' out Hgiven.
    rewrite (init_regions_given _ _ _ _ Hgiven). simpl.
    case_decide as Hnone; intros [= <- <- <-].
    + split; [|done]. intros Hin%list_elem_of_singleton. discriminate.
    + split; [by intros ?%elem_of_nil | done].
  - apply init_attributes_given.
  - intros fuel ARGS w Hgiven Hsome Hnot.
    destruct (init_tag_Ok ARGS
                (set_REGIONS (split comma "")
                   (set_AVAILABLE_REGIONS (get_available_regions P w)
                      initial_globals))) as [TAG Htag].
    destruct (init_attributes_Ok ARGS
                (set_TAG_TO_SHOW TAG
                   (set_REGIONS (split comma "")
                      (set_AVAILABLE_REGIONS (get_available_regions P w)
                         initial_globals)))) as [attrs Hattrs].
    eexists. unfold main.
    erewrite bind_Ok;
      [|rewrite (init_regions_given _ _ _ _ Hgiven); by rewrite decide_False].
    erewrite bind_Ok; [|apply zoom_run, Htag].
    erewrite bind_Ok; [|apply zoom_run, Hattrs].
    erewrite bind_Ok; [|apply zoom_run, init_columns_Ok].
    erewrite bind_Ok; [|by apply zoom_run].
    simpl.
    erewrite bind_Ok;
      [|by apply report_None, get_instances_not_available].
    split; reflexivity.
Qed.

End CommandLine.

Lemma given_lists_are_not_empty_witness :
  ∃ g',
    main (P:=example_provider) 0
      {| regions := Some ""; tag := None; attributes := Some "" |}
      (initial_globals, [])
    = (Ok tt, (g', []),
       banner "" ++ [not_available_warning ""]) ∧
    REGIONS g' = [""].
Proof.
  destruct (given_lists_are_not_empty (P:=example_provider))
    as (_ & _ & _ & _ & Hmain).
  apply (Hmain 0%nat {| regions := Some ""; tag := None; attributes := Some "" |}
           []).
  - reflexivity.
  - discriminate.
  - apply (bool_decide_unpack _). vm_compute. exact I.
Defined.

(** The initialisation of that run: the one region [""] and the one
    attribute [""]. *)
Example empty_lists_resolved :
  ∃ g' : globals,
    (main (P:=example_provider) 0
       {| regions := Some ""; tag := None; attributes := Some "" |}
       (initial_globals, [])).1.2 = (g', []) ∧
    REGIONS g' = [""] ∧ ATTRIBUTES_TO_SHOW g' = [""] ∧
    COLUMNS g' = ["Owner"; ""].
Proof. eexists. split; [vm_compute; reflexivity|]. by vm_compute. Qed.

(* ===================================================================== *)
(** * Whole runs *)
(* ===================================================================== *)

(** The globals of the examples above are those a run reaches: with
    [--attributes InstanceId] on the provider with two regions, of which
    the first has no instance (the count is printed, and no table) and the
    second refuses the client. *)
Example run_reaches_owner_globals :
  main (P:=example_provider) 1
    {| regions := None; tag := None; attributes := Some "InstanceId" |}
    (initial_globals, [Answer (page [] None)])
  = (Ok tt, (owner_globals, []),
     banner "us-east-1"
     ++ [NewClient "us-east-1"; DescribeInstances (VStr "");
         Print "Instances: 0"]
     ++ banner "eu-west-1"
     ++ [NewClient "eu-west-1"; client_warning "eu-west-1";
         Print "Could not connect to eu-west-1"]).
Proof. vm_compute. reflexivity. Qed.

Example run_reaches_table_globals :
  main (P:=one_region) 1
    {| regions := None; tag := None; attributes := Some "InstanceId" |}
    (initial_globals, [Answer (page [owned_by "i-123" "charlie"] None)])
  = (Ok tt, (table_globals, []),
     banner "us-east-1"
     ++ [NewClient "us-east-1"; DescribeInstances (VStr "");
         Print "Instances: 1";
         Print "Owner    InstanceId  ";
         Print "-------------------";
         Print "charlie  i-123       "]).
Proof. vm_compute. reflexivity. Qed.

(** With the default attributes, a launch time is printed as its
    [ctime()] and an [Owner] tag without a value as ["(no value key)"]. *)
Example run_with_default_attributes :
  (main (P:=one_region) 1
     {| regions := None; tag := None; attributes := None |}
     (initial_globals, [Answer (page [unowned_instance] None)])).2
  = banner "us-east-1"
    ++ [NewClient "us-east-1"; DescribeInstances (VStr "");
        Print "Instances: 1";
        Print "Owner           InstanceId  InstanceType  LaunchTime                ";
        Print (str_mul "-" 66);
        Print "(no value key)  i-123       t2.micro      Mon Jan  1 00:00:00 2018  "].
Proof. vm_compute. reflexivity. Qed.

(** With [--tag Owner --attributes Owner] both columns show the tag. *)
Example run_with_tag_as_attribute :
  (main (P:=one_region) 1
     {| regions := None; tag := Some "Owner"; attributes := Some "Owner" |}
     (initial_globals,
      [Answer (page [dict [("Tags", VList [owner_tag "bob"])]] None)])).2
  = banner "us-east-1"
    ++ [NewClient "us-east-1"; DescribeInstances (VStr "");
        Print "Instances: 1";
        Print "Owner               Owner               ";
        Print (str_mul "-" 38);
        Print "bob                 bob                 "].
Proof. vm_compute. reflexivity. Qed.

(** With [--attributes AmiLaunchIndex] the first instance ends the run
    with an uncaught [TypeError], before anything is printed for the
    region but its banner. *)
Example run_with_number_attribute :
  main (P:=one_region) 1
    {| regions := None; tag := None; attributes := Some "AmiLaunchIndex" |}
    (initial_globals,
     [Answer (page [dict [("AmiLaunchIndex", VInt 0);
                          ("Tags", VList [owner_tag "alice"])]] None)])
  = (Raise TypeError, (launch_index_globals, []),
     banner "us-east-1"
     ++ [NewClient "us-east-1"; DescribeInstances (VStr "")]).
Proof. vm_compute. reflexivity. Qed.

(* ===================================================================== *)
(** * The widths a normalisation leaves *)
(* ===================================================================== *)

Lemma has_length_py_len value :
  has_length value → py_len value = Ok (length_of value).
Proof. unfold length_of. by destruct value. Qed.

Lemma py_len_has_length value n :
  py_len value = Ok n → has_length value ∧ length_of value = n.
Proof. unfold length_of. destruct value; try done; by intros [= <-]. Qed.

Lemma set_COLUMN_WIDTHS_same g : set_COLUMN_WIDTHS (COLUMN_WIDTHS g) g = g.
Proof. by destruct g. Qed.

Lemma widen_lookup column n widths c :
  widen column n widths !! c
  = (λ width, if decide (c = column) then Z.max width n else width)
      <$> widths !! c.
Proof.
  unfold widen.
  destruct (decide (c = column)) as [->|Hne];
    destruct (widths !! column) as [width|] eqn:Hwidth; try case_decide;
    rewrite ?lookup_insert_eq, ?lookup_insert_ne, ?Hwidth by done; simpl;
    try (f_equal; lia); by destruct (widths !! c).
Qed.

Lemma widen_tracked column n widths c :
  is_Some (widen column n widths !! c) ↔ is_Some (widths !! c).
Proof. rewrite widen_lookup. apply fmap_is_Some. Qed.

Lemma attributes_widths_snoc m attributes attribute widths :
  attributes_widths m (attributes ++ [attribute]) widths
  = widen attribute (length_of (attribute_value m attribute))
          (attributes_widths m attributes widths).
Proof. unfold attributes_widths. by rewrite foldl_app. Qed.

Lemma attributes_widths_lookup m attributes widths c :
  attributes_widths m attributes widths !! c
  = (λ width, if decide (c ∈ attributes)
              then Z.max width (length_of (attribute_value m c)) else width)
      <$> widths !! c.
Proof.
  induction attributes as [|a l IH] using rev_ind.
  - unfold attributes_widths. simpl. by destruct (widths !! c).
  - rewrite attributes_widths_snoc, widen_lookup, IH.
    destruct (widths !! c) as [width|]; simpl; [|done]. f_equal.
    assert (c ∈ l ++ [a] ↔ c ∈ l ∨ c = a) as Hin
      by by rewrite elem_of_app, list_elem_of_singleton.
    destruct (decide (c = a)) as [Heq|Hne]; destruct (decide (c ∈ l));
      destruct (decide (c ∈ l ++ [a])); subst; try lia; tauto.
Qed.

Lemma attributes_widths_tracked m attributes widths c :
  is_Some (attributes_widths m attributes widths !! c) ↔ is_Some (widths !! c).
Proof. rewrite attributes_widths_lookup. apply fmap_is_Some. Qed.

(** ** The run of the normaliser, step by step *)

Lemma update_width_run {A} column n (a : A) g :
  is_Some (COLUMN_WIDTHS g !! column) →
  (width <~ get_width column ;;
   (if decide (n > width) then set_width column n else ret tt) ;;;
   ret a) g
  = (Ok a, set_COLUMN_WIDTHS (widen column n (COLUMN_WIDTHS g)) g, []).
Proof.
  intros [width Hwidth].
  cbv [bind get_width read set_width write ret fail widen]. rewrite Hwidth.
  simpl. case_decide; simpl; [done|]. by rewrite set_COLUMN_WIDTHS_same.
Qed.

Lemma get_attribute_run m attribute item g :
  has_length (attribute_value m attribute) →
  is_Some (COLUMN_WIDTHS g !! attribute) →
  get_attribute (VDict m) attribute item g
  = (Ok (<[attribute := attribute_value m attribute]> item),
     set_COLUMN_WIDTHS
       (widen attribute (length_of (attribute_value m attribute))
              (COLUMN_WIDTHS g)) g,
     []).
Proof.
  intros Hlength Htracked. unfold get_attribute.
  assert (py_get (VDict m) attribute (VStr "(no attribute key)")
          = Ok (default (VStr "(no attribute key)") (m !! attribute))) as Hget.
  { simpl. by destruct (m !! attribute). }
  rewrite Hget. erewrite bind_Ok; [|done]. cbv beta iota zeta.
  set (value := default (VStr "(no attribute key)") (m !! attribute)).
  assert (match value with VDatetime ctime => VStr ctime | _ => value end
          = attribute_value m attribute) as ->.
  { unfold attribute_value, value. destruct (m !! attribute) as [[]|]; done. }
  rewrite (has_length_py_len _ Hlength). erewrite bind_Ok; [|done].
  cbv beta iota. by rewrite update_width_run.
Qed.

Lemma attributes_loop_run m attributes item g :
  (∀ attribute, attribute ∈ attributes →
     has_length (attribute_value m attribute)) →
  (∀ attribute, attribute ∈ attributes →
     is_Some (COLUMN_WIDTHS g !! attribute)) →
  for_each attributes (get_attribute (VDict m)) item g
  = (Ok (attributes_item m attributes item),
     set_COLUMN_WIDTHS (attributes_widths m attributes (COLUMN_WIDTHS g)) g,
     []).
Proof.
  revert item g.
  induction attributes as [|a l IH]; intros item g Hlength Htracked.
  - unfold attributes_widths. simpl. by rewrite set_COLUMN_WIDTHS_same.
  - simpl. erewrite bind_Ok.
    2:{ apply get_attribute_run; [apply Hlength | apply Htracked]; by left. }
    rewrite IH.
    + by destruct g.
    + intros attribute Hin. apply Hlength. by right.
    + intros attribute Hin. simpl. apply widen_tracked, Htracked. by right.
Qed.

Lemma record_item_sort_tag g m tags :
  record_item g m tags !! TAG_TO_SHOW g = Some (sort_tag_value g m tags).
Proof.
  unfold sort_tag_value, record_item. rewrite with_unknown_lookup.
  by destruct (tags_item _ _ _ !! TAG_TO_SHOW g) as [[]|].
Qed.

(** On a normalisable instance, with the widths of its keys tracked, the
    normaliser returns the record and leaves the widths raised, one column
    after the other. *)
Lemma get_instance_data_run g m tags :
  instance_tags (VDict m) = Ok tags →
  Forall is_dict tags →
  (∀ attribute, attribute ∈ ATTRIBUTES_TO_SHOW g →
     has_length (attribute_value m attribute)) →
  has_length (sort_tag_value g m tags) →
  record_keys_tracked g →
  get_instance_data (VDict m) g
  = (Ok (VDict (record_item g m tags)),
     set_COLUMN_WIDTHS (record_widths g m tags) g, []).
Proof.
  intros Htags Hdicts Hlength Htag Htracked.
  assert (∃ tags0, py_get (VDict m) "Tags" (VList []) = Ok tags0 ∧
                   py_iter tags0 = Ok tags) as (tags0 & Hget & Hiter).
  { unfold instance_tags in Htags.
    destruct (py_get (VDict m) "Tags" (VList [])) as [tags0| | |]; try done.
    by exists tags0. }
  unfold get_instance_data. cbn [is_none].
  erewrite bind_Ok; [|done].
  erewrite bind_Ok.
  2:{ apply attributes_loop_run; [done|].
      intros attribute Hin. apply Htracked. by right. }
  rewrite Hget. erewrite bind_Ok; [|done].
  rewrite Hiter. erewrite bind_Ok; [|done].
  erewrite bind_Ok; [|by apply tags_loop_total].
  erewrite bind_Ok; [|done].
  cbn [TAG_TO_SHOW set_COLUMN_WIDTHS].
  fold (with_unknown (TAG_TO_SHOW g)
          (tags_item (TAG_TO_SHOW g) tags
             (attributes_item m (ATTRIBUTES_TO_SHOW g) ∅))).
  fold (record_item g m tags).
  erewrite bind_Ok;
    [|by unfold lift, py_subscript; rewrite record_item_sort_tag].
  rewrite (has_length_py_len _ Htag). erewrite bind_Ok; [|done].
  cbv beta iota. rewrite update_width_run.
  - unfold record_widths. by destruct g.
  - simpl. apply attributes_widths_tracked, Htracked. by left.
Qed.

(** ** What a returned record tells of the instance *)

Lemma get_attribute_inv m attribute item g item' g' out :
  get_attribute (VDict m) attribute item g = (Ok item', g', out) →
  has_length (attribute_value m attribute) ∧
  is_Some (COLUMN_WIDTHS g !! attribute).
Proof.
  unfold get_attribute. intros H.
  apply bind_Ok_inv in H as (value & ga & oa1 & oa2 & Hget & H & ->).
  injection Hget as Hget <- <-.
  apply bind_Ok_inv in H as (n & gb & ob1 & ob2 & Hlen & H & ->).
  injection Hlen as Hlen <- <-.
  apply bind_Ok_inv in H as (w & gc & oc1 & oc2 & Hw & H & ->).
  apply get_width_Ok in Hw as (Hw & _ & _).
  split; [|by eexists].
  apply py_len_has_length in Hlen as [Hlen _].
  unfold attribute_value. simpl in Hget.
  destruct (m !! attribute) as [v|]; injection Hget as <-; [|done].
  by destruct v.
Qed.

Lemma attributes_loop_inv m attributes item g item' g' out :
  for_each attributes (get_attribute (VDict m)) item g = (Ok item', g', out) →
  ∀ attribute, attribute ∈ attributes →
    has_length (attribute_value m attribute) ∧
    is_Some (COLUMN_WIDTHS g !! attribute).
Proof.
  revert item g out. induction attributes as [|a l IH]; intros item g out H.
  - by intros attribute ?%elem_of_nil.
  - simpl in H.
    apply bind_Ok_inv in H as (item1 & g1 & oa1 & oa2 & Ha & H & ->).
    pose proof (get_attribute_grows _ _ _ _ _ _ _ Ha) as Hgrows.
    apply get_attribute_inv in Ha.
    intros attribute [->|Hin]%elem_of_cons; [done|].
    destruct (IH _ _ _ H attribute Hin) as [Hlength Htracked].
    split; [done|]. apply elem_of_dom. rewrite <- (grows_dom _ _ Hgrows).
    by apply elem_of_dom.
Qed.

Lemma tags_loop_inv tags item g item' g' out :
  for_each tags get_tag item g = (Ok item', g', out) → Forall is_dict tags.
Proof.
  revert item g out. induction tags as [|tag l IH]; intros item g out H;
    [constructor|].
  simpl in H.
  apply bind_Ok_inv in H as (item1 & g1 & oa1 & oa2 & Htag & H & ->).
  constructor; [|by eapply IH].
  revert Htag. cbv [get_tag bind read lift ret]. by destruct tag.
Qed.

Lemma get_instance_data_inv instance g record g' out :
  get_instance_data instance g = (Ok record, g', out) →
  instance ≠ VNone →
  normalisable g instance ∧ record_keys_tracked g.
Proof.
  intros H Hnone. unfold get_instance_data in H.
  destruct (is_none instance) eqn:Hn; [by destruct instance|].
  apply bind_Ok_inv in H as (attrs & ga & oa1 & oa2 & Hr & H & ->).
  injection Hr as <- <- <-.
  apply bind_Ok_inv in H as (item & g1 & ob1 & ob2 & Hattrs & H & ->).
  pose proof (preserves_for_each grows _ _ _
                (λ x acc, get_attribute_grows instance x acc) _ _ _ _ Hattrs)
    as Hgrows.
  apply bind_Ok_inv in H as (tags0 & gc & oc1 & oc2 & Hget & H & ->).
  injection Hget as Hget <- <-.
  destruct instance as [| | | | | |m]; try discriminate.
  pose proof (attributes_loop_inv _ _ _ _ _ _ _ Hattrs) as Hinv.
  assert (item = attributes_item m (ATTRIBUTES_TO_SHOW g) ∅) as ->.
  { destruct (ATTRIBUTES_TO_SHOW g) as [|a l] eqn:Hl.
    - by injection Hattrs as <- <- <-.
    - apply attributes_loop_Ok in Hattrs as (m' & [= <-] & -> & ->); done. }
  apply bind_Ok_inv in H as (tags & gd & od1 & od2 & Hiter & H & ->).
  injection Hiter as Hiter <- <-.
  apply bind_Ok_inv in H as (item' & ge & oe1 & oe2 & Htags & H & ->).
  pose proof (tags_loop_inv _ _ _ _ _ _ Htags) as Hdicts.
  apply tags_loop_Ok in Htags as (-> & -> & ->).
  apply bind_Ok_inv in H as (TAG & gf & of1 & of2 & Hr & H & ->).
  injection Hr as <- <- <-.
  apply bind_Ok_inv in H as (value & gh & oh1 & oh2 & Hsub & H & ->).
  injection Hsub as Hsub <- <-.
  apply bind_Ok_inv in H as (n & gi & oi1 & oi2 & Hlen & H & ->).
  injection Hlen as Hlen <- <-.
  apply bind_Ok_inv in H as (w & gj & oj1 & oj2 & Hw & H & ->).
  apply get_width_Ok in Hw as (Hw & _ & _).
  rewrite (grows_TAG_TO_SHOW _ _ Hgrows) in *.
  fold (with_unknown (TAG_TO_SHOW g)
          (tags_item (TAG_TO_SHOW g) tags
             (attributes_item m (ATTRIBUTES_TO_SHOW g) ∅))) in Hsub.
  fold (record_item g m tags) in Hsub.
  simpl in Hsub. rewrite record_item_sort_tag in Hsub. injection Hsub as <-.
  split.
  - exists m, tags. split; [done|]. split.
    { unfold instance_tags. rewrite Hget. exact Hiter. }
    split; [done|]. split; [intros a Hin; by apply Hinv|].
    by apply py_len_has_length in Hlen as [? _].
  - intros column [->|Hin]; [|by apply Hinv].
    apply elem_of_dom. rewrite <- (grows_dom _ _ Hgrows).
    apply elem_of_dom. by eexists.
Qed.

(** The run of the normaliser that returns a record, in full. *)
Lemma get_instance_data_exact instance g record g' out :
  get_instance_data instance g = (Ok record, g', out) →
  instance ≠ VNone →
  ∃ m tags,
    instance = VDict m ∧ instance_tags instance = Ok tags ∧
    record = VDict (record_item g m tags) ∧
    g' = set_COLUMN_WIDTHS (record_widths g m tags) g ∧ out = [] ∧
    record_keys_tracked g.
Proof.
  intros Hrun Hnone.
  destruct (get_instance_data_inv _ _ _ _ _ Hrun Hnone)
    as [(m & tags & -> & Htags & Hdicts & Hlength & Htag) Htracked].
  exists m, tags.
  rewrite (get_instance_data_run _ _ _ Htags Hdicts Hlength Htag Htracked)
    in Hrun.
  by injection Hrun as <- <- <-.
Qed.

Lemma record_item_lookup_other g m tags column :
  column ≠ TAG_TO_SHOW g →
  record_item g m tags !! column
  = (if decide (column ∈ ATTRIBUTES_TO_SHOW g)
     then Some (attribute_value m column) else None).
Proof.
  intros Hne. unfold record_item.
  rewrite with_unknown_lookup_other, tags_item_lookup_other by done.
  case_decide.
  - by apply attributes_item_lookup.
  - by rewrite attributes_item_lookup_other, lookup_empty.
Qed.

Lemma none_or_not (value : pyval) : value = VNone ∨ value ≠ VNone.
Proof. destruct value; (by left) || (by right). Qed.

Lemma get_instance_data_fits instance g record g' out :
  get_instance_data instance g = (Ok record, g', out) → fits g' record.
Proof.
  intros Hrun. destruct (none_or_not instance) as [->|Hnone].
  { injection Hrun as <- <- <-. by intros column value. }
  destruct (get_instance_data_inv _ _ _ _ _ Hrun Hnone)
    as [(m & tags & -> & Htags & Hdicts & Hlength & Htag) Htracked].
  rewrite (get_instance_data_run _ _ _ Htags Hdicts Hlength Htag Htracked)
    in Hrun.
  injection Hrun as <- <- <-. intros column value. simpl.
  unfold record_widths. rewrite widen_lookup, attributes_widths_lookup.
  destruct (decide (column = TAG_TO_SHOW g)) as [->|Hne].
  - rewrite record_item_sort_tag. intros [= <-].
    destruct (Htracked (TAG_TO_SHOW g)) as [width ->]; [by left|]. simpl.
    eexists _, _. split; [by apply has_length_py_len|]. split; [done|]. lia.
  - rewrite record_item_lookup_other by done.
    case_decide as Hin; [|done]. intros [= <-].
    destruct (Htracked column) as [width ->]; [by right|]. simpl.
    eexists _, _. split; [by apply has_length_py_len, Hlength|].
    split; [done|]. lia.
Qed.

(** X1.  Whenever the normaliser returns a record, every value of the
    record has a length and the column of its key is, in the widths the
    normaliser leaves, at least that wide. *)
Theorem record_fits_widths instance g record g' out :
  get_instance_data instance g = (Ok record, g', out) → fits g' record.
Proof. apply get_instance_data_fits. Qed.

Lemma record_fits_widths_witness :
  let run :=
    get_instance_data (owned_by "i-0123456789abcdef0" "alice") owner_globals in
  COLUMN_WIDTHS run.1.2 = {[ "Owner" := 5; "InstanceId" := 19 ]} ∧
  fits run.1.2 (record_of "i-0123456789abcdef0" "alice").
Proof.
  intros run. split; [vm_compute; reflexivity|].
  apply (record_fits_widths (owned_by "i-0123456789abcdef0" "alice")
           owner_globals _ _ []).
  vm_compute. reflexivity.
Defined.

(** X2.  When the sort tag is not one of the attributes, the normaliser
    leaves every tracked column as wide as the larger of its width before
    and the length of the record's value for it; a column that is not a
    key of the record keeps its width, and no column is added. *)
Theorem widths_are_maxima instance g item g' out :
  get_instance_data instance g = (Ok (VDict item), g', out) →
  TAG_TO_SHOW g ∉ ATTRIBUTES_TO_SHOW g →
  ∀ column,
    COLUMN_WIDTHS g' !! column
    = (λ width, match item !! column with
                | Some value => Z.max width (length_of value)
                | None => width
                end) <$> COLUMN_WIDTHS g !! column.
Proof.
  intros Hrun Hattr column.
  assert (instance ≠ VNone) as Hnone by (intros ->; discriminate).
  apply get_instance_data_exact in Hrun
    as (m & tags & -> & Htags & [= ->] & -> & -> & Htracked); [|done].
  simpl. unfold record_widths.
  rewrite widen_lookup, attributes_widths_lookup.
  destruct (decide (column = TAG_TO_SHOW g)) as [->|Hne].
  - rewrite record_item_sort_tag.
    destruct (COLUMN_WIDTHS g !! TAG_TO_SHOW g); simpl; [|done].
    by rewrite decide_False.
  - rewrite record_item_lookup_other by done.
    destruct (COLUMN_WIDTHS g !! column); simpl; [|done]. by case_decide.
Qed.

Lemma widths_are_maxima_witness :
  let run :=
    get_instance_data (owned_by "i-0123456789abcdef0" "bob") owner_globals in
  COLUMN_WIDTHS run.1.2 !! "InstanceId" = Some (Z.max 10 19) ∧
  COLUMN_WIDTHS run.1.2 !! "Owner" = Some (Z.max 5 3).
Proof.
  intros run.
  pose proof (widths_are_maxima (owned_by "i-0123456789abcdef0" "bob")
                owner_globals
                (list_to_map [("InstanceId", VStr "i-0123456789abcdef0");
                              ("Owner", VStr "bob")])
                run.1.2 []) as Hmax.
  split.
  - refine (Hmax _ _ "InstanceId").
    + vm_compute. reflexivity.
    + apply (bool_decide_unpack _). vm_compute. exact I.
  - refine (Hmax _ _ "Owner").
    + vm_compute. reflexivity.
    + apply (bool_decide_unpack _). vm_compute. exact I.
Defined.

Lemma widen_again TAG n m attributes widths :
  widen TAG n
    (attributes_widths m attributes
       (widen TAG n (attributes_widths m attributes widths)))
  = widen TAG n (attributes_widths m attributes widths).
Proof.
  apply map_eq. intros c.
  rewrite !widen_lookup, !attributes_widths_lookup, !widen_lookup,
    !attributes_widths_lookup.
  destruct (widths !! c); simpl; [|done]. f_equal.
  repeat case_decide; lia.
Qed.

Lemma record_widths_again g m tags :
  record_widths (set_COLUMN_WIDTHS (record_widths g m tags) g) m tags
  = record_widths g m tags.
Proof.
  change (record_widths (set_COLUMN_WIDTHS (record_widths g m tags) g) m tags)
    with (widen (TAG_TO_SHOW g) (length_of (sort_tag_value g m tags))
            (attributes_widths m (ATTRIBUTES_TO_SHOW g)
               (record_widths g m tags))).
  apply widen_again.
Qed.

(** X3.  Normalising the same instance once more, in the state the first
    normalisation left, returns the same record and changes no width. *)
Theorem normalising_again_changes_nothing instance g record g' out :
  get_instance_data instance g = (Ok record, g', out) →
  get_instance_data instance g' = (Ok record, g', []).
Proof.
  intros Hrun. destruct (none_or_not instance) as [->|Hnone].
  { by injection Hrun as <- <- <-. }
  pose proof (get_instance_data_grows _ _ _ _ _ Hrun) as Hgrows.
  destruct (get_instance_data_inv _ _ _ _ _ Hrun Hnone)
    as [(m & tags & -> & Htags & Hdicts & Hlength & Htag) Htracked].
  rewrite (get_instance_data_run _ _ _ Htags Hdicts Hlength Htag Htracked)
    in Hrun.
  injection Hrun as <- <- <-.
  rewrite (get_instance_data_run _ m tags); try done.
  - by rewrite record_widths_again.
  - by eapply grows_record_keys_tracked.
Qed.

Lemma normalising_again_changes_nothing_witness :
  let run :=
    get_instance_data (owned_by "i-0123456789abcdef0" "alice") owner_globals in
  get_instance_data (owned_by "i-0123456789abcdef0" "alice") run.1.2
  = (Ok (record_of "i-0123456789abcdef0" "alice"), run.1.2, []).
Proof.
  intros run.
  apply (normalising_again_changes_nothing _ owner_globals _ _ []).
  vm_compute. reflexivity.
Defined.

(* ===================================================================== *)
(** * The ways a run ends *)
(* ===================================================================== *)

Section Endings.

Context {S : Type} (good : ending → Prop) (Hgood : good Returns).

Lemma ends_ret {A} (a : A) (st : S) : ends good (ret a) st.
Proof using Hgood. by intros o st' out [= <- <- <-]. Qed.

Lemma ends_read {A} (f : S → A) st : ends good (read f) st.
Proof using Hgood. by intros o st' out [= <- <- <-]. Qed.

Lemma ends_write (f : S → S) st : ends good (write f) st.
Proof using Hgood. by intros o st' out [= <- <- <-]. Qed.

Lemma ends_emit (e : event) (st : S) : ends good (emit e) st.
Proof using Hgood. by intros o st' out [= <- <- <-]. Qed.

Lemma ends_lift {A} (o : outcome A) (st : S) :
  good (ending_of o) → ends good (lift o) st.
Proof. by intros Ho o' st' out [= <- <- <-]. Qed.

Lemma ends_bind {A B} (c : M S A) (k : A → M S B) st :
  ends good c st →
  (∀ a st1 out1, c st = (Ok a, st1, out1) → ends good (k a) st1) →
  ends good (bind c k) st.
Proof.
  intros Hc Hk o st' out. unfold bind.
  destruct (c st) as [[[a| | |] st1] out1] eqn:Ec.
  - destruct (k a st1) as [[o2 st2] out2] eqn:Ek. intros [= <- <- <-].
    by eapply Hk.
  - intros [= <- <- <-]. by eapply (Hc (Raise e)).
  - intros [= <- <- <-]. by eapply (Hc (SysExit code)).
  - intros [= <- <- <-]. by eapply (Hc OutOfFuel).
Qed.

(** A loop, with an invariant of the state that the turns keep. *)
Lemma ends_for_each {A B} (J : S → Prop) (l : list A) (body : A → B → M S B)
    acc st :
  (∀ x acc st, x ∈ l → J st → ends good (body x acc) st) →
  (∀ x acc st acc' st' out,
     x ∈ l → J st → body x acc st = (Ok acc', st', out) → J st') →
  J st → ends good (for_each l body acc) st.
Proof using Hgood.
  revert acc st. induction l as [|x l IH]; intros acc st Hbody Hkeep HJ; simpl.
  - apply ends_ret.
  - apply ends_bind; [apply Hbody; [by left | done]|].
    intros acc' st1 out1 Hrun. apply IH.
    + intros y acc0 st0 Hy. apply Hbody. by right.
    + intros y acc0 st0 acc1 st2 out Hy. apply Hkeep. by right.
    + eapply Hkeep; [by left | done | done].
Qed.

End Endings.

Lemma ends_weaken {S A} (good good' : ending → Prop) (c : M S A) st :
  (∀ e, good e → good' e) → ends good c st → ends good' c st.
Proof. intros Himpl Hc o st' out Hrun. eapply Himpl, Hc, Hrun. Qed.

Lemma settled_no_exit e : settled e → no_exit e.
Proof. by intros [-> | ->]. Qed.

Lemma ends_zoom {W A} (good : ending → Prop) (c : M globals A) g (w : W) :
  ends good c g → ends good (zoom c) (g, w).
Proof.
  intros Hc o st' out. unfold zoom. simpl.
  destruct (c g) as [[o1 g1] out1] eqn:Hrun. intros [= <- <- <-].
  by eapply Hc.
Qed.

Lemma zoom_inv {W A} (c : M globals A) g (w : W) o st' out :
  zoom c (g, w) = (o, st', out) → ∃ g', c g = (o, g', out) ∧ st' = (g', w).
Proof.
  unfold zoom. simpl. destruct (c g) as [[o1 g1] out1].
  intros [= <- <- <-]. by eexists.
Qed.

(** ** The operations on values return or raise *)

Ltac settle := (by left) || (by right).

Lemma py_get_settled d key default : settled (ending_of (py_get d key default)).
Proof. destruct d; simpl; try settle. destruct (_ !! _); settle. Qed.

Lemma py_subscript_settled d key : settled (ending_of (py_subscript d key)).
Proof. destruct d; simpl; try settle. destruct (_ !! _); settle. Qed.

Lemma py_len_settled value : settled (ending_of (py_len value)).
Proof. destruct value; simpl; settle. Qed.

Lemma py_iter_settled value : settled (ending_of (py_iter value)).
Proof. destruct value; simpl; settle. Qed.

Lemma py_ljust_settled value : settled (ending_of (py_ljust value)).
Proof. destruct value; simpl; settle. Qed.

(** ** The normaliser and the renderer return or raise *)

Lemma grows_tracked g g' column :
  grows g g' →
  is_Some (COLUMN_WIDTHS g !! column) → is_Some (COLUMN_WIDTHS g' !! column).
Proof.
  intros Hgrows Htracked. apply elem_of_dom. rewrite (grows_dom _ _ Hgrows).
  by apply elem_of_dom.
Qed.

Lemma grows_columns_tracked g g' :
  grows g g' → columns_tracked g → columns_tracked g'.
Proof.
  intros Hgrows Htracked column. rewrite (grows_COLUMNS _ _ Hgrows).
  intros Hin. eapply grows_tracked; [done | by apply Htracked].
Qed.

Lemma get_width_ends (good : ending → Prop) column g :
  good Returns →
  is_Some (COLUMN_WIDTHS g !! column) → ends good (get_width column) g.
Proof.
  intros Hgood [width Hwidth] o g' out. cbv [get_width bind read ret fail].
  rewrite Hwidth. by intros [= <- <- <-].
Qed.

Lemma get_attribute_ends instance attribute item g :
  is_Some (COLUMN_WIDTHS g !! attribute) →
  ends settled (get_attribute instance attribute item) g.
Proof.
  intros Htracked. unfold get_attribute.
  apply ends_bind; [apply ends_lift, py_get_settled|].
  intros value g1 out1 [= _ <- _].
  apply ends_bind; [apply ends_lift, py_len_settled|].
  intros n g2 out2 [= _ <- _].
  intros o g' out. rewrite update_width_run by done.
  intros [= <- <- <-]. by left.
Qed.

Lemma get_tag_ends tag item g : ends settled (get_tag tag item) g.
Proof.
  unfold get_tag.
  apply ends_bind; [apply ends_read; by left|].
  intros TAG g1 out1 [= <- <- <-].
  apply ends_bind; [apply ends_lift, py_get_settled|].
  intros key g2 out2 [= _ <- _].
  destruct (eq_str key (TAG_TO_SHOW g)); [|apply ends_ret; by left].
  apply ends_bind; [apply ends_lift, py_get_settled|].
  intros value g3 out3 [= _ <- _]. apply ends_ret. by left.
Qed.

Lemma get_instance_data_ends instance g :
  record_keys_tracked g → ends settled (get_instance_data instance) g.
Proof.
  intros Htracked. unfold get_instance_data.
  destruct (is_none instance); [apply ends_ret; by left|].
  apply ends_bind; [apply ends_read; by left|].
  intros attrs g0 out0 [= <- <- <-].
  apply ends_bind.
  { apply (ends_for_each settled ltac:(by left) (grows g)); [| |reflexivity].
    - intros attribute item g1 Hin Hgrows. apply get_attribute_ends.
      eapply grows_tracked; [done | apply Htracked; by right].
    - intros attribute item g1 item' g2 out Hin Hgrows Hrun.
      etrans; [done | by eapply get_attribute_grows]. }
  intros item g1 out1 Hattrs.
  pose proof (preserves_for_each grows _ _ _
                (λ x acc, get_attribute_grows instance x acc) _ _ _ _ Hattrs)
    as Hgrows.
  apply ends_bind; [apply ends_lift, py_get_settled|].
  intros tags0 g2 out2 [= _ <- _].
  apply ends_bind; [apply ends_lift, py_iter_settled|].
  intros tags g3 out3 [= _ <- _].
  apply ends_bind.
  { apply (ends_for_each settled ltac:(by left) (λ g', g' = g1)); [| |done].
    - intros tag item0 g' _ ->. apply get_tag_ends.
    - intros tag item0 g' item' g'' out _ -> Hrun.
      by apply get_tag_unchanged in Hrun as [-> _]. }
  intros item' g4 out4 Htags. apply tags_loop_Ok in Htags as (_ & -> & _).
  apply ends_bind; [apply ends_read; by left|].
  intros TAG g5 out5 [= <- <- <-].
  apply ends_bind; [apply ends_lift, py_subscript_settled|].
  intros value g6 out6 [= _ <- _].
  apply ends_bind; [apply ends_lift, py_len_settled|].
  intros n g7 out7 [= _ <- _].
  intros o g' out. rewrite update_width_run.
  - intros [= <- <- <-]. by left.
  - rewrite (grows_TAG_TO_SHOW _ _ Hgrows).
    eapply grows_tracked; [done | apply Htracked; by left].
Qed.

Lemma collect_instances_ends instances results g :
  record_keys_tracked g → ends settled (collect_instances instances results) g.
Proof.
  intros Htracked. unfold collect_instances.
  apply (ends_for_each settled ltac:(by left) record_keys_tracked); [| |done].
  - intros instance acc g1 _ Hg1.
    apply ends_bind; [by apply get_instance_data_ends|].
    intros record g2 out2 _. apply ends_ret. by left.
  - intros instance acc g1 acc' g2 out _ Hg1 Hrun.
    apply bind_Ok_inv in Hrun as (record & g3 & o1 & o2 & Hdata & Hret & _).
    injection Hret as _ <- _.
    eapply grows_record_keys_tracked; [|done].
    by eapply get_instance_data_grows.
Qed.

Lemma collect_reservation_grows reservation results :
  preserves grows (collect_reservation reservation results).
Proof.
  unfold collect_reservation. preserved. apply collect_instances_grows.
Qed.

Lemma collect_response_ends response results g :
  record_keys_tracked g → ends settled (collect_response response results) g.
Proof.
  intros Htracked. unfold collect_response.
  apply ends_bind; [apply ends_lift, py_get_settled|].
  intros reservations0 g1 out1 [= _ <- _].
  apply ends_bind; [apply ends_lift, py_iter_settled|].
  intros reservations g2 out2 [= _ <- _].
  apply (ends_for_each settled ltac:(by left) record_keys_tracked); [| |done].
  - intros reservation acc g3 _ Hg3. unfold collect_reservation.
    apply ends_bind; [apply ends_lift, py_get_settled|].
    intros instances0 g4 out4 [= _ <- _].
    apply ends_bind; [apply ends_lift, py_iter_settled|].
    intros instances g5 out5 [= _ <- _].
    by apply collect_instances_ends.
  - intros reservation acc g3 acc' g4 out _ Hg3 Hrun.
    eapply grows_record_keys_tracked; [|done].
    by eapply collect_reservation_grows.
Qed.

Lemma heading_cell_ends column heading g :
  is_Some (COLUMN_WIDTHS g !! column) →
  ends settled (heading_cell column heading) g.
Proof.
  intros Htracked. unfold heading_cell.
  apply ends_bind; [by apply get_width_ends; [left|]|].
  intros width g1 out1 _. apply ends_ret. by left.
Qed.

Lemma line_cell_ends dict column line g :
  is_Some (COLUMN_WIDTHS g !! column) →
  ends settled (line_cell dict column line) g.
Proof.
  intros Htracked. unfold line_cell.
  apply ends_bind; [apply ends_lift, py_get_settled|].
  intros value g1 out1 [= _ <- _].
  apply ends_bind; [apply ends_lift, py_ljust_settled|].
  intros pad g2 out2 [= _ <- _].
  apply ends_bind; [by apply get_width_ends; [left|]|].
  intros width g3 out3 _. apply ends_ret. by left.
Qed.

Lemma heading_cell_unchanged column heading g o g' out :
  heading_cell column heading g = (o, g', out) → g' = g.
Proof.
  cbv [heading_cell bind get_width read ret fail].
  by destruct (COLUMN_WIDTHS g !! column); intros [= <- <- <-].
Qed.

Lemma line_cell_unchanged dict column line g o g' out :
  line_cell dict column line g = (o, g', out) → g' = g.
Proof.
  cbv [line_cell bind lift get_width read ret fail].
  destruct (py_get dict column (VStr "")) as [value| | |];
    try by intros [= <- <- <-].
  destruct (py_ljust value); try by intros [= <- <- <-].
  by destruct (COLUMN_WIDTHS g !! column); intros [= <- <- <-].
Qed.

Lemma for_each_unchanged {S A B} (l : list A) (body : A → B → M S B) acc st
    o st' out :
  (∀ x acc st o st' out, body x acc st = (o, st', out) → st' = st) →
  for_each l body acc st = (o, st', out) → st' = st.
Proof.
  intros Hbody. revert acc out.
  induction l as [|x l IH]; intros acc out; simpl.
  - by intros [= <- <- <-].
  - unfold bind. destruct (body x acc st) as [[[acc'| | |] st1] out1] eqn:Hx;
      pose proof (Hbody _ _ _ _ _ _ Hx) as ->; try by intros [= <- <- <-].
    destruct (for_each l body acc' st) as [[o2 st2] out2] eqn:Hl.
    intros [= <- <- <-]. by eapply IH.
Qed.

Lemma print_row_unchanged dict u g o g' out :
  print_row dict u g = (o, g', out) → g' = g.
Proof.
  unfold print_row. unfold bind at 1. simpl.
  destruct (bind _ _ g) as [[o1 g1] out1] eqn:Hrun. intros [= <- <- <-].
  revert Hrun. unfold bind.
  destruct (for_each _ _ _ g) as [[[line| | |] g2] out2] eqn:Hline;
    pose proof (for_each_unchanged _ _ _ _ _ _ _
                  (line_cell_unchanged dict) Hline) as ->;
    by intros [= <- <- <-].
Qed.

(** The renderer never changes the globals, however it ends. *)
Lemma print_table_unchanged dict_list g o g' out :
  print_table dict_list g = (o, g', out) → g' = g.
Proof.
  unfold print_table. case_decide; [by intros [= <- <- <-]|].
  unfold bind at 1. simpl.
  destruct (bind _ _ g) as [[o1 g1] out1] eqn:Hrun. intros [= <- <- <-].
  revert Hrun. unfold bind at 1.
  destruct (for_each _ heading_cell _ g) as [[[heading| | |] g2] out2]
    eqn:Hheading;
    pose proof (for_each_unchanged _ _ _ _ _ _ _
                  heading_cell_unchanged Hheading) as ->;
    try by intros [= <- <- <-].
  cbv [bind print emit].
  destruct (for_each dict_list print_row () g) as [[o3 g3] out3] eqn:Hrows.
  intros [= <- <- <-].
  by eapply for_each_unchanged; [apply print_row_unchanged|].
Qed.

Lemma print_table_ends dict_list g :
  columns_tracked g → ends settled (print_table dict_list) g.
Proof.
  intros Htracked. unfold print_table.
  case_decide; [apply ends_ret; by left|].
  apply ends_bind; [apply ends_read; by left|].
  intros columns g0 out0 [= <- <- <-].
  apply ends_bind.
  { apply (ends_for_each settled ltac:(by left) (λ g', g' = g)); [| |done].
    - intros column heading g' Hin ->. by apply heading_cell_ends, Htracked.
    - intros column heading g' heading' g'' out _ ->.
      apply heading_cell_unchanged. }
  intros heading g1 out1 Hheading.
  apply (for_each_unchanged _ _ _ _ _ _ _ heading_cell_unchanged) in Hheading
    as ->.
  apply ends_bind; [apply ends_emit; by left|].
  intros [] g2 out2 [= <- <-].
  apply ends_bind; [apply ends_emit; by left|].
  intros [] g3 out3 [= <- <-].
  apply (ends_for_each settled ltac:(by left) (λ g', g' = g)); [| |done].
  - intros dict u g' _ ->. unfold print_row.
    apply ends_bind; [apply ends_read; by left|].
    intros columns g4 out4 [= <- <- <-].
    apply ends_bind.
    { apply (ends_for_each settled ltac:(by left) (λ g', g' = g)); [| |done].
      - intros column line g' Hin ->. by apply line_cell_ends, Htracked.
      - intros column line g' line' g'' out _ ->. apply line_cell_unchanged. }
    intros line g5 out5 _. apply ends_emit. by left.
  - intros dict u g' u' g'' out _ ->. apply print_row_unchanged.
Qed.

(** X4.  With the widths of the sort tag and of the attributes tracked,
    the normaliser returns a record for a raw instance other than [None]
    exactly when the instance is a dict whose requested attributes have a
    length once a [datetime] is converted, whose ['Tags'] can be iterated
    and hold dicts only, and whose sort-tag value has a length; on every
    other instance it raises an exception. *)
Theorem normaliser_domain g instance :
  record_keys_tracked g →
  instance ≠ VNone →
  (normalisable g instance ↔
   ∃ record g' out, get_instance_data instance g = (Ok record, g', out)) ∧
  (¬ normalisable g instance →
   ∃ e g' out, get_instance_data instance g = (Raise e, g', out)).
Proof.
  intros Htracked Hnone.
  assert (normalisable g instance ↔
          ∃ record g' out, get_instance_data instance g = (Ok record, g', out))
    as Hiff.
  { split.
    - intros (m & tags & -> & Htags & Hdicts & Hlength & Htag).
      eexists _, _, _. by apply get_instance_data_run.
    - intros (record & g' & out & Hrun).
      by apply get_instance_data_inv in Hrun as [? _]. }
  split; [done|]. intros Hnot.
  destruct (get_instance_data instance g) as [[o g'] out] eqn:Hrun.
  pose proof (get_instance_data_ends instance g Htracked _ _ _ Hrun) as Hends.
  destruct o as [record|e| |].
  - destruct Hnot. apply Hiff. by eexists _, _, _.
  - by eexists _, _, _.
  - by destruct Hends.
  - by destruct Hends.
Qed.

Lemma owner_globals_tracked : record_keys_tracked owner_globals.
Proof.
  intros column [->|Hin]; [|apply list_elem_of_singleton in Hin as ->];
    vm_compute; by eexists.
Qed.

Lemma launch_index_globals_tracked : record_keys_tracked launch_index_globals.
Proof.
  intros column [->|Hin]; [|apply list_elem_of_singleton in Hin as ->];
    vm_compute; by eexists.
Qed.

Lemma normaliser_domain_witness :
  normalisable owner_globals (owned_by "i-1" "alice") ∧
  ¬ normalisable launch_index_globals
      (dict [("AmiLaunchIndex", VInt 0); ("Tags", VList [owner_tag "alice"])]).
Proof.
  split.
  - destruct (normaliser_domain owner_globals (owned_by "i-1" "alice"))
      as [Hiff _]; [apply owner_globals_tracked | discriminate |].
    apply Hiff. eexists _, _, _. vm_compute. reflexivity.
  - destruct (normaliser_domain launch_index_globals
                (dict [("AmiLaunchIndex", VInt 0);
                       ("Tags", VList [owner_tag "alice"])]))
      as [Hiff _]; [apply launch_index_globals_tracked | discriminate |].
    intros (record & g' & out & Hrun)%Hiff.
    vm_compute in Hrun. discriminate.
Defined.

(* ===================================================================== *)
(** * What a region returns *)
(* ===================================================================== *)

Lemma normalised_app_intro g instances1 records1 g1 instances2 records2 g2 :
  normalised g instances1 records1 g1 →
  normalised g1 instances2 records2 g2 →
  normalised g (instances1 ++ instances2) (records1 ++ records2) g2.
Proof.
  induction 1 as [|g instance record g0 instances records g1 Hdata _ IH];
    intros H2; simpl; [done|].
  econstructor; [done | by apply IH].
Qed.

Lemma collect_reservations_inv reservations results g results' g' out :
  for_each reservations collect_reservation results g = (Ok results', g', out) →
  ∃ instances records,
    reservations_instances reservations = Ok instances ∧
    normalised g instances records g' ∧
    results' = results ++ records ∧ out = [].
Proof.
  revert results g out.
  induction reservations as [|reservation l IH]; intros results g out H.
  - injection H as <- <- <-. exists [], []. split; [done|].
    split; [constructor|]. by rewrite app_nil_r.
  - simpl in H.
    apply bind_Ok_inv in H as (acc & g1 & oa1 & oa2 & Hstep & H & ->).
    unfold collect_reservation in Hstep.
    apply bind_Ok_inv in Hstep as (v & ga & ob1 & ob2 & Hget & Hstep & ->).
    injection Hget as Hget <- <-.
    apply bind_Ok_inv in Hstep as (instances1 & gb & oc1 & oc2 & Hiter & Hstep & ->).
    injection Hiter as Hiter <- <-.
    apply collect_instances_normalised in Hstep as (records1 & Hr1 & -> & ->).
    apply IH in H as (instances2 & records2 & Hrest & Hr2 & -> & ->).
    exists (instances1 ++ instances2), (records1 ++ records2).
    simpl. rewrite Hget. simpl. rewrite Hiter. simpl. rewrite Hrest. simpl.
    split; [done|]. split; [by eapply normalised_app_intro|].
    by rewrite app_assoc.
Qed.

Lemma collect_response_inv response results g results' g' out :
  collect_response response results g = (Ok results', g', out) →
  ∃ instances records,
    response_instances response = Ok instances ∧
    normalised g instances records g' ∧
    results' = results ++ records ∧ out = [].
Proof.
  unfold collect_response. intros H.
  apply bind_Ok_inv in H as (v & ga & oa1 & oa2 & Hget & H & ->).
  injection Hget as Hget <- <-.
  apply bind_Ok_inv in H as (reservations & gb & ob1 & ob2 & Hiter & H & ->).
  injection Hiter as Hiter <- <-.
  apply collect_reservations_inv in H as (instances & records & Hi & Hr & -> & ->).
  exists instances, records. unfold response_instances.
  rewrite Hget. simpl. rewrite Hiter. by simpl.
Qed.

Section Returned.

Context {P : provider}.

(** What the loop returns on a [break]: the provider has served a finite
    sequence of pages, of which the last alone carries no token; the loop
    has made one request for each, and returns the records of their
    instances after those it started with. *)
Lemma fetching_pages_inv fuel region (client : Client P) token results g w
    results' g' w' events :
  fetching fuel region client token results (g, w)
  = (Ok (Some results'), (g', w'), events) →
  ∃ pages token' w1 last instances records,
    served client token w pages token' w1 ∧
    describe_instances P client token' w1 = (Answer last, w') ∧
    next_token last = VNone ∧
    pages_instances (pages ++ [last]) = Ok instances ∧
    normalised g instances records g' ∧
    results' = results ++ records ∧
    events = DescribeInstances <$> (token :: (next_token <$> pages)) ∧
    (length pages < fuel)%nat.
Proof.
  revert token results g w events.
  induction fuel as [|fuel IH]; intros token results g w events H; [done|].
  simpl in H.
  apply bind_Ok_inv in H as (answer & st1 & oa1 & oa2 & Hdescribe & H & ->).
  unfold describe in Hdescribe. simpl in Hdescribe.
  destruct (describe_instances P client token w) as [answer' w1] eqn:Hanswer.
  injection Hdescribe as <- <- <-.
  destruct answer' as [response|diagnostic]; [|done].
  apply bind_Ok_inv in H as (results1 & st2 & ob1 & ob2 & Hcollect & H & ->).
  apply zoom_inv in Hcollect as (g1 & Hcollect & ->).
  apply collect_response_inv in Hcollect
    as (instances1 & records1 & Hinstances1 & Hr1 & -> & ->).
  apply bind_Ok_inv in H as (next & st3 & oc1 & oc2 & Hnext & H & ->).
  injection Hnext as Hnext <- <-.
  assert (next_token response = next) as Htoken
    by (unfold next_token; by rewrite Hnext).
  destruct (is_none next) eqn:Hnone.
  - injection H as <- <- <- <-.
    exists [], token, w, response, instances1, records1.
    split; [constructor|]. split; [done|].
    split; [by destruct next|]. split.
    { simpl. rewrite Hinstances1. simpl. by rewrite app_nil_r. }
    split; [done|]. split; [done|]. split; [done | simpl; lia].
  - apply IH in H
      as (pages & token' & w2 & last & instances2 & records2 & Hserved & Hlast
          & Hend & Hpages & Hr2 & -> & -> & Hfuel).
    exists (response :: pages), token', w2, last, (instances1 ++ instances2),
      (records1 ++ records2).
    split; [econstructor; [done | by rewrite Htoken | by rewrite Htoken]|].
    split; [done|]. split; [done|]. split.
    { simpl. rewrite Hinstances1. simpl. rewrite Hpages. done. }
    split; [by eapply normalised_app_intro|].
    split; [by rewrite app_assoc|].
    split; [csimpl; by rewrite Htoken | simpl; lia].
Qed.

Lemma fetching_inv fuel region (client : Client P) token results g w results'
    g' w' events :
  fetching fuel region client token results (g, w)
  = (Ok (Some results'), (g', w'), events) →
  ∃ instances records tokens,
    normalised g instances records g' ∧ results' = results ++ records ∧
    events = DescribeInstances <$> tokens.
Proof.
  intros (pages & token' & w1 & last & instances & records & _ & _ & _ & _
          & Hrecords & -> & -> & _)%fetching_pages_inv.
  by exists instances, records, (token :: (next_token <$> pages)).
Qed.

(** What it has done when it returns [None]: requests, then the warning
    and the diagnostic of the request that failed. *)
Lemma fetching_None_inv fuel region (client : Client P) token results st st'
    events :
  fetching fuel region client token results st = (Ok None, st', events) →
  ∃ tokens diagnostic,
    events = (DescribeInstances <$> tokens)
             ++ [page_warning region; Print diagnostic].
Proof.
  revert token results st events.
  induction fuel as [|fuel IH]; intros token results [g w] events H; [done|].
  simpl in H.
  apply bind_Ok_inv in H as (answer & st1 & oa1 & oa2 & Hdescribe & H & ->).
  unfold describe in Hdescribe. simpl in Hdescribe.
  destruct (describe_instances P client token w) as [answer' w1].
  injection Hdescribe as <- <- <-.
  destruct answer' as [response|diagnostic].
  - apply bind_Ok_inv in H as (results1 & st2 & ob1 & ob2 & Hcollect & H & ->).
    destruct st2 as [g2 w2].
    apply zoom_inv in Hcollect as (g1 & Hcollect & [= -> ->]).
    apply collect_response_inv in Hcollect as (? & ? & _ & _ & _ & ->).
    apply bind_Ok_inv in H as (next & st3 & oc1 & oc2 & Hnext & H & ->).
    injection Hnext as Hnext <- <-.
    destruct (is_none next); [done|].
    apply IH in H as (tokens & diagnostic & ->).
    by exists (token :: tokens), diagnostic.
  - injection H as <- <-. by exists [token], diagnostic.
Qed.

End Returned.

(** ** [sorted], whatever the keys *)

Lemma insert_keyed_Permutation x l l' : insert_keyed x l = Ok l' → l' ≡ₚ x :: l.
Proof.
  revert l'. induction l as [|y l IH]; intros l'; csimpl.
  - by intros [= <-].
  - destruct (py_lt y.1 x.1) as [[]| | |]; csimpl; try done.
    + destruct (insert_keyed x l) as [l''| | |]; csimpl; try done.
      intros [= <-]. rewrite (IH _ eq_refl). apply perm_swap.
    + by intros [= <-].
Qed.

Lemma sort_keyed_Permutation l l' : sort_keyed l = Ok l' → l' ≡ₚ l.
Proof.
  revert l'. induction l as [|x l IH]; intros l'; csimpl.
  - by intros [= <-].
  - destruct (sort_keyed l) as [l''| | |]; csimpl; try done.
    intros ->%insert_keyed_Permutation. by rewrite (IH _ eq_refl).
Qed.

Lemma with_keys_Ok key l keyed :
  with_keys key l = Ok keyed →
  keyed.*2 = l ∧ Forall (λ x, ∃ k, key x = Ok k) l.
Proof.
  revert keyed. induction l as [|x l IH]; intros keyed; csimpl.
  - by intros [= <-].
  - destruct (key x) as [k| | |] eqn:Hk; csimpl; try done.
    destruct (with_keys key l) as [keyed'| | |]; csimpl; try done.
    intros [= <-]. destruct (IH _ eq_refl) as [Hsnd Hall].
    split; [csimpl; by rewrite Hsnd|]. constructor; [by eexists | done].
Qed.

(** Whenever [sorted] returns, it returns the elements it was given, and
    each of them has a key. *)
Lemma sorted_Ok key l l' :
  sorted key l = Ok l' → l' ≡ₚ l ∧ Forall (λ x, ∃ k, key x = Ok k) l.
Proof.
  unfold sorted.
  destruct (with_keys key l) as [keyed| | |] eqn:Hkeys; csimpl; try done.
  destruct (sort_keyed keyed) as [keyed'| | |] eqn:Hsort; csimpl; try done.
  intros [= <-]. apply with_keys_Ok in Hkeys as [<- Hall].
  split; [|done]. by rewrite (sort_keyed_Permutation _ _ Hsort).
Qed.

(** A [None] among the elements, all the elements before it having a
    key, makes [sorted] raise [TypeError] when it computes the keys. *)
Lemma sorted_None TAG front back :
  Forall (λ x, ∃ k, py_subscript x TAG = Ok k) front →
  sorted (λ k, py_subscript k TAG) (front ++ VNone :: back) = Raise TypeError.
Proof.
  intros Hfront. unfold sorted.
  assert (with_keys (λ k, py_subscript k TAG) (front ++ VNone :: back)
          = Raise TypeError) as ->; [|done].
  induction Hfront as [|x l [k Hk] _ IH]; csimpl; [done|].
  rewrite Hk. csimpl. by rewrite IH.
Qed.

(** ** The records of a list of instances *)

Lemma grows_fits g g' record : grows g g' → fits g record → fits g' record.
Proof.
  intros Hgrows Hfits column value Hvalue.
  destruct (Hfits _ _ Hvalue) as (n & width & Hn & Hwidth & Hle).
  destruct (grows_widths _ _ Hgrows _ _ Hwidth) as (width' & Hwidth' & Hle').
  exists n, width'. split; [done|]. split; [done | lia].
Qed.

Lemma normalised_fits g instances records g' :
  normalised g instances records g' → Forall (fits g') records.
Proof.
  induction 1 as [|g instance record g1 instances records g' Hdata Hrest IH];
    constructor; [|done].
  eapply grows_fits; [by eapply normalised_grows|].
  by eapply get_instance_data_fits.
Qed.

Lemma record_item_dom g m tags :
  dom (record_item g m tags)
  = {[TAG_TO_SHOW g]} ∪ list_to_set (ATTRIBUTES_TO_SHOW g).
Proof.
  unfold record_item.
  rewrite with_unknown_dom, tags_item_dom, attributes_item_dom. set_solver.
Qed.

(** A record is [None], for the instance [None], or a dict with the sort
    tag and the attributes as keys. *)
Lemma normalised_records g instances records g' :
  normalised g instances records g' →
  Forall2 (λ instance record,
             (instance = VNone ∧ record = VNone) ∨
             (instance ≠ VNone ∧ is_record g record))
          instances records.
Proof.
  induction 1 as [|g instance record g1 instances records g' Hdata Hrest IH];
    constructor.
  - destruct (none_or_not instance) as [->|Hnone].
    + left. by injection Hdata as <- _.
    + right. split; [done|].
      apply get_instance_data_exact in Hdata
        as (m & tags & -> & _ & -> & _ & _ & _); [|done].
      eexists. split; [done | apply record_item_dom].
  - pose proof (get_instance_data_grows _ _ _ _ _ Hdata) as Hgrows.
    eapply Forall2_impl; [exact IH|]. intros instance' record'. simpl.
    unfold is_record.
    by rewrite (grows_TAG_TO_SHOW _ _ Hgrows),
      (grows_ATTRIBUTES_TO_SHOW _ _ Hgrows).
Qed.

Lemma is_record_sort_tag g record :
  is_record g record → ∃ k, py_subscript record (TAG_TO_SHOW g) = Ok k.
Proof.
  intros (item & -> & Hdom).
  assert (is_Some (item !! TAG_TO_SHOW g)) as [k Hk].
  { apply elem_of_dom. rewrite Hdom. set_solver. }
  exists k. simpl. by rewrite Hk.
Qed.

Section Region_result.

Context {P : provider}.

Lemma get_instances_inv fuel region (st st' : state P) records events :
  get_instances fuel region st = (Ok (Some records), st', events) →
  ∃ client w results events',
    region ∈ AVAILABLE_REGIONS st.1 ∧
    boto3_client P region st.2 = (Answer client, w) ∧
    fetching fuel region client (VStr "") [] (st.1, w)
    = (Ok (Some results), st', events') ∧
    events = NewClient region :: events' ∧
    sorted (λ k, py_subscript k (TAG_TO_SHOW st.1)) results = Ok records.
Proof.
  destruct st as [g w0]. unfold get_instances. intros H.
  apply bind_Ok_inv in H as (available & st1 & oa1 & oa2 & Hr & H & ->).
  injection Hr as <- <- <-.
  case_decide as Hregion.
  { apply bind_Ok_inv in H as (? & ? & ? & ? & _ & H & _). done. }
  apply bind_Ok_inv in H as (answer & st2 & ob1 & ob2 & Hclient & H & ->).
  unfold new_client in Hclient. simpl in Hclient.
  destruct (boto3_client P region w0) as [answer' w] eqn:Hboto.
  injection Hclient as <- <- <-.
  destruct answer' as [client|diagnostic].
  2:{ apply bind_Ok_inv in H as (? & ? & ? & ? & _ & H & _).
      apply bind_Ok_inv in H as (? & ? & ? & ? & _ & H & _). done. }
  apply bind_Ok_inv in H as (results & st3 & oc1 & oc2 & Hfetch & H & ->).
  destruct results as [results|]; [|done].
  apply bind_Ok_inv in H as (TAG & st4 & od1 & od2 & Hr & H & ->).
  pose proof (fetching_grows _ _ _ _ _ _ _ _ _ Hfetch) as Hgrows.
  unfold on_globals in Hgrows. simpl in Hgrows.
  destruct st3 as [g3 w3]. injection Hr as <- <- <-.
  apply bind_Ok_inv in H as (sorted' & st5 & oe1 & oe2 & Hsorted & H & ->).
  injection Hsorted as Hsorted <- <-. injection H as <- <- <-.
  simpl in Hsorted, Hgrows. rewrite (grows_TAG_TO_SHOW _ _ Hgrows) in Hsorted.
  exists client, w, results, oc1. simpl.
  split; [done|]. split; [done|]. split; [done|].
  split; [by rewrite !app_nil_r | done].
Qed.

End Region_result.

Lemma first_None (Q : pyval → Prop) l :
  Forall (λ x, x = VNone ∨ Q x) l →
  VNone ∈ l →
  ∃ front back, l = front ++ VNone :: back ∧ Forall Q front.
Proof.
  induction 1 as [|x l [->|Hx] _ IH]; [by intros ?%elem_of_nil| |].
  - intros _. by exists [], l.
  - intros [<-|Hin]%elem_of_cons.
    + by exists [], l.
    + destruct (IH Hin) as (front & back & -> & Hfront).
      exists (x :: front), back. split; [done | by constructor].
Qed.

Section Region_records.

Context {P : provider}.

(** X5.  Whenever [get_instances] returns a list, a client was built
    for an available region and the provider served it a finite sequence
    of pages, the last alone without a continuation token; the list holds
    the records of the instances of those pages, each once: as many
    records as instances, every one a dict with the sort tag and the
    attributes as keys (and not [None]), and every value in it no longer
    than the width its column has when the region is done. *)
Theorem returned_records_are_records fuel region (st st' : state P) records
    events :
  get_instances fuel region st = (Ok (Some records), st', events) →
  ∃ client w pages token w1 last instances fetched,
    region ∈ AVAILABLE_REGIONS st.1 ∧
    boto3_client P region st.2 = (Answer client, w) ∧
    served client (VStr "") w pages token w1 ∧
    describe_instances P client token w1 = (Answer last, st'.2) ∧
    next_token last = VNone ∧
    pages_instances (pages ++ [last]) = Ok instances ∧
    normalised st.1 instances fetched st'.1 ∧
    records ≡ₚ fetched ∧
    length records = length instances ∧
    Forall (is_record st.1) records ∧
    Forall (fits st'.1) records.
Proof.
  intros Hrun.
  apply get_instances_inv in Hrun
    as (client & w & results & events' & Hregion & Hclient & Hfetch & _
        & Hsorted).
  destruct st as [g w0], st' as [g' w']. simpl in *.
  apply fetching_pages_inv in Hfetch
    as (pages & token & w1 & last & instances & fetched & Hserved & Hlast
        & Hend & Hpages & Hrecords & -> & _ & _).
  rewrite app_nil_l in Hsorted.
  apply sorted_Ok in Hsorted as [Hperm Hkeys].
  exists client, w, pages, token, w1, last, instances, fetched.
  do 7 (split; [done|]). split; [done|].
  split; [by rewrite Hperm, (normalised_length _ _ _ _ Hrecords)|].
  rewrite Hperm. split; [|by eapply normalised_fits].
  apply normalised_records in Hrecords.
  clear Hperm Hpages. induction Hrecords as [|instance record ? ? Hone _ IH];
    [constructor|].
  apply Forall_cons in Hkeys as [[k Hk] Hkeys].
  constructor; [|by apply IH].
  by destruct Hone as [[_ ->]|[_ ?]].
Qed.

(** X6.  A [None] among the records that the loop has accumulated, which
    is what the normaliser returns for an instance that is [None], makes
    the sort raise [TypeError]: all the pages have been fetched by then,
    and nothing is caught. *)
Theorem null_instance_breaks_sort fuel region (st st' : state P) client w
    results events :
  region ∈ AVAILABLE_REGIONS st.1 →
  boto3_client P region st.2 = (Answer client, w) →
  fetching fuel region client (VStr "") [] (st.1, w)
  = (Ok (Some results), st', events) →
  VNone ∈ results →
  get_instances fuel region st
  = (Raise TypeError, st', NewClient region :: events).
Proof.
  intros Hregion Hclient Hfetch Hnone.
  rewrite (get_instances_client _ _ _ _ _ Hregion Hclient).
  destruct st as [g w0], st' as [g' w']. simpl in *.
  pose proof (fetching_grows _ _ _ _ _ _ _ _ _ Hfetch) as Hgrows.
  unfold on_globals in Hgrows. simpl in Hgrows.
  erewrite bind_Ok; [|exact Hfetch]. cbv beta iota.
  erewrite (bind_Ok (zoom (read TAG_TO_SHOW))); [|done].
  simpl. rewrite (grows_TAG_TO_SHOW _ _ Hgrows).
  apply fetching_inv in Hfetch as (instances & fetched & _ & Hrecords & -> & _).
  rewrite app_nil_l in *.
  assert (Forall (λ record, record = VNone ∨
                            ∃ k, py_subscript record (TAG_TO_SHOW g) = Ok k)
                 fetched) as Hshape.
  { apply normalised_records in Hrecords. clear Hnone.
    induction Hrecords as [|instance record ? ? Hone _ IH]; constructor;
      [|done].
    destruct Hone as [[_ ->]|[_ Hrecord]]; [by left|].
    right. by apply is_record_sort_tag. }
  destruct (first_None _ _ Hshape Hnone) as (front & back & -> & Hfront).
  unfold bind, lift. rewrite (sorted_None _ _ _ Hfront).
  by rewrite !app_nil_r.
Qed.

End Region_records.

Lemma returned_records_are_records_witness :
  ∃ pages last instances fetched,
    pages_instances (pages ++ [last]) = Ok instances ∧
    normalised owner_globals instances fetched owner_globals ∧
    [record_of "i-2" "a"; record_of "i-1" "b"] ≡ₚ fetched ∧
    length instances = 2%nat ∧
    Forall (fits owner_globals) [record_of "i-2" "a"; record_of "i-1" "b"].
Proof.
  destruct (returned_records_are_records (P:=one_region) 1 "us-east-1"
              (owner_globals,
               [Answer (page [owned_by "i-1" "b"; owned_by "i-2" "a"] None)])
              (owner_globals, [])
              [record_of "i-2" "a"; record_of "i-1" "b"]
              [NewClient "us-east-1"; DescribeInstances (VStr "")])
    as (client & w & pages & token & w1 & last & instances & fetched & _ & _
        & _ & _ & _ & Hpages & Hrecords & Hperm & Hlength & _ & Hfits).
  - vm_compute. reflexivity.
  - exists pages, last, instances, fetched.
    split; [exact Hpages|]. split; [exact Hrecords|]. split; [exact Hperm|].
    split; [by rewrite <- Hlength | exact Hfits].
Defined.

Lemma null_instance_breaks_sort_witness :
  get_instances (P:=one_region) 1 "us-east-1"
    (owner_globals, [Answer (page [owned_by "i-1" "b"; VNone] None)])
  = (Raise TypeError, (owner_globals, []),
     [NewClient "us-east-1"; DescribeInstances (VStr "")]).
Proof.
  apply (null_instance_breaks_sort (P:=one_region) 1 "us-east-1"
           (owner_globals,
            [Answer (page [owned_by "i-1" "b"; VNone] None)])
           (owner_globals, []) "us-east-1"
           [Answer (page [owned_by "i-1" "b"; VNone] None)]
           [record_of "i-1" "b"; VNone]
           [DescribeInstances (VStr "")]).
  - apply (bool_decide_unpack _). vm_compute. exact I.
  - reflexivity.
  - vm_compute. reflexivity.
  - apply elem_of_cons. right. apply elem_of_cons. by left.
Defined.

(* ===================================================================== *)
(** * The shape of a table *)
(* ===================================================================== *)

Lemma cells_length (cell1 cell2 : string → string) columns line1 line2 :
  len line1 = len line2 →
  (∀ column, column ∈ columns → len (cell1 column) = len (cell2 column)) →
  len (foldl (λ line column, line +:+ cell1 column) line1 columns)
  = len (foldl (λ line column, line +:+ cell2 column) line2 columns).
Proof.
  revert line1 line2.
  induction columns as [|c l IH]; intros line1 line2 Hline Hcells; [done|].
  simpl. apply IH.
  - rewrite !len_append, Hline, (Hcells c); [done | by left].
  - intros column Hin. apply Hcells. by right.
Qed.

(** The line of a record that fits the widths is as long as the heading. *)
Lemma table_line_length g dict :
  widths_invariant g → fits g dict →
  len (table_line g dict) = len (table_heading g).
Proof.
  intros [Hcover Htracked] Hfits. unfold table_line, table_heading.
  apply cells_length; [done|]. intros column Hin. rewrite !len_ljust.
  destruct (Htracked column Hin) as [width Hwidth].
  pose proof (Hcover _ _ Hwidth) as Hname. pose proof (len_nonneg column).
  unfold column_width. rewrite Hwidth. simpl.
  assert (len (cell_text dict column) ≤ width) as Hcell.
  { unfold cell_text.
    destruct (field dict column) as [value|] eqn:Hvalue; [|unfold len; simpl; lia].
    destruct (Hfits _ _ Hvalue) as (n & width' & Hn & Hwidth' & Hle).
    rewrite Hwidth in Hwidth'. injection Hwidth' as <-.
    destruct value; try (unfold len; simpl; lia).
    injection Hn as <-. done. }
  unfold COLUMN_MARGIN. lia.
Qed.

Lemma print_table_Ok dict_list g g' out :
  print_table dict_list g = (Ok tt, g', out) →
  g' = g ∧
  out = (if decide (dict_list = []) then []
         else Print (table_heading g)
              :: Print (str_mul "-" (len (table_heading g) - COLUMN_MARGIN))
              :: (Print <$> (table_line g <$> dict_list))).
Proof.
  intros H. split; [by eapply print_table_unchanged|].
  unfold print_table in H. case_decide as Hlen.
  { destruct dict_list; [|simpl in Hlen; lia]. by injection H as <- <-. }
  rewrite decide_False by (intros ->; simpl in Hlen; lia).
  apply bind_Ok_inv in H as (columns & g1 & oa1 & oa2 & Hr & H & ->).
  injection Hr as <- <- <-.
  apply bind_Ok_inv in H as (heading & g2 & ob1 & ob2 & Hheading & H & ->).
  apply heading_cells_Ok in Hheading as (-> & -> & ->).
  apply bind_Ok_inv in H as ([] & g3 & oc1 & oc2 & Hp & H & ->).
  injection Hp as <- <-.
  apply bind_Ok_inv in H as ([] & g4 & od1 & od2 & Hp & H & ->).
  injection Hp as <- <-.
  by apply print_rows_Ok in H as (-> & ->).
Qed.

Lemma print_table_lines dict_list g g' out :
  print_table dict_list g = (Ok tt, g', out) →
  widths_invariant g →
  Forall (fits g) dict_list →
  rectangular (length dict_list) out.
Proof.
  intros [_ ->]%print_table_Ok Hinv Hfits.
  destruct dict_list as [|dict l]; [by left|]. right.
  rewrite decide_False by done.
  eexists _, _. split; [done|].
  split; [by rewrite length_fmap|]. split; [done|].
  apply Forall_fmap. eapply Forall_impl; [exact Hfits|].
  intros record Hrecord. by apply table_line_length.
Qed.

(** X7.  When the widths cover the names of the columns and the records
    fit the widths, the table that [print_table] prints is rectangular:
    every line of it is exactly as long as the heading, one line per
    record, and the line of dashes is one margin shorter; the globals are
    left as they were. *)
Theorem print_table_rectangular dict_list g g' out :
  print_table dict_list g = (Ok tt, g', out) →
  widths_invariant g →
  Forall (fits g) dict_list →
  g' = g ∧ rectangular (length dict_list) out.
Proof.
  intros Hrun Hinv Hfits.
  split; [by eapply print_table_unchanged | by eapply print_table_lines].
Qed.

Lemma alice_record_fits : fits table_globals alice_record.
Proof.
  intros column value Hvalue. unfold alice_record, dict, field in Hvalue.
  apply elem_of_list_to_map_2 in Hvalue.
  repeat (apply elem_of_cons in Hvalue as [[= -> ->]|Hvalue];
          [eexists _, _; split; [reflexivity|];
           split; [vm_compute; reflexivity | vm_compute; discriminate]|]).
  by apply elem_of_nil in Hvalue.
Qed.

Lemma print_table_rectangular_witness :
  rectangular 1
    [Print "Owner    InstanceId  ";
     Print "-------------------";
     Print "alice    i-123       "].
Proof.
  apply (print_table_rectangular [alice_record] table_globals table_globals).
  - vm_compute. reflexivity.
  - apply table_globals_invariant.
  - repeat constructor. apply alice_record_fits.
Defined.

Section Report.

Context {P : provider}.

Lemma get_instances_None_inv fuel region (st st' : state P) events :
  get_instances fuel region st = (Ok None, st', events) →
  events = [not_available_warning region] ∨
  (∃ diagnostic,
     events = [NewClient region; client_warning region; Print diagnostic]) ∨
  (∃ tokens diagnostic,
     events = NewClient region :: (DescribeInstances <$> tokens)
              ++ [page_warning region; Print diagnostic]).
Proof.
  destruct st as [g w0]. unfold get_instances. intros H.
  apply bind_Ok_inv in H as (available & st1 & oa1 & oa2 & Hr & H & ->).
  injection Hr as <- <- <-.
  case_decide as Hregion.
  { left. by injection H as <- <-. }
  right.
  apply bind_Ok_inv in H as (answer & st2 & ob1 & ob2 & Hclient & H & ->).
  unfold new_client in Hclient. simpl in Hclient.
  destruct (boto3_client P region w0) as [answer' w] eqn:Hboto.
  injection Hclient as <- <- <-.
  destruct answer' as [client|diagnostic].
  - right.
    apply bind_Ok_inv in H as (results & st3 & oc1 & oc2 & Hfetch & H & ->).
    destruct results as [results|].
    { apply bind_Ok_inv in H as (? & ? & ? & ? & _ & H & _).
      apply bind_Ok_inv in H as (? & ? & ? & ? & _ & H & _). done. }
    injection H as <- <-.
    apply fetching_None_inv in Hfetch as (tokens & diagnostic & ->).
    exists tokens, diagnostic. simpl. by rewrite app_nil_r.
  - left. injection H as <- <-. by exists diagnostic.
Qed.

Lemma report_shape fuel region (st st' : state P) out :
  report fuel region tt st = (Ok tt, st', out) →
  widths_invariant st.1 →
  region_report region out.
Proof.
  intros H Hinv. unfold report in H.
  apply bind_Ok_inv in H as ([] & st1 & oa1 & oa2 & Hp & H & ->).
  injection Hp as <- <-.
  apply bind_Ok_inv in H as ([] & st2 & ob1 & ob2 & Hp & H & ->).
  injection Hp as <- <-.
  apply bind_Ok_inv in H as (instances & st3 & events & oc2 & Hget & H & ->).
  change ([Print (str_mul "*" 80)] ++ [Print ("REGION: " +:+ region)]
          ++ events ++ oc2)
    with (banner region ++ events ++ oc2).
  destruct instances as [records|].
  - apply bind_Ok_inv in H as ([] & st4 & od1 & od2 & Hp & H & ->).
    injection Hp as <- <-.
    destruct st3 as [g3 w3].
    apply zoom_inv in H as (g' & Htable & ->).
    pose proof (get_instances_grows _ _ _ _ _ _ Hget) as Hgrows.
    unfold on_globals in Hgrows. simpl in Hgrows.
    apply get_instances_inv in Hget
      as (client & w & results & events' & _ & _ & Hfetch & -> & Hsorted).
    apply fetching_inv in Hfetch
      as (instances & fetched & tokens & Hrecords & -> & ->).
    apply sorted_Ok in Hsorted as [Hperm _]. rewrite app_nil_l in Hperm.
    apply (report_table region tokens (length records)).
    eapply print_table_lines; [done | by eapply grows_keeps_invariant |].
    rewrite Hperm. by eapply normalised_fits.
  - injection H as <- <-. rewrite app_nil_r.
    apply get_instances_None_inv in Hget
      as [->|[[diagnostic ->]|(tokens & diagnostic & ->)]]; constructor.
Qed.

(** X8.  From a state in which the widths cover the names of the columns,
    the report of a region that completes consists of the banner and then
    of one of four things: the warning that the region is not available,
    with no request made; the request for a client and the warning that
    it failed; the requests for the client and for pages and the warning
    that a page failed; or those requests, the line with the number of
    records, and a rectangular table of that many lines. *)
Theorem report_output fuel region (st st' : state P) out :
  report fuel region tt st = (Ok tt, st', out) →
  widths_invariant st.1 →
  region_report region out.
Proof. apply report_shape. Qed.

End Report.

Lemma report_output_witness :
  region_report "us-east-1"
    (banner "us-east-1"
     ++ [NewClient "us-east-1"; DescribeInstances (VStr "");
         Print "Instances: 2";
         Print "Owner    InstanceId           ";
         Print (str_mul "-" 28);
         Print "alice    i-0123456789abcdef0  ";
         Print "bob      i-1                  "]).
Proof.
  apply (report_output (P:=one_region) 1 "us-east-1"
           (table_globals,
            [Answer (page [owned_by "i-0123456789abcdef0" "alice";
                           owned_by "i-1" "bob"] None)])
           (set_COLUMN_WIDTHS {[ "Owner" := 7; "InstanceId" := 19 ]}
              table_globals, [])).
  - vm_compute. reflexivity.
  - apply table_globals_invariant.
Defined.

(* ===================================================================== *)
(** * The ways a whole run ends *)
(* ===================================================================== *)

Lemma settled_Ok_or_Raise {A} (o : outcome A) :
  settled (ending_of o) → (∃ a, o = Ok a) ∨ (∃ e, o = Raise e).
Proof.
  destruct o as [a|e| |]; intros [?|?]; try done; [left | right]; by eexists.
Qed.

Lemma py_lt_settled a b : settled (ending_of (py_lt a b)).
Proof. destruct a, b; simpl; settle. Qed.

Lemma insert_keyed_settled x l : settled (ending_of (insert_keyed x l)).
Proof.
  induction l as [|y l IH]; csimpl; [settle|].
  destruct (settled_Ok_or_Raise _ (py_lt_settled y.1 x.1)) as [[[] ->]|[e ->]];
    csimpl; try settle.
  destruct (settled_Ok_or_Raise _ IH) as [[l' ->]|[e ->]]; csimpl; settle.
Qed.

Lemma sort_keyed_settled l : settled (ending_of (sort_keyed l)).
Proof.
  induction l as [|x l IH]; csimpl; [settle|].
  destruct (settled_Ok_or_Raise _ IH) as [[l' ->]|[e ->]]; csimpl; [|settle].
  apply insert_keyed_settled.
Qed.

Lemma with_keys_settled key l :
  (∀ x, settled (ending_of (key x))) → settled (ending_of (with_keys key l)).
Proof.
  intros Hkey. induction l as [|x l IH]; csimpl; [settle|].
  destruct (settled_Ok_or_Raise _ (Hkey x)) as [[k ->]|[e ->]]; csimpl;
    [|settle].
  destruct (settled_Ok_or_Raise _ IH) as [[l' ->]|[e ->]]; csimpl; settle.
Qed.

Lemma sorted_settled key l :
  (∀ x, settled (ending_of (key x))) → settled (ending_of (sorted key l)).
Proof.
  intros Hkey. unfold sorted.
  destruct (settled_Ok_or_Raise _ (with_keys_settled key l Hkey))
    as [[keyed ->]|[e ->]]; csimpl; [|settle].
  destruct (settled_Ok_or_Raise _ (sort_keyed_settled keyed))
    as [[keyed' ->]|[e ->]]; csimpl; settle.
Qed.

Section Run_ends.

Context {P : provider}.

Lemma fetching_ends fuel region (client : Client P) token results
    (st : state P) :
  record_keys_tracked st.1 →
  ends no_exit (fetching fuel region client token results) st.
Proof.
  revert token results st.
  induction fuel as [|fuel IH]; intros token results [g w] Htracked; simpl.
  - by apply ends_lift.
  - apply ends_bind.
    { intros o st' out. unfold describe. simpl.
      destruct (describe_instances P client token w). by intros [= <- <- <-]. }
    intros answer st1 out1 Hdescribe.
    pose proof (describe_unchanged grows _ _ _ _ _ _ Hdescribe) as Hg1.
    unfold on_globals in Hg1. simpl in Hg1. destruct st1 as [g1 w1].
    destruct answer as [response|diagnostic].
    + apply ends_bind.
      { apply ends_zoom.
        eapply ends_weaken; [apply settled_no_exit|].
        apply collect_response_ends.
        by eapply grows_record_keys_tracked. }
      intros results' [g2 w2] out2 Hcollect.
      apply zoom_inv in Hcollect as (g2' & Hcollect & [= -> ->]).
      pose proof (collect_response_grows _ _ _ _ _ _ Hcollect) as Hg2.
      apply ends_bind;
        [apply ends_lift, settled_no_exit, py_get_settled|].
      intros next st3 out3 [= _ <- _].
      destruct (is_none next); [by apply ends_ret|].
      apply IH. simpl.
      eapply grows_record_keys_tracked; [|done]. by etrans.
    + apply ends_bind; [by apply ends_emit|]. intros [] st2 out2 _.
      apply ends_bind; [by apply ends_emit|]. intros [] st3 out3 _.
      by apply ends_ret.
Qed.

Lemma get_instances_ends fuel region (st : state P) :
  record_keys_tracked st.1 → ends no_exit (get_instances fuel region) st.
Proof.
  destruct st as [g w0]. intros Htracked. unfold get_instances.
  apply ends_bind; [by apply ends_zoom, ends_read|].
  intros available st1 out1 [= <- <- <-].
  case_decide.
  { apply ends_bind; [by apply ends_emit|]. intros [] st2 out2 _.
    by apply ends_ret. }
  apply ends_bind.
  { intros o st' out. unfold new_client. simpl.
    destruct (boto3_client P region w0). by intros [= <- <- <-]. }
  intros answer st2 out2 Hclient.
  pose proof (new_client_unchanged grows _ _ _ _ _ Hclient) as Hg2.
  unfold on_globals in Hg2. simpl in Hg2. destruct st2 as [g2 w2].
  destruct answer as [client|diagnostic].
  - apply ends_bind.
    { apply fetching_ends. by eapply grows_record_keys_tracked. }
    intros [results|] st3 out3 Hfetch; [|by apply ends_ret].
    apply ends_bind; [by apply ends_zoom, ends_read|].
    intros TAG st4 out4 _.
    apply ends_bind; [|intros; by apply ends_ret].
    apply ends_lift, settled_no_exit, sorted_settled.
    intros record. apply py_subscript_settled.
  - apply ends_bind; [by apply ends_emit|]. intros [] st3 out3 _.
    apply ends_bind; [by apply ends_emit|]. intros [] st4 out4 _.
    by apply ends_ret.
Qed.

Lemma report_ends fuel region u (st : state P) :
  record_keys_tracked st.1 → columns_tracked st.1 →
  ends no_exit (report fuel region u) st.
Proof.
  intros Hkeys Hcolumns. unfold report.
  apply ends_bind; [by apply ends_emit|]. intros [] st1 out1 [= <- _].
  apply ends_bind; [by apply ends_emit|]. intros [] st2 out2 [= <- _].
  apply ends_bind; [by apply get_instances_ends|].
  intros [records|] [g3 w3] out3 Hget; [|by apply ends_ret].
  pose proof (get_instances_grows _ _ _ _ _ _ Hget) as Hgrows.
  unfold on_globals in Hgrows. simpl in Hgrows.
  apply ends_bind; [by apply ends_emit|]. intros [] st4 out4 [= <- _].
  apply ends_zoom. eapply ends_weaken; [apply settled_no_exit|].
  apply print_table_ends. by eapply grows_columns_tracked.
Qed.

Lemma regions_loop_ends fuel regions (st : state P) :
  record_keys_tracked st.1 → columns_tracked st.1 →
  ends no_exit (for_each regions (report fuel) tt) st.
Proof.
  intros Hkeys Hcolumns.
  apply (ends_for_each no_exit ltac:(done)
           (λ st, record_keys_tracked st.1 ∧ columns_tracked st.1));
    [| |done].
  - intros region u st0 _ [? ?]. by apply report_ends.
  - intros region u st0 u' st1 out _ [? ?] Hrun.
    apply report_grows in Hrun. unfold on_globals in Hrun.
    split; [by eapply grows_record_keys_tracked
           | by eapply grows_columns_tracked].
Qed.

(** ** The initialisation *)

Lemma init_regions_run ARGS g (w : World P) :
  init_regions ARGS (g, w)
  = (if decide (get_available_regions P w = [])
     then (SysExit 1, (set_AVAILABLE_REGIONS [] g, w),
           [Print "ERROR: No available regions were returned."])
     else (Ok tt,
           (set_REGIONS
              (match regions ARGS with
               | None => get_available_regions P w
               | Some given => split comma given
               end)
              (set_AVAILABLE_REGIONS (get_available_regions P w) g), w),
           [])).
Proof.
  destruct (regions ARGS) as [given|] eqn:Hgiven;
    [by apply init_regions_given|].
  unfold init_regions. rewrite Hgiven.
  cbv [bind zoom write read]. simpl.
  destruct (get_available_regions P w) as [|region l]; simpl; [done|].
  rewrite decide_False by lia. simpl.
  rewrite decide_False by lia. done.
Qed.

Lemma init_tag_run ARGS g :
  init_tag ARGS g = (Ok tt, set_TAG_TO_SHOW (default "Owner" (tag ARGS)) g, []).
Proof. unfold init_tag. by destruct (tag ARGS). Qed.

Lemma init_attributes_run ARGS g :
  init_attributes ARGS g
  = (Ok tt,
     set_ATTRIBUTES_TO_SHOW
       (split comma (default DEFAULT_ATTRIBUTES (attributes ARGS))) g,
     []).
Proof.
  destruct (attributes ARGS) as [given|] eqn:Hgiven;
    [by apply init_attributes_given|].
  unfold init_attributes. rewrite Hgiven. by vm_compute.
Qed.

(** With a region in the catalogue, [main] is the loop over the regions
    from the configured globals. *)
Lemma main_configured fuel ARGS (w : World P) :
  get_available_regions P w ≠ [] →
  main fuel ARGS (initial_globals, w)
  = for_each (REGIONS (configured ARGS (get_available_regions P w)))
             (report fuel) tt
             (configured ARGS (get_available_regions P w), w).
Proof.
  intros Hsome. unfold main.
  erewrite bind_Ok; [|by rewrite init_regions_run, decide_False].
  erewrite bind_Ok; [|apply zoom_run, init_tag_run].
  erewrite bind_Ok; [|apply zoom_run, init_attributes_run].
  erewrite bind_Ok; [|apply zoom_run, init_columns_Ok].
  erewrite bind_Ok; [|by apply zoom_run].
  simpl.
  by destruct (for_each _ _ _ _) as [[o st'] out].
Qed.

Lemma main_without_regions fuel ARGS (w : World P) :
  get_available_regions P w = [] →
  main fuel ARGS (initial_globals, w)
  = (SysExit 1, (set_AVAILABLE_REGIONS [] initial_globals, w),
     [Print "ERROR: No available regions were returned."]).
Proof.
  intros Hnone. unfold main. unfold bind at 1.
  by rewrite init_regions_run, decide_True.
Qed.

Lemma configured_tracked ARGS catalogue :
  record_keys_tracked (configured ARGS catalogue) ∧
  columns_tracked (configured ARGS catalogue).
Proof.
  assert (∀ column,
            column ∈ default "Owner" (tag ARGS)
                     :: split comma (default DEFAULT_ATTRIBUTES (attributes ARGS)) →
            is_Some (COLUMN_WIDTHS (configured ARGS catalogue) !! column))
    as Hnamed.
  { intros column Hin. unfold configured, COLUMN_WIDTHS.
    rewrite named_widths_lookup by done. by eexists. }
  split.
  - intros column [->|Hin]; apply Hnamed; [by left | by right].
  - intros column Hin. by apply Hnamed.
Qed.

End Run_ends.

(* ===================================================================== *)
(** * Whole runs, whatever the provider *)
(* ===================================================================== *)

Lemma named_widths_dom columns widths :
  dom (named_widths columns widths) = dom widths ∪ list_to_set columns.
Proof.
  induction columns as [|c l IH] using rev_ind.
  - unfold named_widths. simpl. set_solver.
  - unfold named_widths in *. rewrite foldl_app. simpl.
    rewrite dom_insert_L, IH, list_to_set_app_L. set_solver.
Qed.

Lemma configured_invariant ARGS catalogue :
  widths_invariant (configured ARGS catalogue).
Proof.
  split; [|apply configured_tracked].
  intros column width. unfold configured, COLUMN_WIDTHS.
  set (columns := default "Owner" (tag ARGS) :: _).
  destruct (decide (column ∈ columns)) as [Hin|Hout].
  - rewrite named_widths_lookup by done. intros [= <-]. lia.
  - by rewrite named_widths_lookup_other, lookup_empty.
Qed.

Section Whole_run.

Context {P : provider}.

Lemma regions_loop_reports fuel regions (st st' : state P) out :
  for_each regions (report fuel) tt st = (Ok tt, st', out) →
  widths_invariant st.1 →
  ∃ reports, out = concat reports ∧ Forall2 region_report regions reports.
Proof.
  revert st out. induction regions as [|region l IH]; intros st out H Hinv.
  - injection H as <- <-. by exists [].
  - simpl in H.
    apply bind_Ok_inv in H as ([] & st1 & out1 & out2 & Hreport & H & ->).
    pose proof (report_grows _ _ _ _ _ _ _ Hreport) as Hgrows.
    apply IH in H as (reports & -> & Hreports);
      [|by eapply grows_keeps_invariant].
    exists (out1 :: reports). split; [done|].
    constructor; [by eapply report_shape | done].
Qed.

(** X9.  The one [sys.exit] of a run is that of a provider that reports
    no region: the run then prints that error, and nothing else, and exits
    with the code 1 before any other initialisation; with a region in the
    catalogue no run exits, however it ends, so that the errors for an
    empty list of regions, an empty list of attributes and a column
    without a width are never printed. *)
Theorem exit_only_without_regions fuel ARGS (w : World P) o st' out :
  main fuel ARGS (initial_globals, w) = (o, st', out) →
  (get_available_regions P w = [] →
   o = SysExit 1 ∧
   st' = (set_AVAILABLE_REGIONS [] initial_globals, w) ∧
   out = [Print "ERROR: No available regions were returned."]) ∧
  (get_available_regions P w ≠ [] → ∀ code, o ≠ SysExit code).
Proof.
  intros Hrun. split.
  - intros Hnone. rewrite (main_without_regions _ _ _ Hnone) in Hrun.
    by injection Hrun as <- <- <-.
  - intros Hsome code ->. rewrite (main_configured _ _ _ Hsome) in Hrun.
    destruct (configured_tracked ARGS (get_available_regions P w))
      as [Hkeys Hcolumns].
    by apply (regions_loop_ends fuel _
                (configured ARGS (get_available_regions P w), w)
                Hkeys Hcolumns _ _ _ Hrun).
Qed.

(** X10.  With a region in the catalogue, the globals a run ends with,
    however it ends, hold the configuration that the command line
    resolves to: all the regions of the catalogue unless [--regions] names
    some, the tag [Owner] unless [--tag] names one, the three default
    attributes unless [--attributes] names some; the columns are the tag
    followed by the attributes, and the widths tracked are those of the
    columns and of nothing else. *)
Theorem main_resolves_configuration fuel ARGS (w : World P) o st' out :
  main fuel ARGS (initial_globals, w) = (o, st', out) →
  get_available_regions P w ≠ [] →
  AVAILABLE_REGIONS st'.1 = get_available_regions P w ∧
  REGIONS st'.1 = match regions ARGS with
                  | None => get_available_regions P w
                  | Some given => split comma given
                  end ∧
  TAG_TO_SHOW st'.1 = default "Owner" (tag ARGS) ∧
  ATTRIBUTES_TO_SHOW st'.1
  = match attributes ARGS with
    | None => ["InstanceId"; "InstanceType"; "LaunchTime"]
    | Some given => split comma given
    end ∧
  COLUMNS st'.1 = TAG_TO_SHOW st'.1 :: ATTRIBUTES_TO_SHOW st'.1 ∧
  dom (COLUMN_WIDTHS st'.1) = list_to_set (COLUMNS st'.1).
Proof.
  intros Hrun Hsome. rewrite (main_configured _ _ _ Hsome) in Hrun.
  apply regions_loop_grows in Hrun. unfold on_globals in Hrun. simpl in Hrun.
  rewrite (grows_AVAILABLE_REGIONS _ _ Hrun), (grows_REGIONS _ _ Hrun),
    (grows_TAG_TO_SHOW _ _ Hrun), (grows_ATTRIBUTES_TO_SHOW _ _ Hrun),
    (grows_COLUMNS _ _ Hrun), (grows_dom _ _ Hrun).
  split; [done|]. split; [done|]. split; [done|].
  split; [unfold configured; by destruct (attributes ARGS)|]. split; [done|].
  unfold configured, COLUMN_WIDTHS, COLUMNS.
  rewrite named_widths_dom. set_solver.
Qed.

(** X11.  The output of a run that completes is the reports of the
    regions of the resolved list, one after the other in the order of the
    list and one for each occurrence of a name, each of them the banner of
    its region followed by a warning or by the count and a rectangular
    table. *)
Theorem completed_run_output fuel ARGS (w : World P) st' out :
  main fuel ARGS (initial_globals, w) = (Ok tt, st', out) →
  ∃ reports,
    out = concat reports ∧
    Forall2 region_report
      (match regions ARGS with
       | None => get_available_regions P w
       | Some given => split comma given
       end)
      reports.
Proof.
  intros Hrun.
  destruct (decide (get_available_regions P w = [])) as [Hnone|Hsome].
  { by rewrite (main_without_regions _ _ _ Hnone) in Hrun. }
  rewrite (main_configured _ _ _ Hsome) in Hrun.
  apply regions_loop_reports in Hrun; [done|].
  apply configured_invariant.
Qed.

End Whole_run.

Lemma exit_only_without_regions_witness :
  main (P:=scripted [] []) 1
    {| regions := Some "us-east-1"; tag := None; attributes := None |}
    (initial_globals, [])
  = (SysExit 1, (set_AVAILABLE_REGIONS [] initial_globals, []),
     [Print "ERROR: No available regions were returned."]) ∧
  ∀ code,
    (main (P:=one_region) 1
       {| regions := None; tag := None; attributes := Some "AmiLaunchIndex" |}
       (initial_globals,
        [Answer (page [dict [("AmiLaunchIndex", VInt 0)]] None)])).1.1
    ≠ SysExit code.
Proof.
  split.
  - destruct (main (P:=scripted [] []) 1 _ _) as [[o st'] out] eqn:Hrun.
    destruct (proj1 (exit_only_without_regions (P:=scripted [] []) _ _ _ _ _ _
                       Hrun) eq_refl) as (-> & -> & ->).
    reflexivity.
  - intros code.
    destruct (main (P:=one_region) 1 _ _) as [[o st'] out] eqn:Hrun.
    apply (proj2 (exit_only_without_regions (P:=one_region) _ _ _ _ _ _ Hrun)).
    discriminate.
Defined.

Lemma main_resolves_configuration_witness :
  let st' :=
    (main (P:=example_provider) 1
       {| regions := None; tag := Some "Name";
          attributes := Some "InstanceId,InstanceType" |}
       (initial_globals, [Answer (page [] None)])).1.2 in
  REGIONS st'.1 = ["us-east-1"; "eu-west-1"] ∧
  TAG_TO_SHOW st'.1 = "Name" ∧
  ATTRIBUTES_TO_SHOW st'.1 = ["InstanceId"; "InstanceType"] ∧
  COLUMNS st'.1 = TAG_TO_SHOW st'.1 :: ATTRIBUTES_TO_SHOW st'.1.
Proof.
  intros st'.
  destruct (main (P:=example_provider) 1
              {| regions := None; tag := Some "Name";
                 attributes := Some "InstanceId,InstanceType" |}
              (initial_globals, [Answer (page [] None)]))
    as [[o st''] out] eqn:Hrun.
  destruct (main_resolves_configuration (P:=example_provider) _ _ _ _ _ _ Hrun)
    as (_ & Hregions & Htag & Hattributes & Hcolumns & _); [discriminate|].
  subst st'. simpl.
  split; [exact Hregions|]. split; [exact Htag|].
  split; [exact Hattributes | exact Hcolumns].
Defined.

Lemma completed_run_output_witness :
  ∃ reports,
    (main (P:=example_provider) 1
       {| regions := Some "moon,us-east-1"; tag := None;
          attributes := Some "InstanceId" |}
       (initial_globals, [Answer (page [owned_by "i-1" "bob"] None)])).2
    = concat reports ∧
    Forall2 region_report ["moon"; "us-east-1"] reports.
Proof.
  destruct (main (P:=example_provider) 1
              {| regions := Some "moon,us-east-1"; tag := None;
                 attributes := Some "InstanceId" |}
              (initial_globals, [Answer (page [owned_by "i-1" "bob"] None)]))
    as [[o st'] out] eqn:Hrun.
  assert (o = Ok tt) as ->.
  { pose proof Hrun as Hvalue. vm_compute in Hvalue.
    by injection Hvalue as <- _ _. }
  exact (completed_run_output (P:=example_provider) _ _ _ _ _ Hrun).
Defined.

(* ===================================================================== *)
(** * The width of the tables *)
(* ===================================================================== *)

Lemma cells_total (cell : string → string) columns line :
  len (foldl (λ line column, line +:+ cell column) line columns)
  = len line + foldr (λ column total, len (cell column) + total) 0 columns.
Proof.
  revert line. induction columns as [|c l IH]; intros line; simpl; [lia|].
  rewrite IH, len_append. lia.
Qed.

Lemma heading_cells_width g columns :
  widths_cover_names g →
  (∀ column, column ∈ columns → is_Some (COLUMN_WIDTHS g !! column)) →
  foldr (λ column total,
           len (ljust column (column_width g column + COLUMN_MARGIN)) + total)
        0 columns
  = foldr (λ column total, column_width g column + COLUMN_MARGIN + total)
          0 columns.
Proof.
  intros Hcover Htracked. induction columns as [|c l IH]; simpl; [done|].
  rewrite len_ljust, IH by (intros column Hin; apply Htracked; by right).
  destruct (Htracked c) as [width Hwidth]; [by left|].
  pose proof (Hcover _ _ Hwidth).
  assert (column_width g c = width) as ->
    by (unfold column_width; by rewrite Hwidth).
  unfold COLUMN_MARGIN. lia.
Qed.

Lemma table_heading_width g :
  widths_invariant g → len (table_heading g) = table_width g.
Proof.
  intros [Hcover Htracked]. unfold table_heading, table_width.
  rewrite cells_total, heading_cells_width by done. done.
Qed.

Lemma columns_width_grows g g' columns :
  grows g g' →
  (∀ column, column ∈ columns → is_Some (COLUMN_WIDTHS g !! column)) →
  foldr (λ column total, column_width g column + COLUMN_MARGIN + total)
        0 columns
  ≤ foldr (λ column total, column_width g' column + COLUMN_MARGIN + total)
          0 columns.
Proof.
  intros Hgrows Htracked. induction columns as [|c l IH]; simpl; [done|].
  destruct (Htracked c) as [width Hwidth]; [by left|].
  destruct (grows_widths _ _ Hgrows _ _ Hwidth) as (width' & Hwidth' & Hle).
  assert (column_width g c = width) as ->
    by (unfold column_width; by rewrite Hwidth).
  assert (column_width g' c = width') as ->
    by (unfold column_width; by rewrite Hwidth').
  assert (foldr (λ column total, column_width g column + COLUMN_MARGIN + total)
                0 l
          ≤ foldr (λ column total, column_width g' column + COLUMN_MARGIN + total)
                  0 l) as Hl.
  { apply IH. intros column Hin. apply Htracked. by right. }
  lia.
Qed.

Lemma grows_table_width g g' :
  grows g g' → columns_tracked g → table_width g ≤ table_width g'.
Proof.
  intros Hgrows Htracked. unfold table_width.
  rewrite (grows_COLUMNS _ _ Hgrows). by apply columns_width_grows.
Qed.

Section Widths_of_tables.

Context {P : provider}.

(** X18.  With the widths covering the names of the columns, the heading
    of a table is as long as the widths of the columns and the margins
    after them add up to; and over the reports of any number of regions,
    however they end, this length does not decrease: no table of a run is
    narrower than one printed before it. *)
Theorem tables_never_narrow fuel regions (st : state P) o st' out :
  for_each regions (report fuel) tt st = (o, st', out) →
  widths_invariant st.1 →
  len (table_heading st.1) = table_width st.1 ∧
  len (table_heading st'.1) = table_width st'.1 ∧
  len (table_heading st.1) ≤ len (table_heading st'.1).
Proof.
  intros Hrun Hinv.
  apply regions_loop_grows in Hrun. unfold on_globals in Hrun.
  pose proof (grows_keeps_invariant _ _ Hrun Hinv) as Hinv'.
  rewrite !table_heading_width by done.
  split; [done|]. split; [done|].
  apply grows_table_width; [done | apply Hinv].
Qed.

End Widths_of_tables.

Lemma tables_never_narrow_witness :
  let st' :=
    (for_each (S:=state one_region) ["us-east-1"] (report 1) tt
       (table_globals,
        [Answer (page [owned_by "i-0123456789abcdef0" "alice"] None)])).1.2 in
  len (table_heading table_globals) = 21 ∧
  len (table_heading st'.1) = 30 ∧
  len (table_heading table_globals) ≤ len (table_heading st'.1).
Proof.
  intros st'.
  destruct (for_each (S:=state one_region) ["us-east-1"] (report 1) tt
              (table_globals,
               [Answer (page [owned_by "i-0123456789abcdef0" "alice"] None)]))
    as [[o st''] out] eqn:Hrun.
  destruct (tables_never_narrow (P:=one_region) _ _ _ _ _ _ Hrun
              table_globals_invariant) as (_ & _ & Hwider).
  subst st'. simpl in *.
  split; [reflexivity|]. split; [|exact Hwider].
  pose proof Hrun as Hvalue. vm_compute in Hvalue.
  injection Hvalue as _ <- _. reflexivity.
Defined.

(* ===================================================================== *)
(** * The names given on the command line *)
(* ===================================================================== *)

Lemma split_join sep s : join sep (split sep s) = s.
Proof.
  induction s as [|c s IH]; simpl; [done|].
  pose proof (split_not_empty sep s) as Hne.
  destruct (Ascii.eqb c sep) eqn:Hc.
  - apply Ascii.eqb_eq in Hc as ->.
    destruct (split sep s) as [|piece pieces]; [done|].
    simpl in *. by rewrite IH.
  - destruct (split sep s) as [|piece pieces]; [done|].
    destruct pieces as [|piece' pieces]; simpl in *; by rewrite <- IH.
Qed.

Lemma split_no_separator sep s :
  Forall (λ piece, contains sep piece = false) (split sep s).
Proof.
  induction s as [|c s IH]; simpl; [by constructor|].
  destruct (Ascii.eqb c sep) eqn:Hc; [by constructor|].
  destruct (split sep s) as [|piece pieces]; [by repeat constructor; simpl; rewrite Hc|].
  apply Forall_cons in IH as [Hpiece Hpieces].
  constructor; [|done]. simpl. by rewrite Hc.
Qed.

Lemma split_piece sep piece :
  contains sep piece = false → split sep piece = [piece].
Proof.
  induction piece as [|c piece IH]; simpl; [done|].
  intros [Hc Hpiece]%orb_false_elim. rewrite Hc. by rewrite IH.
Qed.

Lemma split_append sep piece rest :
  contains sep piece = false →
  split sep (piece +:+ String sep rest) = piece :: split sep rest.
Proof.
  induction piece as [|c piece IH]; simpl.
  - intros _. by rewrite Ascii.eqb_refl.
  - intros [Hc Hpiece]%orb_false_elim. rewrite Hc. by rewrite IH.
Qed.

Lemma join_split sep pieces :
  pieces ≠ [] →
  Forall (λ piece, contains sep piece = false) pieces →
  split sep (join sep pieces) = pieces.
Proof.
  induction pieces as [|piece pieces IH]; [done|]. intros _ Hall.
  apply Forall_cons in Hall as [Hpiece Hpieces].
  destruct pieces as [|piece' pieces]; simpl.
  - by apply split_piece.
  - rewrite split_append by done. f_equal. by apply IH.
Qed.

Section Names.

Context {P : provider}.

(** X12.  The lists given with [--attributes] and [--regions] are taken
    apart at the commas and at nothing else: the names, put together again
    with commas between them, are the argument as it was given, the empty
    names included; no name contains a comma; and any list of names
    without commas, of at least one name, is resolved to itself when it is
    given with commas between the names. *)
Theorem given_names_round_trip ARGS g (w : World P) :
  (∀ given,
     attributes ARGS = Some given →
     ∃ g',
       init_attributes ARGS g = (Ok tt, g', []) ∧
       join comma (ATTRIBUTES_TO_SHOW g') = given ∧
       Forall (λ name, contains comma name = false) (ATTRIBUTES_TO_SHOW g') ∧
       ∀ names,
         names ≠ [] →
         Forall (λ name, contains comma name = false) names →
         given = join comma names →
         ATTRIBUTES_TO_SHOW g' = names) ∧
  (∀ given,
     regions ARGS = Some given →
     get_available_regions P w ≠ [] →
     ∃ g',
       init_regions ARGS (g, w) = (Ok tt, (g', w), []) ∧
       join comma (REGIONS g') = given ∧
       Forall (λ name, contains comma name = false) (REGIONS g') ∧
       ∀ names,
         names ≠ [] →
         Forall (λ name, contains comma name = false) names →
         given = join comma names →
         REGIONS g' = names).
Proof.
  split.
  - intros given Hgiven. eexists. split; [by apply init_attributes_given|].
    simpl. split; [apply split_join|]. split; [apply split_no_separator|].
    intros names Hne Hnames ->. by apply join_split.
  - intros given Hgiven Hsome. eexists. split.
    { rewrite (init_regions_given _ _ _ _ Hgiven). by rewrite decide_False. }
    simpl. split; [apply split_join|]. split; [apply split_no_separator|].
    intros names Hne Hnames ->. by apply join_split.
Qed.

End Names.

Lemma given_names_round_trip_witness :
  ∃ g',
    init_attributes
      {| regions := None; tag := None; attributes := Some "InstanceId,,State" |}
      initial_globals
    = (Ok tt, g', []) ∧
    ATTRIBUTES_TO_SHOW g' = ["InstanceId"; ""; "State"].
Proof.
  destruct (proj1 (given_names_round_trip (P:=one_region)
                     {| regions := None; tag := None;
                        attributes := Some "InstanceId,,State" |}
                     initial_globals [])
              "InstanceId,,State" eq_refl)
    as (g' & Hrun & _ & _ & Hnames).
  exists g'. split; [exact Hrun|].
  apply Hnames; [discriminate | by repeat constructor | reflexivity].
Defined.

(* ===================================================================== *)
(** * A provider that never stops *)
(* ===================================================================== *)

Section Endless.

Context {P : provider}.

(** X13.  The loop over the pages has no bound of its own.  Against a
    client whose every response carries a continuation token it never
    returns, neither a list nor [None]; and when those responses hold no
    instance it is, whatever the number of turns it is given, still
    asking after the last of them, having made one request in each. *)
Theorem endless_pages_never_end region (client : Client P) :
  (∀ token w, ∃ response w',
     describe_instances P client token w = (Answer response, w') ∧
     is_none (next_token response) = false) →
  (∀ fuel token results st result st' events,
     fetching fuel region client token results st
     ≠ (Ok result, st', events)) ∧
  ((∀ token w response w',
      describe_instances P client token w = (Answer response, w') →
      response_instances response = Ok []) →
   ∀ fuel token results st,
     ∃ st' tokens,
       fetching fuel region client token results st
       = (OutOfFuel, st', DescribeInstances <$> tokens) ∧
       length tokens = fuel).
Proof.
  intros Hmore. split.
  - induction fuel as [|fuel IH]; intros token results [g w] result st' events H;
      [done|].
    simpl in H.
    apply bind_Ok_inv in H as (answer & st1 & oa1 & oa2 & Hdescribe & H & ->).
    unfold describe in Hdescribe. simpl in Hdescribe.
    destruct (Hmore token w) as (response & w1 & Hanswer & Hnext).
    rewrite Hanswer in Hdescribe. injection Hdescribe as <- <- <-.
    apply bind_Ok_inv in H as (results1 & st2 & ob1 & ob2 & Hcollect & H & ->).
    apply bind_Ok_inv in H as (next & st3 & oc1 & oc2 & Hget & H & ->).
    injection Hget as Hget <- <-.
    unfold next_token in Hnext. rewrite Hget in Hnext. rewrite Hnext in H.
    by eapply IH.
  - intros Hempty.
    induction fuel as [|fuel IH]; intros token results [g w].
    + by exists (g, w), [].
    + destruct (Hmore token w) as (response & w1 & Hanswer & Hnext).
      pose proof (Hempty _ _ _ _ Hanswer) as Hinstances.
      destruct (IH (next_token response) results (g, w1))
        as (st' & tokens & Hrest & Hlength).
      exists st', (token :: tokens). split; [|by simpl; f_equal].
      rewrite (fetching_next _ _ _ _ _ _ _ _ _ [] [] g Hanswer Hnext
                 Hinstances (normalised_nil g)).
      rewrite app_nil_r. by rewrite Hrest.
Qed.

End Endless.

Lemma endless_pages_never_end_witness :
  ∃ st' tokens,
    fetching (P:=repeating (page [] (Some "more"))) 3 "us-east-1" () (VStr "") []
      (owner_globals, ())
    = (OutOfFuel, st', DescribeInstances <$> tokens) ∧
    length tokens = 3%nat.
Proof.
  refine (proj2 (endless_pages_never_end (P:=repeating (page [] (Some "more")))
                   "us-east-1" () _) _ 3%nat (VStr "") [] (owner_globals, ())).
  - intros token w. by eexists _, _.
  - intros token w response w' [= <- _]. reflexivity.
Defined.

(* ===================================================================== *)
(** * What a record is made of *)
(* ===================================================================== *)

Lemma attribute_value_ext m1 m2 attribute :
  m1 !! attribute = m2 !! attribute →
  attribute_value m1 attribute = attribute_value m2 attribute.
Proof. unfold attribute_value. by intros ->. Qed.

Lemma attributes_item_ext m1 m2 attributes item :
  (∀ attribute, attribute ∈ attributes → m1 !! attribute = m2 !! attribute) →
  attributes_item m1 attributes item = attributes_item m2 attributes item.
Proof.
  revert item. induction attributes as [|a l IH]; intros item Hsame; [done|].
  unfold attributes_item in *. simpl.
  rewrite (attribute_value_ext m1 m2 a) by (apply Hsame; by left).
  apply IH. intros attribute Hin. apply Hsame. by right.
Qed.

Lemma attributes_widths_ext m1 m2 attributes widths :
  (∀ attribute, attribute ∈ attributes → m1 !! attribute = m2 !! attribute) →
  attributes_widths m1 attributes widths = attributes_widths m2 attributes widths.
Proof.
  revert widths. induction attributes as [|a l IH]; intros widths Hsame; [done|].
  unfold attributes_widths in *. simpl.
  rewrite (attribute_value_ext m1 m2 a) by (apply Hsame; by left).
  apply IH. intros attribute Hin. apply Hsame. by right.
Qed.

(** The loop over the tags only looks at the entries of the sort tag. *)
Lemma tags_item_filter TAG tags item :
  tags_item TAG (filter (λ tag, has_key TAG tag) tags) item
  = tags_item TAG tags item.
Proof.
  revert item. induction tags as [|tag l IH]; intros item; [done|].
  rewrite filter_cons. unfold tags_item in *.
  destruct (has_key TAG tag) eqn:Hkey; simpl; by rewrite ?Hkey, IH.
Qed.

(** X14.  For an attribute that is not the sort tag, the record holds
    what the raw instance holds: the value as it is, the text of
    [ctime()] for a [datetime], and ["(no attribute key)"] when the
    instance has no such key. *)
Theorem attribute_values_are_copied g m item g' out attribute :
  get_instance_data (VDict m) g = (Ok (VDict item), g', out) →
  attribute ∈ ATTRIBUTES_TO_SHOW g →
  attribute ≠ TAG_TO_SHOW g →
  item !! attribute
  = Some (match m !! attribute with
          | Some (VDatetime ctime) => VStr ctime
          | Some value => value
          | None => VStr "(no attribute key)"
          end).
Proof.
  intros Hrun Hin Hne.
  apply get_instance_data_Ok in Hrun as (m' & tags & [= <-] & _ & _ & [= ->]);
    [|done].
  rewrite with_unknown_lookup_other, tags_item_lookup_other by done.
  by rewrite attributes_item_lookup.
Qed.

Lemma attribute_values_are_copied_witness :
  ∃ item,
    (get_instance_data unowned_instance
       (configured {| regions := None; tag := None; attributes := None |}
                   ["us-east-1"])).1.1
    = Ok (VDict item) ∧
    item !! "LaunchTime" = Some (VStr "Mon Jan  1 00:00:00 2018") ∧
    item !! "InstanceType" = Some (VStr "t2.micro").
Proof.
  set (g := configured {| regions := None; tag := None; attributes := None |}
                       ["us-east-1"]).
  destruct (get_instance_data unowned_instance g) as [[o g'] out] eqn:Hrun.
  assert (∃ item, o = Ok (VDict item)) as [item ->].
  { pose proof Hrun as Hvalue. vm_compute in Hvalue.
    injection Hvalue as <- _ _. by eexists. }
  exists item. split; [done|]. split.
  - refine (attribute_values_are_copied g _ item g' out "LaunchTime" Hrun _ _).
    + apply (bool_decide_unpack _). vm_compute. exact I.
    + discriminate.
  - refine (attribute_values_are_copied g _ item g' out "InstanceType" Hrun _ _).
    + apply (bool_decide_unpack _). vm_compute. exact I.
    + discriminate.
Defined.

(** X15.  The record, and the widths the normaliser leaves, depend on the
    raw instance through its requested attributes and through the entries
    of its tag list that have the sort tag as key, and through nothing
    else: two instances that agree on these get the same record and leave
    the same globals. *)
Theorem record_ignores_the_rest g m1 m2 tags1 tags2 record1 record2 g1 g2
    out1 out2 :
  get_instance_data (VDict m1) g = (Ok record1, g1, out1) →
  get_instance_data (VDict m2) g = (Ok record2, g2, out2) →
  (∀ attribute, attribute ∈ ATTRIBUTES_TO_SHOW g →
     m1 !! attribute = m2 !! attribute) →
  instance_tags (VDict m1) = Ok tags1 →
  instance_tags (VDict m2) = Ok tags2 →
  filter (λ tag, has_key (TAG_TO_SHOW g) tag) tags1
  = filter (λ tag, has_key (TAG_TO_SHOW g) tag) tags2 →
  record1 = record2 ∧ g1 = g2.
Proof.
  intros Hrun1 Hrun2 Hsame Htags1 Htags2 Hfilter.
  apply get_instance_data_exact in Hrun1
    as (? & tags1' & [= <-] & Htags1' & -> & -> & _ & _); [|done].
  apply get_instance_data_exact in Hrun2
    as (? & tags2' & [= <-] & Htags2' & -> & -> & _ & _); [|done].
  rewrite Htags1 in Htags1'. injection Htags1' as <-.
  rewrite Htags2 in Htags2'. injection Htags2' as <-.
  assert (record_item g m1 tags1 = record_item g m2 tags2) as Hitem.
  { unfold record_item.
    rewrite <- (tags_item_filter _ tags1), <- (tags_item_filter _ tags2).
    by rewrite Hfilter, (attributes_item_ext m1 m2). }
  split; [by rewrite Hitem|].
  unfold record_widths, sort_tag_value.
  by rewrite Hitem, (attributes_widths_ext m1 m2).
Qed.

Lemma record_ignores_the_rest_witness :
  get_instance_data
    (dict [("InstanceId", VStr "i-1"); ("InstanceType", VStr "t2.micro");
           ("Tags", VList [name_tag "web"; owner_tag "bob"])])
    owner_globals
  = get_instance_data
      (dict [("InstanceId", VStr "i-1"); ("State", VStr "running");
             ("Tags", VList [owner_tag "bob"; name_tag "db"])])
      owner_globals.
Proof.
  set (m1 := list_to_map [("InstanceId", VStr "i-1");
                          ("InstanceType", VStr "t2.micro");
                          ("Tags", VList [name_tag "web"; owner_tag "bob"])]
             : gmap string pyval).
  set (m2 := list_to_map [("InstanceId", VStr "i-1");
                          ("State", VStr "running");
                          ("Tags", VList [owner_tag "bob"; name_tag "db"])]
             : gmap string pyval).
  change (get_instance_data (VDict m1) owner_globals
          = get_instance_data (VDict m2) owner_globals).
  destruct (get_instance_data (VDict m1) owner_globals) as [[o1 g1] out1]
    eqn:Hrun1.
  destruct (get_instance_data (VDict m2) owner_globals) as [[o2 g2] out2]
    eqn:Hrun2.
  assert (o1 = Ok (record_of "i-1" "bob") ∧ out1 = []) as [-> ->].
  { pose proof Hrun1 as Hvalue. vm_compute in Hvalue.
    by injection Hvalue as <- _ <-. }
  assert (o2 = Ok (record_of "i-1" "bob") ∧ out2 = []) as [-> ->].
  { pose proof Hrun2 as Hvalue. vm_compute in Hvalue.
    by injection Hvalue as <- _ <-. }
  destruct (record_ignores_the_rest owner_globals m1 m2
              [name_tag "web"; owner_tag "bob"]
              [owner_tag "bob"; name_tag "db"]
              _ _ _ _ _ _ Hrun1 Hrun2) as [_ ->]; try reflexivity.
  intros attribute ->%list_elem_of_singleton. reflexivity.
Defined.

(* ===================================================================== *)
(** * A region of textual instances, on a concrete provider *)
(* ===================================================================== *)

Lemma owned_by_textual g id owner :
  ATTRIBUTES_TO_SHOW g = ["InstanceId"] →
  textual_instance g (owned_by id owner).
Proof.
  intros Hattributes. split; [done|]. split.
  - intros attribute value. rewrite Hattributes.
    intros ->%list_elem_of_singleton Hvalue.
    vm_compute in Hvalue. by injection Hvalue as <-.
  - exists [owner_tag owner]. split; [reflexivity|].
    constructor; [|constructor]. split; [done|].
    intros value Hvalue. vm_compute in Hvalue. by injection Hvalue as <-.
Qed.

Lemma get_instances_textual_witness :
  ∃ records g',
    get_instances (P:=example_provider) 2 "us-east-1"
      (owner_globals,
       [Answer (page [owned_by "i-1" "b"] (Some "t1"));
        Answer (page [owned_by "i-2" "a"] None)])
    = (Ok (Some records), (g', []),
       [NewClient "us-east-1"; DescribeInstances (VStr "");
        DescribeInstances (VStr "t1")]) ∧
    length records = 2%nat ∧
    StronglySorted (tag_le "Owner") records.
Proof.
  destruct (get_instances_textual (P:=example_provider) 2 "us-east-1"
              (owner_globals,
               [Answer (page [owned_by "i-1" "b"] (Some "t1"));
                Answer (page [owned_by "i-2" "a"] None)])
              "us-east-1"
              [Answer (page [owned_by "i-1" "b"] (Some "t1"));
               Answer (page [owned_by "i-2" "a"] None)]
              [page [owned_by "i-1" "b"] (Some "t1")]
              (VStr "t1")
              [Answer (page [owned_by "i-2" "a"] None)]
              (page [owned_by "i-2" "a"] None)
              []
              [owned_by "i-1" "b"; owned_by "i-2" "a"])
    as (records & g' & Hrun & Hlength & Hsorted & _).
  - apply (bool_decide_unpack _). vm_compute. exact I.
  - reflexivity.
  - eapply served_cons; [reflexivity | reflexivity | apply served_nil].
  - reflexivity.
  - reflexivity.
  - reflexivity.
  - repeat (apply Forall_cons; split; [by apply owned_by_textual|]).
    apply Forall_nil_2.
  - apply owner_globals_tracked.
  - simpl. lia.
  - exists records, g'. split; [exact Hrun|]. split; [exact Hlength|].
    exact Hsorted.
Defined.

(* ===================================================================== *)
(** * Runs on well-formed responses *)
(* ===================================================================== *)

Lemma textual_record_values g m tags :
  (∀ attribute value,
     attribute ∈ ATTRIBUTES_TO_SHOW g →
     m !! attribute = Some value → is_text value) →
  Forall (λ tag, is_dict tag ∧
                 ∀ value, field tag "Value" = Some value → text_or_none value)
         tags →
  text_valued (TAG_TO_SHOW g) (VDict (record_item g m tags)).
Proof.
  intros Htext Htags.
  assert (∀ attribute, attribute ∈ ATTRIBUTES_TO_SHOW g →
            ∃ s, attribute_value m attribute = VStr s) as Hvalue.
  { intros attribute Hin. unfold attribute_value.
    destruct (m !! attribute) as [value|] eqn:Hvalue; [|by eexists].
    specialize (Htext _ _ Hin Hvalue). destruct value; try done; by eexists. }
  destruct (sort_tag_is_text (TAG_TO_SHOW g) tags
              (attributes_item m (ATTRIBUTES_TO_SHOW g) ∅)) as [s Hs];
    [done| |].
  { intros value.
    destruct (decide (TAG_TO_SHOW g ∈ ATTRIBUTES_TO_SHOW g)) as [Hin|Hout].
    - rewrite attributes_item_lookup by done. intros [= <-].
      by destruct (Hvalue _ Hin) as [s ->].
    - rewrite attributes_item_lookup_other by done. by rewrite lookup_empty. }
  fold (record_item g m tags) in Hs.
  eexists. split; [done|]. split; [|by exists s].
  intros key value. destruct (decide (key = TAG_TO_SHOW g)) as [->|Hne].
  - rewrite Hs. intros [= <-]. by eexists.
  - rewrite record_item_lookup_other by done.
    case_decide as Hin; [|done]. intros [= <-]. by apply Hvalue.
Qed.

Lemma normalised_textual g instances :
  Forall (textual_instance g) instances →
  record_keys_tracked g →
  ∃ records g',
    normalised g instances records g' ∧
    Forall (text_valued (TAG_TO_SHOW g)) records.
Proof.
  intros Hinstances. revert g Hinstances.
  induction instances as [|instance l IH]; intros g Hinstances Htracked.
  - exists [], g. split; constructor.
  - apply Forall_cons in Hinstances as [Hinstance Hl].
    destruct (get_instance_data_total g instance Hinstance Htracked)
      as (item & g1 & s & Hrun & Hs).
    pose proof (get_instance_data_grows _ _ _ _ _ Hrun) as Hgrows.
    destruct (IH g1) as (records & g' & Hrecords & Hvalues).
    { eapply Forall_impl; [exact Hl|]. intros ?. by apply grows_textual_instance. }
    { by eapply grows_record_keys_tracked. }
    exists (VDict item :: records), g'.
    split; [by econstructor|]. constructor.
    + destruct Hinstance as (Hdict & Htext & tags & Htags & Hwf).
      apply get_instance_data_exact in Hrun
        as (m & tags' & -> & Htags' & [= ->] & _); [|by intros ->].
      rewrite Htags in Htags'. injection Htags' as <-.
      by apply textual_record_values.
    + by rewrite <- (grows_TAG_TO_SHOW _ _ Hgrows).
Qed.

Lemma text_valued_keys TAG records :
  Forall (text_valued TAG) records →
  ∃ keys, Forall2 (λ record s, tag_of TAG record = Some s) records keys.
Proof.
  induction 1 as [|record l (item & -> & _ & s & Hs) _ [keys IH]].
  - by exists [].
  - exists (s :: keys). constructor; [|done]. unfold tag_of. simpl. by rewrite Hs.
Qed.

Lemma text_valued_text_record g record :
  text_valued (TAG_TO_SHOW g) record → text_record g record.
Proof.
  intros (item & -> & Hvalues & _). split; [done|].
  intros column value _. apply Hvalues.
Qed.

Lemma print_table_total dict_list g :
  columns_tracked g →
  Forall (text_record g) dict_list →
  ∃ out, print_table dict_list g = (Ok tt, g, out).
Proof.
  intros Htracked Hrecords. unfold print_table.
  case_decide; [by eexists|].
  erewrite bind_Ok; [|done].
  erewrite bind_Ok; [|by apply heading_cells_total].
  erewrite bind_Ok; [|done]. erewrite bind_Ok; [|done].
  rewrite print_rows_total by done. by eexists.
Qed.

Section Well_formed.

Context {P : provider}.

Lemma grows_steady g0 g g' : grows g g' → steady g0 g → steady g0 g'.
Proof.
  intros Hgrows (Hattrs & Htag & Hkeys & Hcolumns).
  split; [by rewrite (grows_ATTRIBUTES_TO_SHOW _ _ Hgrows)|].
  split; [by rewrite (grows_TAG_TO_SHOW _ _ Hgrows)|].
  split; [by eapply grows_record_keys_tracked
         | by eapply grows_columns_tracked].
Qed.

Lemma well_formed_steady g0 g response :
  steady g0 g → well_formed g0 response → well_formed g response.
Proof.
  intros (Hattrs & _) (instances & Hinstances & Htextual).
  exists instances. split; [done|].
  eapply Forall_impl; [exact Htextual|].
  intros instance (Hdict & Htext & Htags). split; [done|]. split; [|done].
  intros attribute value. rewrite Hattrs. apply Htext.
Qed.

Context (g0 : globals).
Context (Hprovider :
  ∀ client token w response w',
    describe_instances P client token w = (Answer response, w') →
    well_formed g0 response).

Lemma fetching_well_formed fuel region (client : Client P) token results g w
    o st' events :
  steady g0 g →
  Forall (text_valued (TAG_TO_SHOW g0)) results →
  fetching fuel region client token results (g, w) = (o, st', events) →
  match o with
  | Ok (Some results') => Forall (text_valued (TAG_TO_SHOW g0)) results'
  | Ok None | OutOfFuel => True
  | _ => False
  end.
Proof using Hprovider.
  revert token results g w o st' events.
  induction fuel as [|fuel IH];
    intros token results g w o st' events Hsteady Hresults H.
  { by injection H as <- _ _. }
  simpl in H.
  destruct (describe_instances P client token w) as [answer w1] eqn:Hanswer.
  rewrite (bind_Ok _ _ _ _ _ _ (describe_run _ _ g _ _ _ Hanswer)) in H.
  destruct answer as [response|diagnostic].
  2:{ cbv [bind warn print emit ret] in H. simpl in H. by injection H as <- _ _. }
  destruct (well_formed_steady _ _ _ Hsteady (Hprovider _ _ _ _ _ Hanswer))
    as (instances & Hinstances & Htextual).
  destruct (normalised_textual g instances Htextual)
    as (records & g1 & Hrecords & Hvalues); [apply Hsteady|].
  pose proof (normalised_grows _ _ _ _ Hrecords) as Hgrows.
  cbv beta iota in H.
  erewrite bind_Ok in H;
    [|apply zoom_run; rewrite (collect_response_instances _ _ _ _ Hinstances);
      by apply normalised_collect_instances].
  assert (∃ next, py_get response "NextToken" VNone = Ok next) as [next Hnext].
  { unfold response_instances in Hinstances.
    destruct response; try discriminate. simpl.
    destruct (_ !! "NextToken"); by eexists. }
  rewrite Hnext in H. erewrite bind_Ok in H; [|done].
  assert (Forall (text_valued (TAG_TO_SHOW g0)) (results ++ records)) as Hall.
  { apply Forall_app. split; [done|].
    destruct Hsteady as (_ & <- & _). done. }
  destruct (is_none next).
  - injection H as <- _ _. done.
  - destruct (fetching fuel region client next (results ++ records) (g1, w1))
      as [[o1 st1] events1] eqn:Hrest.
    injection H as <- _ _.
    eapply IH; [|exact Hall|exact Hrest]. by eapply grows_steady.
Qed.

(** With responses that carry no continuation token, the first turn of
    the loop is the last. *)
Lemma fetching_single_page fuel region (client : Client P) token results g w
    st' events :
  (∀ client token w response w',
     describe_instances P client token w = (Answer response, w') →
     next_token response = VNone) →
  steady g0 g →
  fetching (S fuel) region client token results (g, w)
  ≠ (OutOfFuel, st', events).
Proof using Hprovider.
  intros Hlast Hsteady H.
  destruct (describe_instances P client token w) as [answer w1] eqn:Hanswer.
  destruct answer as [response|diagnostic];
    [|by rewrite (fetching_fails _ _ _ _ _ _ _ _ _ Hanswer) in H].
  destruct (well_formed_steady _ _ _ Hsteady (Hprovider _ _ _ _ _ Hanswer))
    as (instances & Hinstances & Htextual).
  destruct (normalised_textual g instances Htextual)
    as (records & g1 & Hrecords & Hvalues); [apply Hsteady|].
  rewrite (fetching_last _ _ _ _ _ _ _ _ _ _ _ _ Hanswer
             (Hlast _ _ _ _ _ Hanswer) Hinstances Hrecords) in H.
  done.
Qed.

Section Regions.

(** The turns the loop over the pages is given, and what its running out
    of them tells. *)
Context (fuel : nat) (still_asking : Prop).
Context (Hfetching :
  ∀ region (client : Client P) token results g (w : World P) st' events,
    steady g0 g →
    fetching fuel region client token results (g, w)
    = (OutOfFuel, st', events) →
    still_asking).

Lemma get_instances_well_formed region (st st' : state P) o events :
  steady g0 st.1 →
  get_instances fuel region st = (o, st', events) →
  match o with
  | Ok (Some records) => Forall (text_valued (TAG_TO_SHOW g0)) records
  | Ok None => True
  | OutOfFuel => still_asking
  | _ => False
  end.
Proof using Hprovider Hfetching.
  destruct st as [g w0]. intros Hsteady H.
  destruct (decide (region ∈ AVAILABLE_REGIONS g)) as [Hregion|Hregion].
  2:{ rewrite (get_instances_not_available fuel region (g, w0)) in H by done.
      by injection H as <- _ _. }
  destruct (boto3_client P region w0) as [answer w] eqn:Hclient.
  rewrite (get_instances_client fuel region (g, w0) _ _ Hregion Hclient) in H.
  destruct answer as [client|diagnostic]; [|by injection H as <- _ _].
  simpl in H.
  destruct (fetching fuel region client (VStr "") [] (g, w))
    as [[o1 [g1 w1]] events1] eqn:Hfetch.
  pose proof (fetching_grows _ _ _ _ _ _ _ _ _ Hfetch) as Hgrows.
  unfold on_globals in Hgrows. simpl in Hgrows.
  pose proof (fetching_well_formed _ _ _ _ _ _ _ _ _ _ Hsteady
                (Forall_nil_2 _) Hfetch) as Hfetched.
  unfold bind at 1 in H. rewrite Hfetch in H.
  destruct o1 as [[results|]|e| |]; try done.
  - destruct (text_valued_keys _ _ Hfetched) as [keys Hkeys].
    destruct (sorted_records _ _ _ Hkeys) as (records & Hsorted & Hperm & _).
    assert (TAG_TO_SHOW g1 = TAG_TO_SHOW g0) as Htag.
    { rewrite (grows_TAG_TO_SHOW _ _ Hgrows). apply Hsteady. }
    revert H. cbv [bind zoom read lift ret]. simpl.
    rewrite Htag, Hsorted. intros [= <- _ _]. by rewrite Hperm.
  - revert H. cbv [ret]. by intros [= <- _ _].
  - injection H as <- _ _. by eapply Hfetching.
Qed.

Lemma report_well_formed region (st st' : state P) o out :
  steady g0 st.1 →
  report fuel region tt st = (o, st', out) →
  o = Ok tt ∨ (o = OutOfFuel ∧ still_asking).
Proof using Hprovider Hfetching.
  intros Hsteady H. unfold report in H.
  erewrite bind_Ok in H; [|done]. erewrite bind_Ok in H; [|done].
  destruct (get_instances fuel region st) as [[o1 [g1 w1]] events1] eqn:Hget.
  pose proof (get_instances_grows _ _ _ _ _ _ Hget) as Hgrows.
  unfold on_globals in Hgrows. simpl in Hgrows.
  pose proof (get_instances_well_formed _ _ _ _ _ Hsteady Hget) as Hrecords.
  unfold bind at 1 in H. rewrite Hget in H.
  destruct o1 as [[records|]|e| |]; try done.
  - destruct (print_table_total records g1) as [table Htable].
    { eapply grows_columns_tracked; [done | apply Hsteady]. }
    { eapply Forall_impl; [exact Hrecords|]. intros record Hrecord.
      apply text_valued_text_record.
      destruct (grows_steady _ _ _ Hgrows Hsteady) as (_ & -> & _). done. }
    erewrite bind_Ok in H; [|done].
    rewrite (zoom_run _ _ _ _ _ _ Htable) in H.
    injection H as <- _ _. by left.
  - revert H. cbv [ret]. intros [= <- _ _]. by left.
  - injection H as <- _ _. by right.
Qed.

Lemma regions_loop_well_formed regions (st st' : state P) o out :
  steady g0 st.1 →
  for_each regions (report fuel) tt st = (o, st', out) →
  o = Ok tt ∨ (o = OutOfFuel ∧ still_asking).
Proof using Hprovider Hfetching.
  revert st st' o out.
  induction regions as [|region l IH]; intros st st' o out Hsteady H.
  - injection H as <- _ _. by left.
  - simpl in H.
    destruct (report fuel region tt st) as [[o1 st1] out1] eqn:Hreport.
    pose proof (report_grows _ _ _ _ _ _ _ Hreport) as Hgrows.
    destruct (report_well_formed _ _ _ _ _ Hsteady Hreport) as [-> | [-> ?]].
    + unfold bind in H. rewrite Hreport in H.
      destruct (for_each l (report fuel) tt st1) as [[o2 st2] out2] eqn:Hrest.
      injection H as <- _ _.
      eapply IH; [|exact Hrest]. by eapply grows_steady.
    + unfold bind in H. rewrite Hreport in H. injection H as <- _ _. by right.
Qed.

End Regions.

End Well_formed.

Section Well_formed_run.

Context {P : provider}.

(** X17.  Against a provider that reports some region and whose every
    response is well formed for the configuration (a dict whose
    reservations and instances can be iterated, the instances being dicts
    whose requested attributes are text or timestamps and whose tag
    entries are dicts with text or [None] as values), no run of [main]
    raises an exception or exits: it completes, unless the provider never
    stops handing out continuation tokens. *)
Theorem well_formed_runs_do_not_raise fuel ARGS (w : World P) o st' out :
  (∀ client token w0 response w1,
     describe_instances P client token w0 = (Answer response, w1) →
     well_formed (configured ARGS (get_available_regions P w)) response) →
  get_available_regions P w ≠ [] →
  main fuel ARGS (initial_globals, w) = (o, st', out) →
  o = Ok tt ∨ o = OutOfFuel.
Proof.
  intros Hprovider Hsome Hrun.
  rewrite (main_configured _ _ _ Hsome) in Hrun.
  set (g0 := configured ARGS (get_available_regions P w)) in *.
  assert (steady g0 g0) as Hsteady
    by (split; [done|]; split; [done|]; apply configured_tracked).
  destruct (regions_loop_well_formed g0 Hprovider fuel True
              (λ _ _ _ _ _ _ _ _ _ _, I) _ (g0, w) _ _ _ Hsteady Hrun)
    as [->|[-> _]]; settle.
Qed.

(** X19.  Against a provider that reports some region and whose every
    response is well formed for the configuration and carries no
    continuation token, every run of [main] completes: it returns, with
    no exception raised and no exit, whatever the command line and the
    number of regions, as soon as the loop over the pages is given one
    turn. *)
Theorem single_page_runs_complete fuel ARGS (w : World P) :
  (∀ client token w0 response w1,
     describe_instances P client token w0 = (Answer response, w1) →
     well_formed (configured ARGS (get_available_regions P w)) response ∧
     next_token response = VNone) →
  get_available_regions P w ≠ [] →
  ∃ st' out, main (S fuel) ARGS (initial_globals, w) = (Ok tt, st', out).
Proof.
  intros Hprovider Hsome.
  destruct (main (S fuel) ARGS (initial_globals, w)) as [[o st'] out] eqn:Hrun.
  exists st', out.
  rewrite (main_configured _ _ _ Hsome) in Hrun.
  assert (∀ client token w0 response w1,
            describe_instances P client token w0 = (Answer response, w1) →
            well_formed (configured ARGS (get_available_regions P w)) response)
    as Hformed by (intros ? ? ? ? ? H; by apply Hprovider in H as [? _]).
  set (g0 := configured ARGS (get_available_regions P w)) in *.
  assert (steady g0 g0) as Hsteady
    by (split; [done|]; split; [done|]; apply configured_tracked).
  assert (∀ region (client : Client P) token results g (w0 : World P) st0
            events,
            steady g0 g →
            fetching (S fuel) region client token results (g, w0)
            = (OutOfFuel, st0, events) →
            False) as Hfetching.
  { intros region client token results g w0 st0 events Hg Hfetch.
    eapply (fetching_single_page g0 Hformed); [|exact Hg|exact Hfetch].
    intros ? ? ? ? ? H. by apply Hprovider in H as [_ ?]. }
  by destruct (regions_loop_well_formed g0 Hformed (S fuel) False Hfetching
                 _ (g0, w) _ _ _ Hsteady Hrun) as [->|[_ []]].
Qed.

End Well_formed_run.

Lemma well_formed_runs_do_not_raise_witness :
  let o :=
    (main (P:=repeating (page [owned_by "i-1" "bob"] None)) 1
       {| regions := None; tag := None; attributes := Some "InstanceId" |}
       (initial_globals, ())).1.1 in
  o = Ok tt ∨ o = OutOfFuel.
Proof.
  intros o.
  destruct (main (P:=repeating (page [owned_by "i-1" "bob"] None)) 1
              {| regions := None; tag := None; attributes := Some "InstanceId" |}
              (initial_globals, ())) as [[o' st'] out] eqn:Hrun.
  subst o. simpl.
  refine (well_formed_runs_do_not_raise
            (P:=repeating (page [owned_by "i-1" "bob"] None)) _ _ _ _ _ _
            _ _ Hrun).
  - intros client token w0 response w1 [= <- _].
    exists [owned_by "i-1" "bob"]. split; [reflexivity|].
    apply Forall_cons. split; [by apply owned_by_textual | apply Forall_nil_2].
  - discriminate.
Defined.

Lemma single_page_runs_complete_witness :
  ∃ st' out,
    main (P:=repeating (page [owned_by "i-1" "bob"] None)) 1
      {| regions := None; tag := None; attributes := Some "InstanceId" |}
      (initial_globals, ())
    = (Ok tt, st', out).
Proof.
  apply (single_page_runs_complete
           (P:=repeating (page [owned_by "i-1" "bob"] None)) 0).
  - intros client token w0 response w1 [= <- _]. split; [|reflexivity].
    exists [owned_by "i-1" "bob"]. split; [reflexivity|].
    apply Forall_cons. split; [by apply owned_by_textual | apply Forall_nil_2].
  - discriminate.
Defined.
